(** * Coin selection of blockchain-wallet-v4: a shallow embedding

    Source: [packages/blockchain-wallet-v4/src/coinSelection/index.js].

    The development follows the file top-down: JavaScript numbers and
    completions, the string primitives used by [getByteCount], the size
    estimator, the [Coin] interface (its module, [coin.js], is imported by the
    source and not part of it), the target-matching core [ft], the selection
    strategies and the branch-and-bound search. *)

From Stdlib Require Import ZArith QArith Qround String Ascii List Bool Lia.
From Stdlib Require Import Lqa DecimalString DecimalNat.
From stdpp Require Import base list.
Import ListNotations.

Local Open Scope string_scope.
Local Open Scope list_scope.
Local Open Scope Z_scope.

(** ** JavaScript numbers

    Every number the selection code computes is an integer or the one
    non-number the code can produce itself: [undefined * n], which is [NaN].
    Arithmetic is on the integers: the doubles of the source agree with it
    as long as no value exceeds the largest safe integer, [2^53 - 1], in
    magnitude, and round beyond it. Amounts of coins and numbers of coins
    are far below that bound; for the counts and numerals [getByteCount]
    accepts from a caller, the statements that need the bound carry it
    ([exactWeights]). Any comparison with [NaN] is false. *)

Inductive jsnum : Type :=
| Num (z : Z)
| NaN.

Definition jadd (a b : jsnum) : jsnum :=
  match a, b with
  | Num x, Num y => Num (x + y)
  | _, _ => NaN
  end.

Definition jsub (a b : jsnum) : jsnum :=
  match a, b with
  | Num x, Num y => Num (x - y)
  | _, _ => NaN
  end.

Definition jmul (a b : jsnum) : jsnum :=
  match a, b with
  | Num x, Num y => Num (x * y)
  | _, _ => NaN
  end.

Definition jlt (a b : jsnum) : bool :=
  match a, b with
  | Num x, Num y => x <? y
  | _, _ => false
  end.

Definition jgt (a b : jsnum) : bool := jlt b a.

Definition jge (a b : jsnum) : bool :=
  match a, b with
  | Num x, Num y => y <=? x
  | _, _ => false
  end.

(** [Math.ceil (w / 4)]. *)
Definition ceil_div4 (w : jsnum) : jsnum :=
  match w with
  | Num z => Num (- ((- z) / 4))
  | NaN => NaN
  end.

(** [clamp(0, Infinity, v)] of ramda:
    [v < min ? min : v > max ? max : v]. *)
Definition clamp0 (v : jsnum) : jsnum :=
  if jlt v (Num 0) then Num 0 else v.

Declare Scope js_scope.
Delimit Scope js_scope with js.
Infix "+" := jadd : js_scope.
Infix "-" := jsub : js_scope.
Infix "*" := jmul : js_scope.

(** ** Completions: a call returns or throws *)

Inductive exn : Type :=
| RangeError (msg : string)
| Error (msg : string).

Inductive completion (A : Type) : Type :=
| Return (a : A)
| Throw (e : exn).

Arguments Return {A} a.
Arguments Throw {A} e.

Definition bind {A B : Type} (m : completion A) (k : A -> completion B)
  : completion B :=
  match m with
  | Return a => k a
  | Throw e => Throw e
  end.

Notation "'let*' x ':=' m 'in' k" := (bind m (fun x => k))
  (at level 10, x name, m at level 100, k at level 200).

Definition throws {A : Type} (m : completion A) : Prop :=
  exists e, m = Throw e.

(** [xs.forEach(f)] over a mutable state [S], stopping at the first throw. *)
Fixpoint forEach {K S : Type} (f : S -> K -> completion S) (xs : list K) (s : S)
  : completion S :=
  match xs with
  | [] => Return s
  | x :: rest => let* s' := f s x in forEach f rest s'
  end.

(** ** String primitives *)

(** A string is the UTF-8 encoding of the JavaScript string. The source
    tests and splits at ASCII characters only, and UTF-8 keeps an ASCII
    byte apart from the bytes of every other character. *)

(** [s.split(sep)] for a one-character separator. *)
Fixpoint split (sep : ascii) (s : string) : list string :=
  match s with
  | EmptyString => [EmptyString]
  | String c rest =>
      if Ascii.eqb c sep then EmptyString :: split sep rest
      else match split sep rest with
           | [] => [String c EmptyString]
           | p :: ps => String c p :: ps
           end
  end.

(** [s.indexOf(c) >= 0]. *)
Fixpoint includes (c : ascii) (s : string) : bool :=
  match s with
  | EmptyString => false
  | String d rest => Ascii.eqb d c || includes c rest
  end.

(** [s.slice(0, n)]. *)
Definition slice0 (n : nat) (s : string) : string := substring 0 n s.

(** [parseInt(s)] without a radix: leading white space, an optional sign, an
    optional [0x] prefix, then the longest run of digits; [NaN] when there is
    no digit. The value is the exact integer of the digits, which is what
    [parseInt] returns for a numeral up to [2^53].

    White space is [StrWhiteSpaceChar]: tab, line feed, vertical tab, form
    feed, carriage return and space, and, as their UTF-8 bytes, the
    no-break space (C2 A0), the byte order mark (EF BB BF), the line and
    paragraph separators (E2 80 A8, E2 80 A9) and the other space
    separators: U+1680 (E1 9A 80), U+2000 to U+200A (E2 80 80 to 8A),
    U+202F (E2 80 AF), U+205F (E2 81 9F) and U+3000 (E3 80 80). *)
Definition isWhiteSpace (c : ascii) : bool :=
  let n := N_of_ascii c in
  ((9 <=? n) && (n <=? 13) || (n =? 32))%N.

(** The first byte of a white space character of more than one byte. *)
Definition leadsWhiteSpace (c : ascii) : bool :=
  let n := N_of_ascii c in
  ((n =? 194) || (n =? 225) || (n =? 226) || (n =? 227) || (n =? 239))%N.

Definition whiteSpace2 (c1 c2 : ascii) : bool :=
  ((N_of_ascii c1 =? 194) && (N_of_ascii c2 =? 160))%N.

Definition whiteSpace3 (c1 c2 c3 : ascii) : bool :=
  let n1 := N_of_ascii c1 in
  let n2 := N_of_ascii c2 in
  let n3 := N_of_ascii c3 in
  ((n1 =? 239) && (n2 =? 187) && (n3 =? 191)
   || (n1 =? 225) && (n2 =? 154) && (n3 =? 128)
   || (n1 =? 226) && (n2 =? 128)
      && ((128 <=? n3) && (n3 <=? 138) || (n3 =? 168) || (n3 =? 169) || (n3 =? 175))
   || (n1 =? 226) && (n2 =? 129) && (n3 =? 159)
   || (n1 =? 227) && (n2 =? 128) && (n3 =? 128))%N.

Fixpoint trimStart (s : string) : string :=
  match s with
  | String c rest =>
      if isWhiteSpace c then trimStart rest
      else if leadsWhiteSpace c then
        match rest with
        | String c2 rest2 =>
            if whiteSpace2 c c2 then trimStart rest2
            else match rest2 with
                 | String c3 rest3 =>
                     if whiteSpace3 c c2 c3 then trimStart rest3 else s
                 | EmptyString => s
                 end
        | EmptyString => s
        end
      else s
  | EmptyString => s
  end.

Definition digitValue (c : ascii) : option Z :=
  let n := Z.of_N (N_of_ascii c) in
  if (48 <=? n) && (n <=? 57) then Some (n - 48)
  else if (97 <=? n) && (n <=? 122) then Some (n - 87)
  else if (65 <=? n) && (n <=? 90) then Some (n - 55)
  else None.

Fixpoint parseDigits (radix : Z) (s : string) (acc : jsnum) : jsnum :=
  match s with
  | EmptyString => acc
  | String c rest =>
      match digitValue c with
      | Some d =>
          if d <? radix then
            parseDigits radix rest
              (Num (radix * (match acc with Num a => a | NaN => 0 end) + d))
          else acc
      | None => acc
      end
  end.

Definition parseInt (s : string) : jsnum :=
  let s1 := trimStart s in
  let '(sign, s2) :=
    match s1 with
    | String "-" r => (-1, r)
    | String "+" r => (1, r)
    | _ => (1, s1)
    end in
  let '(radix, s3) :=
    match s2 with
    | String "0" (String "x" r) => (16, r)
    | String "0" (String "X" r) => (16, r)
    | _ => (10, s2)
    end in
  (Num sign * parseDigits radix s3 NaN)%js.

(** ** The size estimator: [IO_TYPES] and [getByteCount] *)

Module IO_TYPES.
Definition inputs : list (string * Z) :=
  [ ("MULTISIG-P2SH", 49 * 4);
    ("MULTISIG-P2WSH", 6 + 41 * 4);
    ("MULTISIG-P2SH-P2WSH", 6 + 76 * 4);
    ("P2PKH", 147 * 4);
    ("P2WPKH", 108 + 41 * 4);
    ("P2SH-P2WPKH", 108 + 64 * 4) ].

Definition outputs : list (string * Z) :=
  [ ("P2SH", 32 * 4);
    ("P2SH-P2WPKH", 32 * 4);
    ("P2PKH", 34 * 4);
    ("P2WPKH", 31 * 4);
    ("P2WSH", 43 * 4) ].
End IO_TYPES.

(** [table[key]] as the operand of a product: a missing key reads
    [undefined], and [undefined * n] is [NaN]. *)
Fixpoint lookup_weight (table : list (string * Z)) (key : string) : jsnum :=
  match table with
  | [] => NaN
  | (k, w) :: rest => if String.eqb k key then Num w else lookup_weight rest key
  end.

(** [a[i]] as an arithmetic operand: out of range reads [undefined]. *)
Definition operand_at (a : list jsnum) (i : nat) : jsnum :=
  match nth_error a i with
  | Some v => v
  | None => NaN
  end.

Definition MAX_SAFE_INTEGER : Z := 2 ^ 53 - 1.

Definition Qlt_bool (x y : Q) : bool := negb (Qle_bool y x).

(** [n % 1 === 0]. *)
Definition isIntegral (n : Q) : bool :=
  (Qnum n mod Zpos (Qden n) =? 0).

(** The guard of [checkUInt53]:
    [n < 0 || n > Number.MAX_SAFE_INTEGER || n % 1 !== 0]. *)
Definition outOfRange (n : Q) : bool :=
  Qlt_bool n 0 || Qlt_bool (inject_Z MAX_SAFE_INTEGER) n || negb (isIntegral n).

Definition checkUInt53 (n : Q) : completion unit :=
  if outOfRange n then Throw (RangeError "value out of range") else Return tt.

Definition varIntLength (number : Q) : completion Z :=
  let* _ := checkUInt53 number in
  Return (if Qlt_bool number (inject_Z 253) then 1
          else if Qle_bool number (inject_Z 65535) then 3
          else if Qle_bool number (inject_Z 4294967295) then 5
          else 9).

(** A count that passed [checkUInt53] is an integer; this is its value. *)
Definition countValue (n : Q) : jsnum := Num (Qfloor n).

(** An object used as a map from script-type tag to count, as the list of
    its entries in the order of [Object.keys]. *)
Definition typeCounts := list (string * Q).

Record estimate : Type := mkEstimate {
  totalWeight : jsnum;
  hasWitness : bool;
  inputCount : Q;
  outputCount : Q
}.

Definition isMultisigKey (key : string) : bool :=
  String.eqb (slice0 8 key) "MULTISIG".

(** The body of [Object.keys(inputs).forEach]. *)
Definition inputStep (st : estimate) (entry : string * Q) : completion estimate :=
  let '(key, n) := entry in
  let* _ := checkUInt53 n in
  let* w :=
       (if isMultisigKey key then
          let keyParts := split ":" key in
          if negb (Nat.eqb (length keyParts) 2) then
            Throw (Error (String.append "invalid input: " key))
          else
            let newKey := nth 0 keyParts "" in
            let mAndN := map parseInt (split "-" (nth 1 keyParts "")) in
            let w1 :=
              (totalWeight st + lookup_weight IO_TYPES.inputs newKey * countValue n)%js in
            let multiplyer := if String.eqb newKey "MULTISIG-P2SH" then 4 else 1 in
            Return (w1 + (Num 73 * operand_at mAndN 0 + Num 34 * operand_at mAndN 1)
                           * Num multiplyer * countValue n)%js
        else
          Return (totalWeight st + lookup_weight IO_TYPES.inputs key * countValue n)%js) in
  Return {| totalWeight := w;
            hasWitness := if includes "W" key then true else hasWitness st;
            inputCount := inputCount st + n;
            outputCount := outputCount st |}.

(** The body of [Object.keys(outputs).forEach]. *)
Definition outputStep (st : estimate) (entry : string * Q) : completion estimate :=
  let '(key, n) := entry in
  let* _ := checkUInt53 n in
  Return {| totalWeight :=
              (totalWeight st + lookup_weight IO_TYPES.outputs key * countValue n)%js;
            hasWitness := hasWitness st;
            inputCount := inputCount st;
            outputCount := outputCount st + n |}.

Definition initialEstimate : estimate :=
  {| totalWeight := Num 0; hasWitness := false; inputCount := 0; outputCount := 0 |}.

(** The value of [totalWeight] when [getByteCount] reaches its [return],
    as an integer: the value the source has as long as the weight stays a
    safe integer, which the largest accepted counts exceed
    ([exactWeights]). *)
Definition getWeight (inputs outputs : typeCounts) : completion jsnum :=
  let* st1 := forEach inputStep inputs initialEstimate in
  let* st2 := forEach outputStep outputs st1 in
  let w0 := if hasWitness st2 then (totalWeight st2 + Num 2)%js else totalWeight st2 in
  let w1 := (w0 + Num (8 * 4))%js in
  let* li := varIntLength (inputCount st2) in
  let w2 := (w1 + Num (li * 4))%js in
  let* lo := varIntLength (outputCount st2) in
  let w3 := (w2 + Num (lo * 4))%js in
  Return w3.

Definition getByteCount (inputs outputs : typeCounts) : completion jsnum :=
  let* w := getWeight inputs outputs in
  Return (ceil_div4 w).

(** ** The [Coin] interface

    [coin.js] is imported by the source and is not part of it. The record
    and the operations below are what the selection code uses of it. *)

(** Modelled from the spec: [coin.js] is missing; a coin is a value object
    with a value (an integer of the smallest unit; a non-number stays
    representable, so that sums are total) and an address, and the change
    output is flagged. *)
Record Coin : Type := mkCoin {
  value : jsnum;
  address : string;
  change : bool
}.

(** What [transactionBytes], [Coin.inputBytes] and [Coin.outputBytes] are
    applied to: a coin, or the empty object literal [{}]. *)
Inductive txio : Type :=
| EmptyObject
| ACoin (c : Coin).

(** The parts of [coin.js] the source calls and whose bodies are unknown:
    the script type of a coin ([coin.type()]), the byte sizes and the two
    constants of [changeBytes]. *)
Class CoinModule : Type := {
  type : Coin -> string;
  inputBytes : txio -> Z;
  outputBytes : txio -> Z;
  TX_OUTPUT_BASE : Z;
  TX_OUTPUT_PUBKEYHASH : Z
}.

(** The libraries behind [sort] (ramda, over [Array.prototype.sort], whose
    order is implementation-defined for the boolean comparators of the
    source), [shuffle] (fisher-yates, given the generator it draws from) and
    [seedrandom] (the draws of the generator of a seed, in order). *)
Class Libraries : Type := {
  sort : (Coin -> Coin -> bool) -> list Coin -> list Coin;
  sort_permutation : forall cmp l, Permutation (sort cmp l) l;
  shuffle : list Coin -> (nat -> Q) -> list Coin;
  seedrandom : string -> nat -> Q
}.

Module CoinOps.
(** Modelled from the spec: [Coin.empty] of the missing [coin.js], the
    unit of the sum of values. *)
Definition empty : Coin := {| value := Num 0; address := ""; change := false |}.

(** Modelled from the spec: [overValue] of the missing [coin.js]. *)
Definition overValue (g : jsnum -> jsnum) (c : Coin) : Coin :=
  {| value := g (value c); address := address c; change := change c |}.

(** Modelled from the spec: [concat] of the missing [coin.js] adds the
    values. *)
Definition concat (a b : Coin) : Coin :=
  overValue (fun sum => (sum + value b)%js) a.

(** [List(xs).fold(Coin.empty)]. *)
Definition fold (xs : list Coin) : Coin := fold_left concat xs empty.

(** Modelled from the spec: [Coin.fromJS] of the missing [coin.js], for
    the two shapes the source builds. *)
Definition fromJS (v : jsnum) (addr : string) (chg : bool) : Coin :=
  {| value := v; address := addr; change := chg |}.

(** Modelled from the spec: [a.lte(b)] of the missing [coin.js] compares
    the values. *)
Definition lte (a b : Coin) : bool := jge (value b) (value a).
End CoinOps.

Record Selection : Type := mkSelection {
  fee : jsnum;
  inputs : list Coin;
  outputs : list Coin
}.

Definition isEmpty {A : Type} (l : list A) : bool :=
  match l with
  | [] => true
  | _ :: _ => false
  end.

Section CoinSelection.
Context `{CM : CoinModule} `{LB : Libraries}.

(** Modelled from the spec: [Coin.effectiveValue] of the missing
    [coin.js], [coin.value - inputBytes(coin) * feeRate]. The source
    compares it with 0 and adds it up for coins that passed that test, so
    whether [coin.js] clamps it at 0 makes no difference here
    ([clamp0_positive], [clamp0_of_positive]). *)
Definition effectiveValue (feePerByte : Z) (c : Coin) : jsnum :=
  (value c - Num (inputBytes (ACoin c) * feePerByte))%js.

Definition dustThreshold (feeRate : Z) : Z :=
  (inputBytes EmptyObject + outputBytes EmptyObject) * feeRate.

(** [coin.type ? coin.type() : 'P2PKH']. *)
Definition typeOf (coin : txio) : string :=
  match coin with
  | ACoin c => type c
  | EmptyObject => "P2PKH"
  end.

(** A count in the collection of the reducer: a number, or the string
    that [acc[type] += 1] makes of a property that is not a number. *)
Inductive tally : Type :=
| Counted (n : Z)
| NotANumber.

(** The reducer starts from the object literal [{}], and [acc[type]] reads
    the properties [{}] inherits from [Object.prototype] as well as its
    own: for these names it is a function, and truthy, before the reducer
    has set anything. *)
Definition inheritedMethod (ty : string) : bool :=
  existsb (String.eqb ty)
    ["constructor"; "hasOwnProperty"; "isPrototypeOf"; "propertyIsEnumerable";
     "toLocaleString"; "toString"; "valueOf";
     "__defineGetter__"; "__defineSetter__";
     "__lookupGetter__"; "__lookupSetter__"].

(** [acc[type] += 1] on an own entry: a number grows by one, a string has
    ["1"] appended and stays a string. *)
Definition increment (t : tally) : tally :=
  match t with
  | Counted n => Counted (n + 1)
  | NotANumber => NotANumber
  end.

(** [if (acc[type]) acc[type] += 1 else acc[type] = 1], on the entries of
    [acc] in insertion order. An own entry is truthy (a count from 1 on, or
    a non-empty string). Without an own entry [acc[type]] is [undefined]
    and the count is set to 1, unless the name is inherited: a function
    plus 1 is a string, stored as a new own entry. *)
Fixpoint bump (ty : string) (acc : list (string * tally)) : list (string * tally) :=
  match acc with
  | [] => [(ty, if inheritedMethod ty then NotANumber else Counted 1)]
  | (k, n) :: rest =>
      if String.eqb k ty then (k, increment n) :: rest else (k, n) :: bump ty rest
  end.

(** The reducer. For the type ["__proto__"], [acc[type]] is the prototype
    object, truthy, and assigning the string [acc[type] + 1] to
    [__proto__] changes nothing: the coin is not counted. *)
Definition coinTypeReducer (acc : list (string * tally)) (coin : txio)
  : list (string * tally) :=
  let ty := typeOf coin in
  if String.eqb ty "__proto__" then acc else bump ty acc.

(** A count as [getByteCount] receives it. Of a count that is not a
    number it only evaluates [checkUInt53], which raises on
    [n % 1 !== 0]; one half stands for such a count and raises on the
    same test. *)
Definition countOf (t : tally) : Q :=
  match t with
  | Counted n => inject_Z n
  | NotANumber => 1 # 2
  end.

(** [reduce(coinTypeReducer, {}, coins)], as its entries in the order of
    [Object.keys]: the order of insertion (names that are array indices
    come first there; they are no script type, and neither a weight nor
    what is raised depends on their place). *)
Definition typeCollection (coins : list txio) : typeCounts :=
  map (fun e => (fst e, countOf (snd e))) (fold_left coinTypeReducer coins []).

Definition transactionBytes (ins outs : list txio) : completion jsnum :=
  getByteCount (typeCollection ins) (typeCollection outs).

Definition changeBytes : Z := TX_OUTPUT_BASE + TX_OUTPUT_PUBKEYHASH.

Definition sumValues (xs : list Coin) : jsnum := value (CoinOps.fold xs).

Definition isEffective (feePerByte : Z) (c : Coin) : bool :=
  jgt (effectiveValue feePerByte c) (Num 0).

(** The [.value] of the coin [effectiveBalance] returns. *)
Definition effectiveBalance (feePerByte : Z) (ins : list Coin) (outs : list txio)
  : completion jsnum :=
  let* bytes := transactionBytes (map ACoin ins) outs in
  Return (value (CoinOps.overValue
                   (fun v => clamp0 (v - bytes * Num feePerByte)%js)
                   (CoinOps.fold ins))).

(** [unfold(_findTarget, [acc, fee, coins])]: the seed is
    [(acc, fee, coins)], a step emits [(nextAcc, partialFee, newCoin)]. *)
Fixpoint unfold_findTarget (target : jsnum) (feePerByte : Z)
    (acc fee0 : jsnum) (coins : list Coin) : list (jsnum * jsnum * Coin) :=
  match coins with
  | [] => []
  | newCoin :: restCoins =>
      if jgt acc (target + fee0)%js then []
      else
        let partialFee := (fee0 + Num (inputBytes (ACoin newCoin) * feePerByte))%js in
        let nextAcc := (acc + value newCoin)%js in
        if jgt acc (target + partialFee)%js then []
        else (nextAcc, partialFee, newCoin)
               :: unfold_findTarget target feePerByte nextAcc partialFee restCoins
  end.

Definition ft (targets : list Coin) (feePerByte : Z) (coins : list Coin)
    (changeAddress : string) : completion Selection :=
  let target := sumValues targets in
  let* bytes := transactionBytes [] (map ACoin targets) in
  let partialFee := (bytes * Num feePerByte)%js in
  let effectiveCoins := List.filter (isEffective feePerByte) coins in
  let selection :=
    unfold_findTarget target feePerByte (Num 0) partialFee effectiveCoins in
  match last selection with
  | None => Return {| fee := Num 0; inputs := []; outputs := [] |}
  | Some (maxBalance, fee1, _) =>
      let selectedCoins := map (fun e => snd e) selection in
      if jlt maxBalance (target + fee1)%js then
        Return {| fee := fee1; inputs := []; outputs := targets |}
      else
        let extra := (maxBalance - target - fee1)%js in
        let feeChange := Num (changeBytes * feePerByte) in
        let extraWithChangeFee := (extra - feeChange)%js in
        if jge extraWithChangeFee (Num (dustThreshold feePerByte)) then
          let chg := CoinOps.fromJS extraWithChangeFee changeAddress true in
          Return {| fee := (fee1 + feeChange)%js;
                    inputs := selectedCoins;
                    outputs := targets ++ [chg] |}
        else
          Return {| fee := (fee1 + extra)%js;
                    inputs := selectedCoins;
                    outputs := targets |}
  end.

(** [memoize(ft)]: a cache in front of a function of its arguments. *)
Definition findTarget := ft.

Definition selectAll (feePerByte : Z) (coins : list Coin) (outAddress : string)
  : completion Selection :=
  let effectiveCoins := List.filter (isEffective feePerByte) coins in
  let* effBalance := effectiveBalance feePerByte effectiveCoins [EmptyObject] in
  let Balance := sumValues effectiveCoins in
  let fee1 := (Balance - effBalance)%js in
  Return {| fee := fee1;
            inputs := effectiveCoins;
            outputs := [CoinOps.fromJS effBalance outAddress false] |}.

(** [seed] is [Some s] when a string was passed. [random] is the default
    source, [Math.random], as the sequence of its next draws; the library
    uses it when it is given no generator. *)
Definition singleRandomDraw (targets : list Coin) (feePerByte : Z)
    (coins : list Coin) (changeAddress : string) (seed : option string)
    (random : nat -> Q) : completion Selection :=
  let rng := option_map seedrandom seed in
  findTarget targets feePerByte
    (shuffle coins (match rng with Some g => g | None => random end))
    changeAddress.

Definition descentDraw (targets : list Coin) (feePerByte : Z)
    (coins : list Coin) (changeAddress : string) : completion Selection :=
  findTarget targets feePerByte
    (sort (fun a b => CoinOps.lte a b) coins) changeAddress.

Definition ascentDraw (targets : list Coin) (feePerByte : Z)
    (coins : list Coin) (changeAddress : string) : completion Selection :=
  findTarget targets feePerByte
    (sort (fun a b => CoinOps.lte b a) coins) changeAddress.

(** The mutable state of one [bnb] call: the try counter and how many
    draws were taken from the seeded generator and from [Math.random]. *)
Record bnbState : Type := mkBnbState {
  bnbTries : Z;
  seededDraws : nat;
  randomDraws : nat
}.

(** [(rng && rng()) || Math.random() > 0.5]: with a generator its draw is
    taken, and [Math.random] is consulted when that draw is falsy. *)
Definition exploreIncludeFirst (rng : option (nat -> Q)) (random : nat -> Q)
    (st : bnbState) : bool * bnbState :=
  match rng with
  | Some g =>
      let r := g (seededDraws st) in
      let st1 := {| bnbTries := bnbTries st;
                    seededDraws := S (seededDraws st);
                    randomDraws := randomDraws st |} in
      if negb (Qeq_bool r 0) then (true, st1)
      else (Qlt_bool (1 # 2) (random (randomDraws st1)),
            {| bnbTries := bnbTries st1;
               seededDraws := seededDraws st1;
               randomDraws := S (randomDraws st1) |})
  | None =>
      (Qlt_bool (1 # 2) (random (randomDraws st)),
       {| bnbTries := bnbTries st;
          seededDraws := seededDraws st;
          randomDraws := S (randomDraws st) |})
  end.

(** [_branchAndBound(depth, currentSelection, effValue)]. The argument
    [rest] is [sortedCoins] from index [depth] on: [depth >=
    length(sortedCoins)] is [rest = []] and [sortedCoins[depth]] its head. *)
Fixpoint _branchAndBound (targetForMatch matchRange : jsnum) (feePerByte : Z)
    (rng : option (nat -> Q)) (random : nat -> Q)
    (rest currentSelection : list Coin) (effValue : jsnum) (st0 : bnbState)
    {struct rest} : list Coin * bnbState :=
  let st := {| bnbTries := bnbTries st0 - 1;
               seededDraws := seededDraws st0;
               randomDraws := randomDraws st0 |} in
  if jgt effValue (targetForMatch + matchRange)%js then ([], st)
  else if jge effValue targetForMatch then (currentSelection, st)
  else if bnbTries st <? 1 then ([], st)
  else
    match rest with
    | [] => ([], st)
    | coin :: deeper =>
        let withCoin := currentSelection ++ [coin] in
        let withValue := (effValue + effectiveValue feePerByte coin)%js in
        let '(first, st1) := exploreIncludeFirst rng random st in
        if first then
          let '(include, st2) :=
            _branchAndBound targetForMatch matchRange feePerByte rng random
              deeper withCoin withValue st1 in
          if negb (isEmpty include) then (include, st2)
          else _branchAndBound targetForMatch matchRange feePerByte rng random
                 deeper currentSelection effValue st2
        else
          let '(exclude, st2) :=
            _branchAndBound targetForMatch matchRange feePerByte rng random
              deeper currentSelection effValue st1 in
          if negb (isEmpty exclude) then (exclude, st2)
          else _branchAndBound targetForMatch matchRange feePerByte rng random
                 deeper withCoin withValue st2
    end.

Definition sortedCoinsOf (feePerByte : Z) (coins : list Coin) : list Coin :=
  List.filter (isEffective feePerByte) (sort (fun a b => CoinOps.lte a b) coins).

Definition bnb (targets : list Coin) (feePerByte : Z) (coins : list Coin)
    (changeAddress : string) (seed : option string) (random : nat -> Q)
  : completion Selection :=
  let rng := option_map seedrandom seed in
  let sortedCoins := sortedCoinsOf feePerByte coins in
  let target := sumValues targets in
  let* bytes := transactionBytes [] (map ACoin targets) in
  let targetForMatch := (target + bytes * Num feePerByte)%js in
  let matchRange := Num (dustThreshold feePerByte) in
  let '(bnbSelection, st) :=
    _branchAndBound targetForMatch matchRange feePerByte rng random
      sortedCoins [] (Num 0)
      {| bnbTries := 1000000; seededDraws := 0; randomDraws := 0 |} in
  if isEmpty bnbSelection then
    singleRandomDraw targets feePerByte sortedCoins changeAddress seed
      (fun k => random (randomDraws st + k)%nat)
  else
    Return {| fee := (sumValues bnbSelection - target)%js;
              inputs := bnbSelection;
              outputs := targets |}.

(** [memoize(bnb)]. *)
Definition branchAndBound := bnb.

End CoinSelection.

(** * Vocabulary of the properties

    Definitions the statements below are written in. They restate, in the
    words of the specification, what the code above computes; the lemmas
    relate the two. *)

(** The sum of a list of numbers, [NaN] as soon as one summand is. *)
Definition jsum (xs : list jsnum) : jsnum := fold_right jadd (Num 0) xs.

(** The weight one input entry adds: the table weight of its kind, and for a
    multisig tag [m] signatures of 73 and [n] keys of 34 weight units, times
    4 for legacy P2SH multisig. *)
Definition inputWeight (entry : string * Q) : jsnum :=
  let '(key, n) := entry in
  if isMultisigKey key then
    let keyParts := split ":" key in
    let newKey := nth 0 keyParts "" in
    let mAndN := map parseInt (split "-" (nth 1 keyParts "")) in
    (lookup_weight IO_TYPES.inputs newKey * countValue n
     + (Num 73 * operand_at mAndN 0 + Num 34 * operand_at mAndN 1)
       * Num (if String.eqb newKey "MULTISIG-P2SH" then 4 else 1) * countValue n)%js
  else (lookup_weight IO_TYPES.inputs key * countValue n)%js.

Definition outputWeight (entry : string * Q) : jsnum :=
  (lookup_weight IO_TYPES.outputs (fst entry) * countValue (snd entry))%js.

(** A multisig-prefixed input key that does not split in two at [":"]. *)
Definition badMultisigKey (key : string) : bool :=
  isMultisigKey key && negb (Nat.eqb (length (split ":" key)) 2).

Definition inputEntryRaises (entry : string * Q) : bool :=
  outOfRange (snd entry) || badMultisigKey (fst entry).

Definition outputEntryRaises (entry : string * Q) : bool :=
  outOfRange (snd entry).

Definition totalCount (entries : typeCounts) (from : Q) : Q :=
  fold_left Qplus (map snd entries) from.

Definition hasMarker (entries : typeCounts) : bool :=
  existsb (fun e => includes "W" (fst e)) entries.

(** The size rule of [varIntLength], without its range check. *)
Definition varIntSize (number : Q) : Z :=
  if Qlt_bool number (inject_Z 253) then 1
  else if Qle_bool number (inject_Z 65535) then 3
  else if Qle_bool number (inject_Z 4294967295) then 5
  else 9.

(** The script-type-independent part of the weight: the entries, the
    version and lock time, and the two count prefixes. *)
Definition weightWithoutMarker (ins outs : typeCounts) : jsnum :=
  (jsum (map inputWeight ins) + jsum (map outputWeight outs)
   + Num (8 * 4)
   + Num (varIntSize (totalCount ins 0) * 4)
   + Num (varIntSize (totalCount outs 0) * 4))%js.

(** When [getByteCount] raises, decided on its arguments. *)
Definition raises (ins outs : typeCounts) : bool :=
  existsb inputEntryRaises ins
  || existsb outputEntryRaises outs
  || outOfRange (totalCount ins 0)
  || outOfRange (totalCount outs 0).

(** The range in which the integers of the model are the doubles of the
    source. Every term of the weight is a product of numbers that are not
    negative, so every product and every partial sum is an integer up to
    the total: when the total weight, marker included, is a safe integer,
    and so are the numerals of the multisig tags (for an entry counted 0
    times they are multiplied by 0), the source computes the same numbers,
    in whatever order it adds them. *)
Definition safeNumerals (key : string) : bool :=
  if isMultisigKey key then
    forallb (fun v => match v with
                      | Num z => z <=? MAX_SAFE_INTEGER
                      | NaN => true
                      end)
            (map parseInt (split "-" (nth 1 (split ":" key) "")))
  else true.

Definition exactWeights (ins outs : typeCounts) : Prop :=
  Forall (fun e => safeNumerals (fst e) = true) ins
  /\ match weightWithoutMarker ins outs with
     | Num w => w + 2 <= MAX_SAFE_INTEGER
     | NaN => True
     end.

(** A count the estimator refuses, in the words of the specification:
    negative, above the largest safe integer, or fractional. *)
Definition invalidCount (n : Q) : Prop :=
  (n < 0)%Q \/ (inject_Z MAX_SAFE_INTEGER < n)%Q \/ ~ (exists z, n == inject_Z z)%Q.

(** The tag shape of the specification, ["<KIND>:<m>-<n>"] with decimal
    [m] and [n]. *)
Definition isDigit (c : ascii) : bool :=
  let n := N_of_ascii c in ((48 <=? n) && (n <=? 57))%N.

Fixpoint allDigits (s : string) : bool :=
  match s with
  | EmptyString => true
  | String c rest => isDigit c && allDigits rest
  end.

Definition isDecimal (s : string) : bool :=
  match s with
  | EmptyString => false
  | _ => allDigits s
  end.

Definition multisigTagShape (key : string) : bool :=
  match split ":" key with
  | [_; mn] =>
      match split "-" mn with
      | [m; n] => isDecimal m && isDecimal n
      | _ => false
      end
  | _ => false
  end.

(** A key [getByteCount] has no weight for: an input key outside the input
    table that is not multisig-prefixed, an output key outside the output
    table. *)
Definition unrecognisedInput (key : string) : Prop :=
  isMultisigKey key = false /\ lookup_weight IO_TYPES.inputs key = NaN.

Definition unrecognisedOutput (key : string) : Prop :=
  lookup_weight IO_TYPES.outputs key = NaN.

(** The overhead rule as the specification words it: the marker of any
    input or output key adds 2 to the weight, once. *)
Definition markerRuleOverInputsAndOutputs (ins outs : typeCounts) : Prop :=
  forall w, getWeight ins outs = Return w ->
    (hasMarker ins || hasMarker outs = true ->
       w = (weightWithoutMarker ins outs + Num 2)%js)
    /\ (hasMarker ins || hasMarker outs = false ->
       w = weightWithoutMarker ins outs).

Section Vocabulary.
Context `{CM : CoinModule}.

(** The input fees of the coins drawn: the part of the accumulated fee
    that is added to the fee of the bare transaction. *)
Definition inputFees (feePerByte : Z) (cs : list Coin) : Z :=
  fold_right (fun c a => inputBytes (ACoin c) * feePerByte + a) 0 cs.

(** The four results of [ft], on the coins it drew. *)
Inductive ftResult (targets : list Coin) (feePerByte : Z)
    (changeAddress : string) (bytes : jsnum) (drawn : list Coin)
  : Selection -> Prop :=
| ft_no_coins :
    drawn = [] ->
    ftResult targets feePerByte changeAddress bytes drawn
      {| fee := Num 0; inputs := []; outputs := [] |}
| ft_insufficient :
    drawn <> [] ->
    let fee1 := (bytes * Num feePerByte + Num (inputFees feePerByte drawn))%js in
    jlt (sumValues drawn) (sumValues targets + fee1)%js = true ->
    ftResult targets feePerByte changeAddress bytes drawn
      {| fee := fee1; inputs := []; outputs := targets |}
| ft_change :
    drawn <> [] ->
    let fee1 := (bytes * Num feePerByte + Num (inputFees feePerByte drawn))%js in
    let extra := (sumValues drawn - sumValues targets - fee1)%js in
    let feeChange := Num (changeBytes * feePerByte) in
    jlt (sumValues drawn) (sumValues targets + fee1)%js = false ->
    jge (extra - feeChange)%js (Num (dustThreshold feePerByte)) = true ->
    ftResult targets feePerByte changeAddress bytes drawn
      {| fee := (fee1 + feeChange)%js;
         inputs := drawn;
         outputs := targets ++ [{| value := (extra - feeChange)%js;
                                   address := changeAddress;
                                   change := true |}] |}
| ft_burn :
    drawn <> [] ->
    let fee1 := (bytes * Num feePerByte + Num (inputFees feePerByte drawn))%js in
    let extra := (sumValues drawn - sumValues targets - fee1)%js in
    let feeChange := Num (changeBytes * feePerByte) in
    jlt (sumValues drawn) (sumValues targets + fee1)%js = false ->
    jge (extra - feeChange)%js (Num (dustThreshold feePerByte)) = false ->
    ftResult targets feePerByte changeAddress bytes drawn
      {| fee := (fee1 + extra)%js; inputs := drawn; outputs := targets |}.

(** The inputs pay for the outputs and the fee, in integers. *)
Definition balanced (s : Selection) : Prop :=
  exists i o z,
    sumValues (inputs s) = Num i /\ sumValues (outputs s) = Num o
    /\ fee s = Num z /\ i = o + z.

End Vocabulary.

(** ** A concrete interface, for examples

    Legacy (P2PKH) coins: 148 bytes per input, 34 per output, a change
    output of 9 + 25 bytes. The comparator-driven insertion sort stands for
    an engine's [Array.prototype.sort], the rotation by the first draw for
    the shuffle, and the generator of a seed draws from its length. *)
Module Reference.

Definition coinModule : CoinModule :=
  {| type := fun _ => "P2PKH";
     inputBytes := fun _ => 148;
     outputBytes := fun _ => 34;
     TX_OUTPUT_BASE := 9;
     TX_OUTPUT_PUBKEYHASH := 25 |}.

(** The same sizes, for coins that all have one given script type. *)
Definition typed (ty : string) : CoinModule :=
  {| type := fun _ => ty;
     inputBytes := fun _ => 148;
     outputBytes := fun _ => 34;
     TX_OUTPUT_BASE := 9;
     TX_OUTPUT_PUBKEYHASH := 25 |}.

Fixpoint insert (cmp : Coin -> Coin -> bool) (x : Coin) (l : list Coin)
  : list Coin :=
  match l with
  | [] => [x]
  | y :: rest => if cmp x y then y :: insert cmp x rest else x :: l
  end.

Definition insertionSort (cmp : Coin -> Coin -> bool) (l : list Coin)
  : list Coin :=
  fold_right (insert cmp) [] l.

Definition rotate (l : list Coin) (draws : nat -> Q) : list Coin :=
  let n := Z.to_nat (Qfloor (draws 0%nat * inject_Z (Z.of_nat (length l)))) in
  skipn n l ++ firstn n l.

Definition generator (seed : string) (k : nat) : Q :=
  Qmake (1 + Z.of_nat ((String.length seed + k) mod 7)) 8.

Definition libraries : Libraries.
Proof.
  refine {| sort := insertionSort; shuffle := rotate; seedrandom := generator |}.
  intros cmp l. induction l as [|x l IH]; simpl; [constructor|].
  transitivity (x :: insertionSort cmp l); [|constructor; exact IH].
  generalize (insertionSort cmp l). clear. intros l.
  induction l as [|y l IH]; simpl; [reflexivity|].
  destruct (cmp x y); [|reflexivity].
  transitivity (y :: x :: l); [constructor; exact IH|constructor].
Defined.

Definition coin (v : Z) (addr : string) : Coin :=
  {| value := Num v; address := addr; change := false |}.

Definition spend : Selection :=
  {| fee := Num 226;
     inputs := [coin 5000 "a"];
     outputs := [coin 1000 "dest";
                 {| value := Num 3774; address := "chg"; change := true |}] |}.

Definition short : Selection :=
  {| fee := Num 192; inputs := []; outputs := [coin 1000 "dest"] |}.

(** The same libraries with a generator that only draws 0. *)
Definition zeroDrawLibraries : Libraries :=
  {| sort := @sort libraries;
     sort_permutation := @sort_permutation libraries;
     shuffle := @shuffle libraries;
     seedrandom := fun _ _ => 0%Q |}.

End Reference.

(** * The rest of the module

    What the properties of the module, beyond the claims, are stated with. *)

(** The parts of [coin.js] behind [isFromAccount], [isFromLegacy] and
    [DEPRECATED_transactionBytes]: the two origin tests of a coin and the
    size of an empty transaction. *)
Class CoinOrigin : Type := {
  Coin_isFromAccount : Coin -> bool;
  Coin_isFromLegacy : Coin -> bool;
  TX_EMPTY_SIZE : Z
}.

Section Accessors.
Context `{CM : CoinModule} `{CO : CoinOrigin}.

(** [selection.inputs[0] ? selection.inputs[0].isFromAccount() : false]. *)
Definition isFromAccount (selection : Selection) : bool :=
  match inputs selection with
  | first :: _ => Coin_isFromAccount first
  | [] => false
  end.

(** [selection.inputs[0] ? selection.inputs[0].isFromLegacy() : false]. *)
Definition isFromLegacy (selection : Selection) : bool :=
  match inputs selection with
  | first :: _ => Coin_isFromLegacy first
  | [] => false
  end.

Definition DEPRECATED_transactionBytes (ins outs : list txio) : Z :=
  TX_EMPTY_SIZE
  + fold_left (fun a c => a + inputBytes c) ins 0
  + fold_left (fun a c => a + outputBytes c) outs 0.

End Accessors.

Section SizeOfCoins.
Context `{CM : CoinModule}.

(** The coins the reducer counts: all but those of type ["__proto__"]. *)
Definition counted (coins : list txio) : list txio :=
  List.filter (fun c => negb (String.eqb (typeOf c) "__proto__")) coins.

(** A coin whose type names a method every object inherits. *)
Definition inheritedType (c : txio) : bool := inheritedMethod (typeOf c).

(** The weight [transactionBytes] gives a transaction, coin by coin: every
    input and output counted weighs what a single entry of its script type
    weighs, the marker is owed to the script types of the inputs, and the
    two count prefixes are those of the numbers of coins counted. *)
Definition transactionWeight (ins outs : list txio) : jsnum :=
  let perCoin :=
    (jsum (map (fun c => inputWeight (typeOf c, 1%Q)) (counted ins))
     + jsum (map (fun c => outputWeight (typeOf c, 1%Q)) (counted outs))
     + Num (8 * 4)
     + Num (varIntSize (inject_Z (Z.of_nat (length (counted ins)))) * 4)
     + Num (varIntSize (inject_Z (Z.of_nat (length (counted outs)))) * 4))%js in
  if existsb (fun c => includes "W" (typeOf c)) ins
  then (perCoin + Num 2)%js
  else perCoin.

(** When [transactionBytes] raises: the type of a coin names an inherited
    method, so that its count is not a number; an input coin has a
    multisig-prefixed script type that does not split in two at [":"]; or
    there are more coins than the largest safe integer. *)
Definition transactionRaises (ins outs : list txio) : bool :=
  existsb inheritedType ins
  || existsb inheritedType outs
  || existsb (fun c => badMultisigKey (typeOf c)) ins
  || (MAX_SAFE_INTEGER <? Z.of_nat (length (counted ins)))
  || (MAX_SAFE_INTEGER <? Z.of_nat (length (counted outs))).

(** The reducer on coins of types that are not inherited names, where
    every count is a number. *)
Fixpoint bumpCount (ty : string) (acc : list (string * Z)) : list (string * Z) :=
  match acc with
  | [] => [(ty, 1)]
  | (k, n) :: rest =>
      if String.eqb k ty then (k, n + 1) :: rest else (k, n) :: bumpCount ty rest
  end.

Definition countReducer (acc : list (string * Z)) (coin : txio)
  : list (string * Z) :=
  bumpCount (typeOf coin) acc.

Definition asTallies (acc : list (string * Z)) : list (string * tally) :=
  map (fun e => (fst e, Counted (snd e))) acc.

(** A collection that holds a count that is not a number. *)
Definition notCounted (acc : list (string * tally)) : bool :=
  existsb (fun e => match snd e with NotANumber => true | Counted _ => false end) acc.

(** An entry under an inherited name never holds a number. *)
Definition inheritedNotCounted (acc : list (string * tally)) : Prop :=
  Forall (fun e => inheritedMethod (fst e) = true -> snd e = NotANumber) acc.

(** The collection of the reducer as numbers: its total, and the object
    [getByteCount] receives. *)
Definition sumCounts (acc : list (string * Z)) : Z :=
  fold_right (fun e a => snd e + a) 0 acc.

Definition toCounts (acc : list (string * Z)) : typeCounts :=
  map (fun e => (fst e, inject_Z (snd e))) acc.

(** What the reducer has collected after a list of coins. *)
Record collected (weight : string * Q -> jsnum) (p : string -> bool)
    (coins : list txio) (acc : list (string * Z)) : Prop := {
  collected_count : sumCounts acc = Z.of_nat (length coins);
  collected_positive : Forall (fun e => 1 <= snd e) acc;
  collected_weight :
    jsum (map weight (toCounts acc))
    = jsum (map (fun c => weight (typeOf c, 1%Q)) coins);
  collected_keys :
    existsb (fun e => p (fst e)) acc = existsb (fun c => p (typeOf c)) coins
}.

End SizeOfCoins.

(** The reference interface, continued: coins of an account are those at
    an address that starts with ["a"], legacy coins the others, and the
    empty transaction has 10 bytes. *)
Definition referenceOrigin : CoinOrigin :=
  {| Coin_isFromAccount := fun c => String.prefix "a" (address c);
     Coin_isFromLegacy := fun c => negb (String.prefix "a" (address c));
     TX_EMPTY_SIZE := 10 |}.

(** Selections of the reference interface the examples use. *)
Module Sample.

Definition dest : Coin := Reference.coin 1000 "dest".

Definition changeOf (v : Z) : Coin :=
  {| value := Num v; address := "chg"; change := true |}.

Definition smallFirst : Selection :=
  {| fee := Num 374;
     inputs := [Reference.coin 700 "a"; Reference.coin 900 "b"];
     outputs := [dest; changeOf 226] |}.

Definition largeFirst : Selection :=
  {| fee := Num 374;
     inputs := [Reference.coin 900 "b"; Reference.coin 700 "a"];
     outputs := [dest; changeOf 226] |}.

Definition burnt : Selection :=
  {| fee := Num 300; inputs := [Reference.coin 1300 "a"]; outputs := [dest] |}.

Definition matched : Selection :=
  {| fee := Num 200; inputs := [Reference.coin 1200 "b"]; outputs := [dest] |}.

End Sample.

(** The decimal numeral of a natural number, and the multisig tag
    ["<KIND>:<m>-<n>"] of the usage notes of [getByteCount]. *)
Definition decimal (n : nat) : string :=
  NilZero.string_of_uint (Nat.to_uint n).

Definition multisigTag (kind : string) (m n : nat) : string :=
  String.append kind
    (String ":" (String.append (decimal m) (String "-" (decimal n)))).

Definition multisigKinds : list string :=
  ["MULTISIG-P2SH"; "MULTISIG-P2WSH"; "MULTISIG-P2SH-P2WSH"].

(** What the table holds for a key, 0 for a key it does not hold. *)
Definition tableWeight (table : list (string * Z)) (key : string) : Z :=
  match lookup_weight table key with
  | Num w => w
  | NaN => 0
  end.

(** * Properties *)

(** ** Arithmetic of [jsnum] *)

Lemma jadd_comm (a b : jsnum) : (a + b)%js = (b + a)%js.
Proof. destruct a, b; simpl; try reflexivity. f_equal. lia. Qed.

Lemma jadd_assoc (a b c : jsnum) : (a + (b + c))%js = (a + b + c)%js.
Proof. destruct a, b, c; simpl; try reflexivity. f_equal. lia. Qed.

Lemma jadd_0_l (a : jsnum) : (Num 0 + a)%js = a.
Proof. destruct a; reflexivity. Qed.

Lemma jadd_0_r (a : jsnum) : (a + Num 0)%js = a.
Proof. destruct a; simpl; try reflexivity. f_equal. lia. Qed.

Lemma jadd_NaN_r (a : jsnum) : (a + NaN)%js = NaN.
Proof. destruct a; reflexivity. Qed.

Lemma jadd_Num_inv (a b : jsnum) (z : Z) :
  (a + b)%js = Num z -> exists x y, a = Num x /\ b = Num y /\ z = x + y.
Proof.
  destruct a as [x|], b as [y|]; simpl; intros E; try discriminate.
  injection E as <-. eauto.
Qed.

Lemma fold_left_jadd (xs : list jsnum) (a : jsnum) :
  fold_left jadd xs a = (a + jsum xs)%js.
Proof.
  revert a. induction xs as [|x xs IH]; intros a; simpl.
  - symmetry. apply jadd_0_r.
  - rewrite IH. symmetry. apply jadd_assoc.
Qed.

Lemma jsum_app (xs ys : list jsnum) :
  jsum (xs ++ ys) = (jsum xs + jsum ys)%js.
Proof.
  induction xs as [|x xs IH]; simpl.
  - symmetry. apply jadd_0_l.
  - rewrite IH. apply jadd_assoc.
Qed.

Lemma jsum_NaN (xs : list jsnum) : In NaN xs -> jsum xs = NaN.
Proof.
  induction xs as [|x xs IH]; simpl; [tauto|].
  intros [->|H]; [reflexivity|]. rewrite (IH H). apply jadd_NaN_r.
Qed.

Lemma jsum_Num_inv (xs : list jsnum) (z : Z) :
  jsum xs = Num z -> forall x, In x xs -> exists v, x = Num v.
Proof.
  intros E x Hx. destruct x as [v|]; [eauto|].
  rewrite (jsum_NaN xs Hx) in E. discriminate.
Qed.

Lemma clamp0_positive (v : jsnum) : jgt (clamp0 v) (Num 0) = jgt v (Num 0).
Proof.
  unfold clamp0, jgt. destruct v as [z|]; simpl; [|reflexivity].
  destruct (z <? 0) eqn:E; simpl; [|reflexivity].
  apply Z.ltb_lt in E. symmetry. apply Z.ltb_ge. lia.
Qed.

Lemma clamp0_of_positive (v : jsnum) : jgt v (Num 0) = true -> clamp0 v = v.
Proof.
  unfold clamp0, jgt. destruct v as [z|]; simpl; [|reflexivity].
  intros H. apply Z.ltb_lt in H. destruct (z <? 0) eqn:E; [|reflexivity].
  apply Z.ltb_lt in E. lia.
Qed.

(** ** The size estimator *)

Lemma inputStep_ok (st : estimate) (entry : string * Q) :
  inputEntryRaises entry = false ->
  inputStep st entry =
    Return {| totalWeight := (totalWeight st + inputWeight entry)%js;
              hasWitness := hasWitness st || includes "W" (fst entry);
              inputCount := inputCount st + snd entry;
              outputCount := outputCount st |}.
Proof.
  destruct entry as [key n]. unfold inputEntryRaises, badMultisigKey. simpl fst; simpl snd.
  intros H. apply orb_false_elim in H as [Hn Hk].
  unfold inputStep, inputWeight, checkUInt53. rewrite Hn. cbn [bind].
  destruct (isMultisigKey key) eqn:Hm.
  - simpl in Hk. rewrite Hk. cbn [bind]. rewrite jadd_assoc.
    destruct (includes "W" key), (hasWitness st); reflexivity.
  - cbn [bind]. destruct (includes "W" key), (hasWitness st); reflexivity.
Qed.

Lemma inputStep_raises (st : estimate) (entry : string * Q) :
  inputEntryRaises entry = true ->
  inputStep st entry = Throw (RangeError "value out of range")
  \/ (badMultisigKey (fst entry) = true
      /\ inputStep st entry = Throw (Error (String.append "invalid input: " (fst entry)))).
Proof.
  destruct entry as [key n]. unfold inputEntryRaises, badMultisigKey. simpl fst; simpl snd.
  intros H. unfold inputStep, checkUInt53.
  destruct (outOfRange n); [left; reflexivity|]. simpl in H. right.
  split; [exact H|]. cbn [bind].
  apply andb_prop in H as [-> ->]. reflexivity.
Qed.

Lemma outputStep_ok (st : estimate) (entry : string * Q) :
  outputEntryRaises entry = false ->
  outputStep st entry =
    Return {| totalWeight := (totalWeight st + outputWeight entry)%js;
              hasWitness := hasWitness st;
              inputCount := inputCount st;
              outputCount := outputCount st + snd entry |}.
Proof.
  destruct entry as [key n]. unfold outputEntryRaises. simpl. intros H.
  unfold outputStep, checkUInt53. rewrite H. reflexivity.
Qed.

Lemma outputStep_raises (st : estimate) (entry : string * Q) :
  outputEntryRaises entry = true ->
  outputStep st entry = Throw (RangeError "value out of range").
Proof.
  destruct entry as [key n]. unfold outputEntryRaises. simpl. intros H.
  unfold outputStep, checkUInt53. rewrite H. reflexivity.
Qed.

Lemma forEach_inputStep_ok (ins : typeCounts) (st : estimate) :
  existsb inputEntryRaises ins = false ->
  forEach inputStep ins st =
    Return {| totalWeight := (totalWeight st + jsum (map inputWeight ins))%js;
              hasWitness := hasWitness st || hasMarker ins;
              inputCount := totalCount ins (inputCount st);
              outputCount := outputCount st |}.
Proof.
  revert st. induction ins as [|e ins IH]; intros st H.
  - simpl. rewrite jadd_0_r, orb_false_r. destruct st; reflexivity.
  - simpl in H. apply orb_false_elim in H as [He Hins].
    cbn [forEach]. rewrite (inputStep_ok st e He). cbn [bind].
    rewrite (IH _ Hins). cbn [totalWeight hasWitness inputCount outputCount].
    unfold hasMarker, totalCount. cbn [existsb map fold_left jsum fold_right].
    rewrite orb_assoc, jadd_assoc. reflexivity.
Qed.

Lemma forEach_inputStep_raises (ins : typeCounts) (st : estimate) :
  existsb inputEntryRaises ins = true ->
  forEach inputStep ins st = Throw (RangeError "value out of range")
  \/ exists key, In key (map fst ins) /\ badMultisigKey key = true
       /\ forEach inputStep ins st = Throw (Error (String.append "invalid input: " key)).
Proof.
  revert st. induction ins as [|e ins IH]; intros st H; [discriminate|].
  cbn [forEach]. destruct (inputEntryRaises e) eqn:He.
  - destruct (inputStep_raises st e He) as [E|[Hk E]]; rewrite E; cbn [bind].
    + left; reflexivity.
    + right. exists (fst e). split; [left; reflexivity|]. split; [exact Hk|reflexivity].
  - simpl in H. rewrite He in H. simpl in H.
    rewrite (inputStep_ok st e He). cbn [bind].
    match goal with
    | |- context [forEach inputStep ins ?s] =>
        destruct (IH s H) as [E|(key & Hin & Hk & E)]
    end; [left; exact E|].
    right. exists key. split; [right; exact Hin|]. split; assumption.
Qed.

Lemma forEach_outputStep_ok (outs : typeCounts) (st : estimate) :
  existsb outputEntryRaises outs = false ->
  forEach outputStep outs st =
    Return {| totalWeight := (totalWeight st + jsum (map outputWeight outs))%js;
              hasWitness := hasWitness st;
              inputCount := inputCount st;
              outputCount := totalCount outs (outputCount st) |}.
Proof.
  revert st. induction outs as [|e outs IH]; intros st H.
  - simpl. rewrite jadd_0_r. destruct st; reflexivity.
  - simpl in H. apply orb_false_elim in H as [He Houts].
    cbn [forEach]. rewrite (outputStep_ok st e He). cbn [bind].
    rewrite (IH _ Houts). cbn [totalWeight hasWitness inputCount outputCount].
    unfold totalCount. cbn [map fold_left jsum fold_right].
    rewrite jadd_assoc. reflexivity.
Qed.

Lemma forEach_outputStep_raises (outs : typeCounts) (st : estimate) :
  existsb outputEntryRaises outs = true ->
  forEach outputStep outs st = Throw (RangeError "value out of range").
Proof.
  revert st. induction outs as [|e outs IH]; intros st H; [discriminate|].
  cbn [forEach]. destruct (outputEntryRaises e) eqn:He.
  - rewrite (outputStep_raises st e He). reflexivity.
  - simpl in H. rewrite He in H. simpl in H.
    rewrite (outputStep_ok st e He). cbn [bind]. apply IH, H.
Qed.

Lemma jadd_shuffle_marker (a b c d : jsnum) (m : Z) :
  (a + Num m + b + c + d)%js = (a + b + c + d + Num m)%js.
Proof. destruct a, b, c, d; simpl; try reflexivity. f_equal. lia. Qed.

Lemma getWeight_ok (ins outs : typeCounts) :
  raises ins outs = false ->
  getWeight ins outs =
    Return (if hasMarker ins
            then (weightWithoutMarker ins outs + Num 2)%js
            else weightWithoutMarker ins outs).
Proof.
  unfold raises. intros H.
  apply orb_false_elim in H as [H Ho]. apply orb_false_elim in H as [H Hi].
  apply orb_false_elim in H as [Hins Houts].
  unfold getWeight. rewrite (forEach_inputStep_ok _ _ Hins). cbn [bind].
  rewrite (forEach_outputStep_ok _ _ Houts). cbn [bind].
  cbn [totalWeight hasWitness inputCount outputCount initialEstimate].
  unfold varIntLength, checkUInt53. rewrite Hi, Ho. cbn [bind orb].
  fold (varIntSize (totalCount ins 0)). fold (varIntSize (totalCount outs 0)).
  unfold weightWithoutMarker. rewrite jadd_0_l.
  destruct (hasMarker ins); [|reflexivity].
  rewrite jadd_shuffle_marker. reflexivity.
Qed.

Lemma getWeight_raises (ins outs : typeCounts) :
  raises ins outs = true ->
  getWeight ins outs = Throw (RangeError "value out of range")
  \/ exists key, In key (map fst ins) /\ badMultisigKey key = true
       /\ getWeight ins outs = Throw (Error (String.append "invalid input: " key)).
Proof.
  unfold raises, getWeight. intros H.
  destruct (existsb inputEntryRaises ins) eqn:Hins.
  { destruct (forEach_inputStep_raises ins initialEstimate Hins)
      as [E|(key & Hin & Hk & E)]; rewrite E; cbn [bind]; [left; reflexivity|].
    right. exists key. auto. }
  rewrite (forEach_inputStep_ok _ _ Hins). cbn [bind].
  destruct (existsb outputEntryRaises outs) eqn:Houts.
  { rewrite (forEach_outputStep_raises _ _ Houts). left; reflexivity. }
  rewrite (forEach_outputStep_ok _ _ Houts). cbn [bind].
  cbn [totalWeight hasWitness inputCount outputCount initialEstimate].
  unfold varIntLength, checkUInt53. left.
  destruct (outOfRange (totalCount ins 0)); [reflexivity|]. cbn [bind].
  simpl in H. rewrite H. reflexivity.
Qed.

Lemma getByteCount_throws_iff (ins outs : typeCounts) :
  throws (getByteCount ins outs) <-> raises ins outs = true.
Proof.
  unfold throws, getByteCount. split.
  - intros [e He]. destruct (raises ins outs) eqn:R; [reflexivity|].
    rewrite (getWeight_ok _ _ R) in He. discriminate.
  - intros R. destruct (getWeight_raises _ _ R) as [E|(key & _ & _ & E)];
      rewrite E; cbn [bind]; eauto.
Qed.

Lemma Qlt_bool_iff (x y : Q) : Qlt_bool x y = true <-> (x < y)%Q.
Proof.
  unfold Qlt_bool. rewrite negb_true_iff. split.
  - intros H. apply Qnot_le_lt. intros Hle.
    apply Qle_bool_iff in Hle. congruence.
  - intros H. destruct (Qle_bool y x) eqn:E; [|reflexivity].
    apply Qle_bool_iff in E. exfalso. exact (Qlt_not_le _ _ H E).
Qed.

Lemma isIntegral_iff (n : Q) :
  isIntegral n = true <-> (exists z, n == inject_Z z)%Q.
Proof.
  unfold isIntegral, Qeq, inject_Z. destruct n as [a b]. simpl.
  rewrite Z.eqb_eq, Z.mod_divide by discriminate. unfold Z.divide.
  split; intros [z Hz]; exists z; lia.
Qed.

Lemma outOfRange_iff (n : Q) : outOfRange n = true <-> invalidCount n.
Proof.
  unfold outOfRange, invalidCount.
  rewrite !orb_true_iff, negb_true_iff, !Qlt_bool_iff.
  rewrite <- isIntegral_iff. destruct (isIntegral n); intuition congruence.
Qed.

Lemma existsb_inputEntryRaises (ins : typeCounts) :
  existsb inputEntryRaises ins = true <->
  (exists key n, In (key, n) ins /\ invalidCount n)
  \/ (exists key n, In (key, n) ins /\ badMultisigKey key = true).
Proof.
  rewrite existsb_exists. unfold inputEntryRaises. split.
  - intros ([key n] & Hin & H). simpl in H. apply orb_true_iff in H as [H|H].
    + left. exists key, n. rewrite <- outOfRange_iff. auto.
    + right. exists key, n. auto.
  - intros [(key & n & Hin & H)|(key & n & Hin & H)]; exists (key, n);
      (split; [exact Hin|]); simpl; apply orb_true_iff.
    + left. apply outOfRange_iff, H.
    + right. exact H.
Qed.

Lemma existsb_outputEntryRaises (outs : typeCounts) :
  existsb outputEntryRaises outs = true <->
  exists key n, In (key, n) outs /\ invalidCount n.
Proof.
  rewrite existsb_exists. unfold outputEntryRaises. split.
  - intros ([key n] & Hin & H). exists key, n. rewrite <- outOfRange_iff. auto.
  - intros (key & n & Hin & H). exists (key, n). split; [exact Hin|].
    apply outOfRange_iff, H.
Qed.

Lemma jmul_NaN_l (a : jsnum) : (NaN * a)%js = NaN.
Proof. reflexivity. Qed.

Lemma inputWeight_unrecognised (key : string) (n : Q) :
  unrecognisedInput key -> inputWeight (key, n) = NaN.
Proof. intros [Hm Hl]. unfold inputWeight. rewrite Hm, Hl. reflexivity. Qed.

Lemma outputWeight_unrecognised (key : string) (n : Q) :
  unrecognisedOutput key -> outputWeight (key, n) = NaN.
Proof. intros Hl. unfold outputWeight. cbn [fst snd]. rewrite Hl. reflexivity. Qed.

Lemma weightWithoutMarker_NaN (ins outs : typeCounts) :
  jsum (map inputWeight ins) = NaN \/ jsum (map outputWeight outs) = NaN ->
  weightWithoutMarker ins outs = NaN.
Proof.
  unfold weightWithoutMarker. intros [-> | ->]; [reflexivity|].
  rewrite jadd_NaN_r. reflexivity.
Qed.

(** C6 (amended). [getByteCount] raises exactly in these cases: a count of
    an input or output entry is negative, above the largest safe integer or
    fractional; an input key that starts with MULTISIG does not split in
    two parts at its colons; the sum of the input counts, or of the output
    counts, is above the largest safe integer. In every other case it
    returns (a size, or NaN). What it raises is the range error, or the
    invalid-input error naming such an input key. *)
Theorem getByteCount_raises_exactly (ins outs : typeCounts) :
  (throws (getByteCount ins outs) <->
     (exists key n, In (key, n) (ins ++ outs) /\ invalidCount n)
     \/ (exists key n, In (key, n) ins /\ isMultisigKey key = true
                       /\ length (split ":" key) <> 2%nat)
     \/ invalidCount (totalCount ins 0)
     \/ invalidCount (totalCount outs 0))
  /\ (forall e, getByteCount ins outs = Throw e ->
        e = RangeError "value out of range"
        \/ exists key, In key (map fst ins) /\ isMultisigKey key = true
             /\ e = Error (String.append "invalid input: " key)).
Proof.
  split.
  - rewrite getByteCount_throws_iff. unfold raises.
    rewrite !orb_true_iff, existsb_inputEntryRaises, existsb_outputEntryRaises,
      !outOfRange_iff.
    split.
    + intros [[[[H|H]|H]|H]|H].
      * left. destruct H as (key & n & Hin & H). exists key, n.
        split; [apply in_or_app; left; exact Hin|exact H].
      * right; left. destruct H as (key & n & Hin & H). exists key, n.
        unfold badMultisigKey in H. apply andb_prop in H as [Hm Hl].
        split; [exact Hin|]. split; [exact Hm|].
        apply negb_true_iff, Nat.eqb_neq in Hl. exact Hl.
      * left. destruct H as (key & n & Hin & H). exists key, n.
        split; [apply in_or_app; right; exact Hin|exact H].
      * right; right; left. exact H.
      * right; right; right. exact H.
    + intros [H|[H|[H|H]]].
      * destruct H as (key & n & Hin & H). apply in_app_or in Hin as [Hin|Hin].
        -- left; left; left; left. exists key, n. auto.
        -- left; left; right. exists key, n. auto.
      * left; left; left; right. destruct H as (key & n & Hin & Hm & Hl).
        exists key, n. split; [exact Hin|]. unfold badMultisigKey.
        rewrite Hm. apply Nat.eqb_neq in Hl. rewrite Hl. reflexivity.
      * left; right. exact H.
      * right. exact H.
  - intros e He. unfold getByteCount in He.
    destruct (raises ins outs) eqn:R.
    + destruct (getWeight_raises _ _ R) as [E|(key & Hin & Hk & E)];
        rewrite E in He; cbn [bind] in He; injection He as <-.
      * left; reflexivity.
      * right. exists key. unfold badMultisigKey in Hk.
        apply andb_prop in Hk as [Hm _]. auto.
    + rewrite (getWeight_ok _ _ R) in He. discriminate.
Qed.

(** C6, the claim as stated fails: a multisig input tag without its [n]
    part, and a multisig output tag without any part, raise nothing; the
    result is NaN. *)
Lemma getByteCount_malformed_tag_not_raised :
  isMultisigKey "MULTISIG-P2SH:2" = true
  /\ multisigTagShape "MULTISIG-P2SH:2" = false
  /\ getByteCount [("MULTISIG-P2SH:2", 1%Q)] [("P2PKH", 1%Q)] = Return NaN
  /\ isMultisigKey "MULTISIG-P2SH" = true
  /\ multisigTagShape "MULTISIG-P2SH" = false
  /\ getByteCount [("P2PKH", 1%Q)] [("MULTISIG-P2SH", 1%Q)] = Return NaN.
Proof. repeat split; vm_compute; reflexivity. Qed.

(** C7 (amended). While the weight is a safe integer ([exactWeights], the
    range in which the additions of the source are exact), the 2 weight
    units of the witness marker and flag are added exactly once when some
    input key contains the marker letter, and are not added otherwise; the
    output keys play no part. *)
Theorem getWeight_marker_overhead (ins outs : typeCounts) (w : jsnum) :
  getWeight ins outs = Return w ->
  exactWeights ins outs ->
  (hasMarker ins = true -> w = (weightWithoutMarker ins outs + Num 2)%js)
  /\ (hasMarker ins = false -> w = weightWithoutMarker ins outs)
  /\ getByteCount ins outs = Return (ceil_div4 w).
Proof.
  intros Hw _. assert (R : raises ins outs = false).
  { destruct (raises ins outs) eqn:R; [|reflexivity].
    destruct (getWeight_raises _ _ R) as [E|(key & _ & _ & E)];
      rewrite E in Hw; discriminate. }
  pose proof (getWeight_ok _ _ R) as E. rewrite Hw in E. injection E as ->.
  split; [|split].
  - intros ->. reflexivity.
  - intros ->. reflexivity.
  - unfold getByteCount. rewrite Hw. reflexivity.
Qed.

Lemma getWeight_marker_overhead_witness :
  getWeight [("P2WPKH", 2%Q)] [("P2PKH", 1%Q)] = Return (Num 722)
  /\ exactWeights [("P2WPKH", 2%Q)] [("P2PKH", 1%Q)]
  /\ hasMarker [("P2WPKH", 2%Q)] = true
  /\ Num 722 = (weightWithoutMarker [("P2WPKH", 2%Q)] [("P2PKH", 1%Q)] + Num 2)%js
  /\ getByteCount [("P2WPKH", 2%Q)] [("P2PKH", 1%Q)] = Return (ceil_div4 (Num 722)).
Proof.
  assert (H : getWeight [("P2WPKH", 2%Q)] [("P2PKH", 1%Q)] = Return (Num 722))
    by (vm_compute; reflexivity).
  assert (X : exactWeights [("P2WPKH", 2%Q)] [("P2PKH", 1%Q)]).
  { split; [repeat constructor|]. vm_compute. discriminate. }
  destruct (getWeight_marker_overhead _ _ _ H X) as (H1 & _ & H3).
  split; [exact H|]. split; [exact X|]. split; [reflexivity|].
  split; [exact (H1 eq_refl)|exact H3].
Defined.

(** C7, the claim as stated fails: with a witness output and no witness
    input the overhead is not added. *)
Lemma marker_in_output_key_adds_nothing :
  hasMarker [("P2WPKH", 1%Q)] = true
  /\ getWeight [("P2PKH", 1%Q)] [("P2WPKH", 1%Q)] = Return (Num 752)
  /\ weightWithoutMarker [("P2PKH", 1%Q)] [("P2WPKH", 1%Q)] = Num 752
  /\ getByteCount [("P2PKH", 1%Q)] [("P2WPKH", 1%Q)] = Return (Num 188)
  /\ ~ markerRuleOverInputsAndOutputs [("P2PKH", 1%Q)] [("P2WPKH", 1%Q)].
Proof.
  repeat split; try (vm_compute; reflexivity).
  intros H. destruct (H (Num 752)) as [H1 _]; [vm_compute; reflexivity|].
  specialize (H1 eq_refl). vm_compute in H1. discriminate.
Qed.

(** C8. One P2PKH input and one P2PKH output are estimated at 191 virtual
    bytes, with the input weighed at 147 * 4 weight units. *)
Theorem getByteCount_P2PKH_pinned :
  lookup_weight IO_TYPES.inputs "P2PKH" = Num (147 * 4)
  /\ getWeight [("P2PKH", 1%Q)] [("P2PKH", 1%Q)]
     = Return (Num (147 * 4 + 34 * 4 + 8 * 4 + 1 * 4 + 1 * 4))
  /\ (147 * 4 + 34 * 4 + 8 * 4 + 1 * 4 + 1 * 4) / 4 = 191
  /\ getByteCount [("P2PKH", 1%Q)] [("P2PKH", 1%Q)] = Return (Num 191).
Proof. repeat split; vm_compute; reflexivity. Qed.

(** A single entry with a key that has no weight, and a count in range:
    nothing is raised. *)
Lemma getByteCount_single_unrecognised_key (key : string) (n : Q) :
  outOfRange n = false ->
  (unrecognisedInput key -> getByteCount [(key, n)] [] = Return NaN)
  /\ (unrecognisedOutput key -> getByteCount [] [(key, n)] = Return NaN).
Proof.
  intros Hn. split; intros Hu.
  - assert (R : raises [(key, n)] [] = false).
    { unfold raises, inputEntryRaises, badMultisigKey, totalCount. simpl.
      destruct Hu as [-> _]. rewrite Hn. simpl.
      replace (0 + n)%Q with n; [rewrite Hn; reflexivity|].
      destruct n as [a b]. unfold Qplus. simpl. f_equal; lia. }
    unfold getByteCount. rewrite (getWeight_ok _ _ R). cbn [bind].
    rewrite weightWithoutMarker_NaN; [destruct (hasMarker _); reflexivity|].
    left. cbn [map jsum fold_right].
    rewrite (inputWeight_unrecognised key n Hu). reflexivity.
  - assert (R : raises [] [(key, n)] = false).
    { unfold raises, outputEntryRaises, totalCount. simpl. rewrite Hn. simpl.
      replace (0 + n)%Q with n; [exact Hn|].
      destruct n as [a b]. unfold Qplus. simpl. f_equal; lia. }
    unfold getByteCount. rewrite (getWeight_ok _ _ R). cbn [bind].
    rewrite weightWithoutMarker_NaN; [reflexivity|].
    right. cbn [map jsum fold_right].
    rewrite (outputWeight_unrecognised key n Hu). reflexivity.
Qed.

(** C10. A key without a weight raises nothing by itself: when the call
    does not raise (for a count or a multisig tag) and some input key is
    neither multisig-prefixed nor in the input table, or some output key is
    not in the output table, the result is NaN. *)
Theorem getByteCount_unrecognised_key_NaN (ins outs : typeCounts) :
  ~ throws (getByteCount ins outs) ->
  (exists key n, In (key, n) ins /\ unrecognisedInput key)
  \/ (exists key n, In (key, n) outs /\ unrecognisedOutput key) ->
  getByteCount ins outs = Return NaN.
Proof.
  intros Hnt Hkey. assert (R : raises ins outs = false).
  { destruct (raises ins outs) eqn:R; [|reflexivity].
    exfalso. apply Hnt, getByteCount_throws_iff, R. }
  unfold getByteCount. rewrite (getWeight_ok _ _ R). cbn [bind].
  rewrite weightWithoutMarker_NaN; [destruct (hasMarker ins); reflexivity|].
  destruct Hkey as [(key & n & Hin & Hu)|(key & n & Hin & Hu)]; [left|right];
    apply jsum_NaN, in_map_iff; exists (key, n); split; auto.
  - apply inputWeight_unrecognised, Hu.
  - apply outputWeight_unrecognised, Hu.
Qed.

Lemma getByteCount_unrecognised_key_NaN_witness :
  ~ throws (getByteCount [("P2SH", 1%Q)] [("MULTISIG-P2SH:2-3", 1%Q)])
  /\ unrecognisedInput "P2SH"
  /\ unrecognisedOutput "MULTISIG-P2SH:2-3"
  /\ getByteCount [("P2SH", 1%Q)] [("MULTISIG-P2SH:2-3", 1%Q)] = Return NaN.
Proof.
  assert (Hnt : ~ throws (getByteCount [("P2SH", 1%Q)] [("MULTISIG-P2SH:2-3", 1%Q)])).
  { intros [e He]. vm_compute in He. discriminate. }
  assert (Hu : unrecognisedInput "P2SH") by (split; vm_compute; reflexivity).
  split; [exact Hnt|]. split; [exact Hu|].
  split; [vm_compute; reflexivity|].
  apply (getByteCount_unrecognised_key_NaN _ _ Hnt).
  left. exists "P2SH", 1%Q. split; [left; reflexivity|exact Hu].
Defined.

(** ** The target-matching core *)

Section CoreProperties.
Context `{CM : CoinModule} `{LB : Libraries}.

Lemma value_fold_left_concat (xs : list Coin) (c : Coin) :
  value (fold_left CoinOps.concat xs c) = (value c + jsum (map value xs))%js.
Proof.
  revert c. induction xs as [|x xs IH]; intros c; simpl.
  - symmetry. apply jadd_0_r.
  - rewrite IH. simpl. symmetry. apply jadd_assoc.
Qed.

Lemma sumValues_jsum (xs : list Coin) : sumValues xs = jsum (map value xs).
Proof.
  unfold sumValues, CoinOps.fold. rewrite value_fold_left_concat.
  apply jadd_0_l.
Qed.

Lemma sumValues_app (xs ys : list Coin) :
  sumValues (xs ++ ys) = (sumValues xs + sumValues ys)%js.
Proof. rewrite !sumValues_jsum, map_app. apply jsum_app. Qed.

Lemma sumValues_singleton (c : Coin) : sumValues [c] = value c.
Proof. rewrite sumValues_jsum. simpl. apply jadd_0_r. Qed.

Lemma unfold_findTarget_prefix (target : jsnum) (f : Z) (coins : list Coin) :
  forall acc fee0,
    map snd (unfold_findTarget target f acc fee0 coins) `prefix_of` coins.
Proof.
  induction coins as [|c coins IH]; intros acc fee0; simpl.
  - apply prefix_nil.
  - destruct (jgt acc (target + fee0)%js); [apply prefix_nil|].
    destruct (jgt acc _); [apply prefix_nil|].
    simpl. apply prefix_cons, IH.
Qed.

Lemma unfold_findTarget_last (target : jsnum) (f : Z) (coins : list Coin) :
  forall acc fee0 maxBalance fee1 c,
    last (unfold_findTarget target f acc fee0 coins) = Some (maxBalance, fee1, c) ->
    let drawn := map snd (unfold_findTarget target f acc fee0 coins) in
    maxBalance = (acc + sumValues drawn)%js
    /\ fee1 = (fee0 + Num (inputFees f drawn))%js.
Proof.
  induction coins as [|x coins IH]; intros acc fee0 maxBalance fee1 c; simpl.
  - discriminate.
  - destruct (jgt acc (target + fee0)%js); [discriminate|].
    destruct (jgt acc _); [discriminate|].
    rewrite last_cons.
    destruct (last (unfold_findTarget target f _ _ coins))
      as [[[m' f'] c']|] eqn:Hlast.
    + intros E. injection E as <- <- <-.
      destruct (IH _ _ _ _ _ Hlast) as [Hm Hf]. cbn zeta in Hm, Hf.
      rewrite Hm, Hf. cbn [map snd inputFees fold_right].
      rewrite !sumValues_jsum. cbn [map jsum fold_right].
      fold (inputFees f (map snd (unfold_findTarget target f
        (acc + value x)%js
        (fee0 + Num (inputBytes (ACoin x) * f))%js coins))).
      split; [apply eq_sym, jadd_assoc|].
      rewrite <- jadd_assoc. reflexivity.
    + intros E. injection E as <- <- <-.
      apply last_None in Hlast. rewrite Hlast. simpl.
      rewrite sumValues_singleton. split; [reflexivity|].
      do 2 f_equal. lia.
Qed.

Lemma ft_inv (targets : list Coin) (f : Z) (coins : list Coin)
    (changeAddress : string) (s : Selection) :
  ft targets f coins changeAddress = Return s ->
  exists bytes drawn,
    transactionBytes [] (map ACoin targets) = Return bytes
    /\ drawn `prefix_of` List.filter (isEffective f) coins
    /\ ftResult targets f changeAddress bytes drawn s.
Proof.
  unfold ft. destruct (transactionBytes [] (map ACoin targets)) as [bytes|e];
    [|discriminate]. cbn [bind].
  set (trace := unfold_findTarget _ _ _ _ _).
  intros H. exists bytes, (map snd trace). split; [reflexivity|].
  split; [apply unfold_findTarget_prefix|].
  destruct (last trace) as [[[maxBalance fee1] c]|] eqn:Hlast.
  - assert (Hne : map snd trace <> []).
    { intros E. apply map_eq_nil in E. rewrite E in Hlast. discriminate. }
    destruct (unfold_findTarget_last _ _ _ _ _ _ _ _ Hlast) as [Hm Hf].
    cbn zeta in Hm, Hf. fold trace in Hm, Hf. rewrite jadd_0_l in Hm.
    subst maxBalance fee1.
    destruct (jlt _ _) eqn:Hlt.
    + injection H as <-. apply ft_insufficient; assumption.
    + destruct (jge _ _) eqn:Hge; injection H as <-.
      * apply ft_change; assumption.
      * apply ft_burn; assumption.
  - injection H as <-. apply last_None in Hlast. rewrite Hlast.
    apply ft_no_coins. reflexivity.
Qed.

(** [ft] returns whenever the size of the bare transaction is estimated. *)
Lemma ft_returns (targets : list Coin) (f : Z) (coins : list Coin)
    (changeAddress : string) (bytes : jsnum) :
  transactionBytes [] (map ACoin targets) = Return bytes ->
  exists s, ft targets f coins changeAddress = Return s.
Proof.
  intros E. unfold ft. rewrite E. cbn [bind].
  destruct (last _) as [[[maxBalance fee1] c]|]; [|eauto].
  destruct (jlt _ _); [eauto|]. destruct (jge _ _); eauto.
Qed.

End CoreProperties.

(** ** The branch-and-bound search *)

Section SearchProperties.
Context `{CM : CoinModule} `{LB : Libraries}.

Lemma isEmpty_true {A : Type} (l : list A) : isEmpty l = true <-> l = [].
Proof. destruct l; simpl; split; congruence. Qed.

Lemma filter_sublist (p : Coin -> bool) (l : list Coin) :
  List.filter p l `sublist_of` l.
Proof.
  induction l as [|x l IH]; simpl; [constructor|].
  destruct (p x); constructor; exact IH.
Qed.

Lemma filter_Permutation (p : Coin -> bool) (l k : list Coin) :
  Permutation l k -> Permutation (List.filter p l) (List.filter p k).
Proof.
  induction 1 as [|x l k _ IH|x y l|l k m _ IH1 _ IH2]; simpl.
  - constructor.
  - destruct (p x); [constructor|]; exact IH.
  - destruct (p x), (p y); try reflexivity. constructor.
  - etransitivity; eassumption.
Qed.

Lemma filter_Forall (p : Coin -> bool) (l : list Coin) :
  Forall (fun c => p c = true) (List.filter p l).
Proof.
  apply List.Forall_forall. intros c Hc. apply filter_In in Hc. tauto.
Qed.

(** A non-empty result of the search extends the current selection by a
    subsequence of the remaining coins whose effective values bring the
    total into the match range. *)
Lemma _branchAndBound_match (tfm range : jsnum) (f : Z)
    (rng : option (nat -> Q)) (random : nat -> Q) (rest : list Coin) :
  forall cur eff st r st',
    _branchAndBound tfm range f rng random rest cur eff st = (r, st') ->
    r <> [] ->
    exists picked,
      r = cur ++ picked
      /\ picked `sublist_of` rest
      /\ jge (eff + jsum (map (effectiveValue f) picked))%js tfm = true
      /\ jgt (eff + jsum (map (effectiveValue f) picked))%js (tfm + range)%js = false.
Proof.
  assert (Hstop : forall (cur : list Coin) eff r (st st' : bnbState) l,
    jgt eff (tfm + range)%js = false -> jge eff tfm = true ->
    (cur, st) = (r, st') ->
    exists picked, r = cur ++ picked /\ picked `sublist_of` l
      /\ jge (eff + jsum (map (effectiveValue f) picked))%js tfm = true
      /\ jgt (eff + jsum (map (effectiveValue f) picked))%js (tfm + range)%js = false).
  { intros cur eff r st st' l Hgt Hge E. injection E as <- _. exists [].
    rewrite app_nil_r. simpl. rewrite jadd_0_r.
    split; [reflexivity|]. split; [apply sublist_nil_l|]. split; assumption. }
  induction rest as [|coin deeper IH]; intros cur eff st r st' H Hr.
  - simpl in H. destruct (jgt eff (tfm + range)%js) eqn:Hgt.
    { injection H as <- _. congruence. }
    destruct (jge eff tfm) eqn:Hge; [eapply Hstop; eassumption|].
    destruct (_ <? 1); injection H as <- _; congruence.
  - simpl in H. destruct (jgt eff (tfm + range)%js) eqn:Hgt.
    { injection H as <- _. congruence. }
    destruct (jge eff tfm) eqn:Hge; [eapply Hstop; eassumption|].
    destruct (_ <? 1); [injection H as <- _; congruence|].
    assert (Hin : forall r0 st0 st1,
      _branchAndBound tfm range f rng random deeper (cur ++ [coin])
        (eff + effectiveValue f coin)%js st0 = (r0, st1) -> r0 <> [] ->
      exists picked, r0 = cur ++ picked /\ picked `sublist_of` coin :: deeper
        /\ jge (eff + jsum (map (effectiveValue f) picked))%js tfm = true
        /\ jgt (eff + jsum (map (effectiveValue f) picked))%js (tfm + range)%js = false).
    { intros r0 st0 st1 E Hne.
      destruct (IH _ _ _ _ _ E Hne) as (picked & -> & Hsub & Hlo & Hhi).
      exists (coin :: picked). rewrite <- app_assoc. simpl.
      rewrite jadd_assoc. split; [reflexivity|].
      split; [constructor; exact Hsub|]. split; assumption. }
    assert (Hex : forall r0 st0 st1,
      _branchAndBound tfm range f rng random deeper cur eff st0 = (r0, st1) ->
      r0 <> [] ->
      exists picked, r0 = cur ++ picked /\ picked `sublist_of` coin :: deeper
        /\ jge (eff + jsum (map (effectiveValue f) picked))%js tfm = true
        /\ jgt (eff + jsum (map (effectiveValue f) picked))%js (tfm + range)%js = false).
    { intros r0 st0 st1 E Hne.
      destruct (IH _ _ _ _ _ E Hne) as (picked & -> & Hsub & Hlo & Hhi).
      exists picked. split; [reflexivity|].
      split; [constructor; exact Hsub|]. split; assumption. }
    destruct (exploreIncludeFirst rng random _) as [first st1].
    destruct first.
    + destruct (_branchAndBound tfm range f rng random deeper (cur ++ [coin]) _ st1)
        as [include st2] eqn:E1.
      destruct (isEmpty include) eqn:Hemp; simpl in H.
      * eapply Hex; eassumption.
      * injection H as <- <-. eapply Hin; [eassumption|].
        intros ->. discriminate.
    + destruct (_branchAndBound tfm range f rng random deeper cur eff st1)
        as [exclude st2] eqn:E1.
      destruct (isEmpty exclude) eqn:Hemp; simpl in H.
      * eapply Hin; eassumption.
      * injection H as <- <-. eapply Hex; [eassumption|].
        intros ->. discriminate.
Qed.

Lemma jge_true_inv (a b : jsnum) :
  jge a b = true -> exists x y, a = Num x /\ b = Num y /\ y <= x.
Proof.
  destruct a as [x|], b as [y|]; simpl; intros H; try discriminate.
  exists x, y. repeat split. lia.
Qed.

Lemma jgt_false_Num (x y : Z) : jgt (Num x) (Num y) = false -> x <= y.
Proof. unfold jgt. simpl. intros H. lia. Qed.

(** With a seeded generator whose draws are never 0, the default source
    is not consulted. *)
Lemma exploreIncludeFirst_seeded (g : nat -> Q) (random : nat -> Q) (st : bnbState) :
  (forall k, ~ (g k == 0)%Q) ->
  exploreIncludeFirst (Some g) random st =
    (true, {| bnbTries := bnbTries st;
              seededDraws := S (seededDraws st);
              randomDraws := randomDraws st |}).
Proof.
  intros Hg. unfold exploreIncludeFirst.
  destruct (Qeq_bool (g (seededDraws st)) 0) eqn:E; [|reflexivity].
  apply Qeq_bool_iff in E. destruct (Hg _ E).
Qed.

Lemma _branchAndBound_seeded (tfm range : jsnum) (f : Z) (g : nat -> Q)
    (random1 random2 : nat -> Q) (rest : list Coin) :
  (forall k, ~ (g k == 0)%Q) ->
  forall cur eff st,
    _branchAndBound tfm range f (Some g) random1 rest cur eff st
    = _branchAndBound tfm range f (Some g) random2 rest cur eff st.
Proof.
  intros Hg. induction rest as [|coin deeper IH]; intros cur eff st;
    cbn [_branchAndBound].
  - reflexivity.
  - destruct (jgt eff (tfm + range)%js); [reflexivity|].
    destruct (jge eff tfm); [reflexivity|].
    destruct (_ <? 1); [reflexivity|].
    rewrite !(exploreIncludeFirst_seeded g _ _ Hg).
    rewrite IH.
    destruct (_branchAndBound tfm range f (Some g) random2 deeper (cur ++ [coin]) _ _)
      as [include st2].
    destruct (isEmpty include); cbn [negb]; [apply IH|reflexivity].
Qed.

(** The two ways [bnb] ends. *)
Lemma bnb_cases (targets : list Coin) (f : Z) (coins : list Coin)
    (changeAddress : string) (seed : option string) (random : nat -> Q) :
  (exists bytes selected,
     transactionBytes [] (map ACoin targets) = Return bytes
     /\ selected <> []
     /\ selected `sublist_of` sortedCoinsOf f coins
     /\ jge (jsum (map (effectiveValue f) selected))
            (sumValues targets + bytes * Num f)%js = true
     /\ jgt (jsum (map (effectiveValue f) selected))
            (sumValues targets + bytes * Num f + Num (dustThreshold f))%js = false
     /\ bnb targets f coins changeAddress seed random =
          Return {| fee := (sumValues selected - sumValues targets)%js;
                    inputs := selected;
                    outputs := targets |})
  \/ (exists n,
        bnb targets f coins changeAddress seed random =
          singleRandomDraw targets f (sortedCoinsOf f coins) changeAddress seed
            (fun k => random (n + k)%nat)).
Proof.
  unfold bnb.
  destruct (transactionBytes [] (map ACoin targets)) as [bytes|e] eqn:Hb.
  - cbn [bind].
    destruct (_branchAndBound _ _ _ _ _ _ _ _ _) as [sel st] eqn:E.
    destruct (isEmpty sel) eqn:Hemp.
    + right. exists (randomDraws st). reflexivity.
    + left. exists bytes, sel.
      assert (Hne : sel <> []) by (intros ->; discriminate).
      destruct (_branchAndBound_match _ _ _ _ _ _ _ _ _ _ _ E Hne)
        as (picked & -> & Hsub & Hlo & Hhi).
      cbn [app] in *. rewrite jadd_0_l in Hlo, Hhi.
      repeat split; assumption.
  - right. exists 0%nat. cbn [bind].
    unfold singleRandomDraw, findTarget, ft. rewrite Hb. reflexivity.
Qed.

End SearchProperties.

(** ** The claims on the selections *)

Section SelectionClaims.
Context `{CM : CoinModule} `{LB : Libraries}.

Lemma balanced_change (a t b c : jsnum) (d z : Z) (targets : list Coin)
    (chg : Coin) (drawn : list Coin) :
  sumValues drawn = a -> sumValues targets = t ->
  value chg = (a - t - b - c)%js ->
  jge (a - t - b - c)%js (Num d) = true ->
  (b + c)%js = Num z ->
  balanced {| fee := (b + c)%js; inputs := drawn; outputs := targets ++ [chg] |}.
Proof.
  intros Ha Ht Hv Hge Hz. unfold balanced. cbn [fee inputs outputs].
  rewrite sumValues_app, sumValues_singleton, Ha, Ht, Hv.
  destruct a as [a|], t as [t|], b as [b|], c as [c|]; try discriminate.
  simpl. eexists _, _, _. repeat split. lia.
Qed.

Lemma balanced_burn (a t b : jsnum) (z : Z) (targets drawn : list Coin) :
  sumValues drawn = a -> sumValues targets = t ->
  (b + (a - t - b))%js = Num z ->
  balanced {| fee := (b + (a - t - b))%js; inputs := drawn; outputs := targets |}.
Proof.
  intros Ha Ht Hz. unfold balanced. cbn [fee inputs outputs]. rewrite Ha, Ht.
  destruct a as [a|], t as [t|], b as [b|]; try discriminate.
  simpl. eexists _, _, _. repeat split. lia.
Qed.

Lemma ftResult_balanced (targets : list Coin) (f : Z) (addr : string)
    (bytes : jsnum) (drawn : list Coin) (s : Selection) :
  ftResult targets f addr bytes drawn s ->
  inputs s <> [] -> (exists z, fee s = Num z) -> balanced s.
Proof.
  intros R Hne [z Hz]. destruct R; cbn [inputs fee] in *; try congruence.
  - eapply balanced_change; eauto.
  - eapply balanced_burn; eauto.
Qed.

Lemma ft_balanced (targets : list Coin) (f : Z) (coins : list Coin)
    (addr : string) (s : Selection) :
  ft targets f coins addr = Return s ->
  inputs s <> [] -> (exists z, fee s = Num z) -> balanced s.
Proof.
  intros H. destruct (ft_inv _ _ _ _ _ H) as (bytes & drawn & _ & _ & R).
  eapply ftResult_balanced, R.
Qed.


(** C4 (amended). A failed selection, one without inputs, is either the
    empty selection, fee 0 and no outputs, returned when no coin was
    drawn, or it has the targets as outputs and the accumulated fee of the
    coins drawn, whose values do not cover the target and that fee. With
    no spendable coin it is the empty selection. *)
Theorem ft_failure (targets : list Coin) (f : Z) (coins : list Coin)
    (changeAddress : string) (s : Selection) :
  findTarget targets f coins changeAddress = Return s ->
  inputs s = [] ->
  (s = {| fee := Num 0; inputs := []; outputs := [] |}
   \/ exists bytes drawn,
        transactionBytes [] (map ACoin targets) = Return bytes
        /\ drawn <> []
        /\ drawn `prefix_of` List.filter (isEffective f) coins
        /\ outputs s = targets
        /\ fee s = (bytes * Num f + Num (inputFees f drawn))%js
        /\ jlt (sumValues drawn) (sumValues targets + fee s)%js = true)
  /\ (List.filter (isEffective f) coins = [] ->
      s = {| fee := Num 0; inputs := []; outputs := [] |}).
Proof.
  unfold findTarget. intros H Hin.
  destruct (ft_inv _ _ _ _ _ H) as (bytes & drawn & Hb & Hp & R).
  split.
  - destruct R as [Hd|Hd fee1 Hlt|Hd fee1 extra feeChange Hlt Hge
                  |Hd fee1 extra feeChange Hlt Hge];
      cbn [inputs outputs fee] in *; try congruence.
    + left; reflexivity.
    + right. exists bytes, drawn. repeat split; assumption.
  - intros He. rewrite He in Hp. apply prefix_nil_inv in Hp.
    destruct R; congruence.
Qed.

End SelectionClaims.

Section SearchClaims.
Context `{CM : CoinModule} `{LB : Libraries}.

Lemma sortedCoinsOf_Permutation (f : Z) (coins : list Coin) :
  Permutation (sortedCoinsOf f coins) (List.filter (isEffective f) coins).
Proof. unfold sortedCoinsOf. apply filter_Permutation, sort_permutation. Qed.

(** C5. With a string seed whose generator never draws 0, the results of
    [singleRandomDraw] and of [branchAndBound] do not depend on the
    default source: every shuffle and every branch order is decided by the
    seeded generator, and two runs on the same arguments agree. *)
Theorem seeded_runs_deterministic (targets : list Coin) (f : Z)
    (coins : list Coin) (changeAddress seed : string) (random1 random2 : nat -> Q) :
  (forall k, ~ (seedrandom seed k == 0)%Q) ->
  singleRandomDraw targets f coins changeAddress (Some seed) random1
  = singleRandomDraw targets f coins changeAddress (Some seed) random2
  /\ branchAndBound targets f coins changeAddress (Some seed) random1
     = branchAndBound targets f coins changeAddress (Some seed) random2.
Proof.
  intros Hg. split; [reflexivity|].
  unfold branchAndBound, bnb.
  destruct (transactionBytes [] (map ACoin targets)) as [bytes|e]; [|reflexivity].
  cbn [bind option_map].
  rewrite (_branchAndBound_seeded _ _ _ _ random1 random2 _ Hg).
  destruct (_branchAndBound _ _ _ _ _ _ _ _ _) as [sel st].
  destruct (isEmpty sel); reflexivity.
Qed.

End SearchClaims.

(** ** The claims at concrete inputs *)

Lemma reference_findTarget_spend :
  @findTarget Reference.coinModule [Reference.coin 1000 "dest"] 1
    [Reference.coin 5000 "a"] "chg" = Return Reference.spend.
Proof. vm_compute. reflexivity. Qed.

Lemma reference_findTarget_short :
  @findTarget Reference.coinModule [Reference.coin 1000 "dest"] 1
    [Reference.coin 1100 "a"] "chg" = Return Reference.short.
Proof. vm_compute. reflexivity. Qed.

(** The two ways [branchAndBound] ends, on the reference interface: the
    coin of 1200 matches 1000 and the fee of one input and one output; a
    single coin of 5000 matches nothing and is drawn with change. *)
Lemma reference_branchAndBound_match :
  @branchAndBound Reference.coinModule Reference.libraries
    [Reference.coin 1000 "dest"] 1
    [Reference.coin 5000 "a"; Reference.coin 1200 "b"; Reference.coin 700 "c"]
    "chg" (Some "seed") (fun _ => 0%Q)
  = Return {| fee := Num 200;
              inputs := [Reference.coin 1200 "b"];
              outputs := [Reference.coin 1000 "dest"] |}.
Proof. vm_compute. reflexivity. Qed.

Lemma reference_branchAndBound_fallback :
  @branchAndBound Reference.coinModule Reference.libraries
    [Reference.coin 1000 "dest"] 1 [Reference.coin 5000 "a"]
    "chg" (Some "seed") (fun _ => 0%Q)
  = Return Reference.spend.
Proof. vm_compute. reflexivity. Qed.

Lemma reference_generator_nonzero (seed : string) (k : nat) :
  ~ (Reference.generator seed k == 0)%Q.
Proof. unfold Reference.generator, Qeq. simpl. lia. Qed.


(** C4, the claim as stated fails: without a spendable coin the outputs of
    the result are empty, not the targets. *)
Lemma ft_without_coins_drops_targets :
  @findTarget Reference.coinModule [Reference.coin 1000 "dest"] 1 [] "chg"
  = Return {| fee := Num 0; inputs := []; outputs := [] |}
  /\ outputs {| fee := Num 0; inputs := []; outputs := [] |}
     <> [Reference.coin 1000 "dest"].
Proof. split; [vm_compute; reflexivity|discriminate]. Qed.

Lemma ft_failure_witness :
  @findTarget Reference.coinModule [Reference.coin 1000 "dest"] 1
    [Reference.coin 1100 "a"] "chg" = Return Reference.short
  /\ inputs Reference.short = []
  /\ (Reference.short = {| fee := Num 0; inputs := []; outputs := [] |}
      \/ exists bytes drawn,
           @transactionBytes Reference.coinModule []
             (map ACoin [Reference.coin 1000 "dest"]) = Return bytes
           /\ drawn <> []
           /\ drawn `prefix_of`
                List.filter (@isEffective Reference.coinModule 1) [Reference.coin 1100 "a"]
           /\ outputs Reference.short = [Reference.coin 1000 "dest"]
           /\ fee Reference.short
              = (bytes * Num 1 + Num (@inputFees Reference.coinModule 1 drawn))%js
           /\ jlt (sumValues drawn)
                  (sumValues [Reference.coin 1000 "dest"] + fee Reference.short)%js = true).
Proof.
  assert (H1 := reference_findTarget_short).
  assert (H2 : inputs Reference.short = []) by reflexivity.
  split; [exact H1|]. split; [exact H2|].
  exact (proj1 (@ft_failure Reference.coinModule _ _ _ _ _ H1 H2)).
Defined.

Lemma seeded_runs_deterministic_witness :
  (forall k, ~ (@seedrandom Reference.libraries "seed" k == 0)%Q)
  /\ @branchAndBound Reference.coinModule Reference.libraries
       [Reference.coin 1000 "dest"] 1
       [Reference.coin 1200 "a"; Reference.coin 1250 "b"] "chg" (Some "seed")
       (fun _ => 0%Q)
     = @branchAndBound Reference.coinModule Reference.libraries
         [Reference.coin 1000 "dest"] 1
         [Reference.coin 1200 "a"; Reference.coin 1250 "b"] "chg" (Some "seed")
         (fun _ => 1%Q).
Proof.
  assert (H := reference_generator_nonzero "seed").
  split; [exact H|].
  exact (proj2 (@seeded_runs_deterministic Reference.coinModule Reference.libraries
                  _ _ _ _ "seed" (fun _ => 0%Q) (fun _ => 1%Q) H)).
Defined.

(** Why C5 asks for draws that are not 0: a generator that draws 0 makes
    [(rng && rng()) || Math.random() > 0.5] fall through to the default
    source, and the result then follows that source. *)
Remark zero_draw_consults_default_source :
  @bnb Reference.coinModule Reference.zeroDrawLibraries
    [Reference.coin 1000 "dest"] 1
    [Reference.coin 1200 "a"; Reference.coin 1250 "b"] "chg" (Some "seed")
    (fun _ => 0%Q)
  <> @bnb Reference.coinModule Reference.zeroDrawLibraries
       [Reference.coin 1000 "dest"] 1
       [Reference.coin 1200 "a"; Reference.coin 1250 "b"] "chg" (Some "seed")
       (fun _ => 1%Q).
Proof. vm_compute. discriminate. Qed.

(** * Further properties of the module *)

(** ** The size estimator *)

(** The virtual size is the weight divided by 4 and rounded up. *)
Theorem getByteCount_rounds_up (ins outs : typeCounts) (w : Z) :
  getWeight ins outs = Return (Num w) ->
  exists v, getByteCount ins outs = Return (Num v) /\ 4 * v - 3 <= w <= 4 * v.
Proof.
  intros H. unfold getByteCount. rewrite H. cbn [bind ceil_div4].
  eexists. split; [reflexivity|].
  pose proof (Z.div_mod (- w) 4 ltac:(lia)) as E.
  pose proof (Z.mod_pos_bound (- w) 4 ltac:(lia)) as B. lia.
Qed.

Lemma getByteCount_rounds_up_witness :
  getWeight [("P2WPKH", 1%Q)] [("P2PKH", 1%Q)] = Return (Num 450)
  /\ exists v, getByteCount [("P2WPKH", 1%Q)] [("P2PKH", 1%Q)] = Return (Num v)
               /\ 4 * v - 3 <= 450 <= 4 * v.
Proof.
  assert (H : getWeight [("P2WPKH", 1%Q)] [("P2PKH", 1%Q)] = Return (Num 450))
    by (vm_compute; reflexivity).
  split; [exact H|]. exact (getByteCount_rounds_up _ _ _ H).
Defined.

Lemma Qplus_comm_eq (a b : Q) : (a + b)%Q = (b + a)%Q.
Proof.
  destruct a as [a c], b as [b d]. unfold Qplus. simpl.
  f_equal; [ring|apply Pos.mul_comm].
Qed.

Lemma Qplus_assoc_eq (a b c : Q) : (a + b + c)%Q = (a + (b + c))%Q.
Proof.
  destruct a as [a x], b as [b y], c as [c z]. unfold Qplus. simpl.
  f_equal; [rewrite !Pos2Z.inj_mul; ring|symmetry; apply Pos.mul_assoc].
Qed.

Lemma fold_left_Qplus_Permutation (l k : list Q) :
  Permutation l k -> forall a, fold_left Qplus l a = fold_left Qplus k a.
Proof.
  induction 1 as [|x l k _ IH|x y l|l k m _ IH1 _ IH2]; intros a; simpl.
  - reflexivity.
  - apply IH.
  - f_equal. rewrite !Qplus_assoc_eq. f_equal. apply Qplus_comm_eq.
  - rewrite IH1. apply IH2.
Qed.

Lemma totalCount_Permutation (l k : typeCounts) (a : Q) :
  Permutation l k -> totalCount l a = totalCount k a.
Proof.
  intros H. unfold totalCount. apply fold_left_Qplus_Permutation.
  apply Permutation_map, H.
Qed.

Lemma jsum_Permutation (l k : list jsnum) : Permutation l k -> jsum l = jsum k.
Proof.
  induction 1 as [|x l k _ IH|x y l|l k m _ IH1 _ IH2]; simpl.
  - reflexivity.
  - rewrite IH. reflexivity.
  - rewrite !jadd_assoc. f_equal. apply jadd_comm.
  - congruence.
Qed.

Lemma existsb_Permutation {A : Type} (p : A -> bool) (l k : list A) :
  Permutation l k -> existsb p l = existsb p k.
Proof.
  induction 1 as [|x l k _ IH|x y l|l k m _ IH1 _ IH2]; simpl.
  - reflexivity.
  - rewrite IH. reflexivity.
  - rewrite !orb_assoc. f_equal. apply orb_comm.
  - congruence.
Qed.

Lemma raises_Permutation (ins ins' outs outs' : typeCounts) :
  Permutation ins ins' -> Permutation outs outs' ->
  raises ins outs = raises ins' outs'.
Proof.
  intros Hi Ho. unfold raises.
  rewrite (existsb_Permutation _ _ _ Hi), (existsb_Permutation _ _ _ Ho),
    (totalCount_Permutation _ _ _ Hi), (totalCount_Permutation _ _ _ Ho).
  reflexivity.
Qed.

Lemma weightWithoutMarker_Permutation (ins ins' outs outs' : typeCounts) :
  Permutation ins ins' -> Permutation outs outs' ->
  weightWithoutMarker ins outs = weightWithoutMarker ins' outs'.
Proof.
  intros Hi Ho. unfold weightWithoutMarker.
  rewrite (jsum_Permutation _ _ (Permutation_map inputWeight Hi)),
    (jsum_Permutation _ _ (Permutation_map outputWeight Ho)),
    (totalCount_Permutation _ _ _ Hi), (totalCount_Permutation _ _ _ Ho).
  reflexivity.
Qed.

(** The estimate does not depend on the order of the keys of the two
    maps: in another order the call raises when it raised before, and,
    while the weight is a safe integer ([exactWeights]: beyond it the
    additions of the source round, and in an order-dependent way), it
    returns what it returned before. *)
Theorem getByteCount_order_independent (ins ins' outs outs' : typeCounts) :
  Permutation ins ins' -> Permutation outs outs' ->
  (throws (getByteCount ins outs) <-> throws (getByteCount ins' outs'))
  /\ (exactWeights ins outs ->
      exactWeights ins' outs'
      /\ forall r, getByteCount ins outs = Return r ->
                   getByteCount ins' outs' = Return r).
Proof.
  intros Hi Ho. pose proof (raises_Permutation _ _ _ _ Hi Ho) as R. split.
  - rewrite !getByteCount_throws_iff, R. reflexivity.
  - intros [Xn Xw]. split.
    + split.
      * apply List.Forall_forall. intros e He.
        apply (proj1 (List.Forall_forall _ _) Xn).
        eapply Permutation_in; [symmetry; exact Hi|exact He].
      * rewrite <- (weightWithoutMarker_Permutation _ _ _ _ Hi Ho). exact Xw.
    + intros r H. destruct (raises ins outs) eqn:E.
      * assert (T : throws (getByteCount ins outs))
          by (apply getByteCount_throws_iff, E).
        destruct T as [e T]. congruence.
      * unfold getByteCount in *. rewrite getWeight_ok in H by exact E.
        rewrite getWeight_ok by (symmetry; exact R).
        unfold hasMarker in *. rewrite <- (existsb_Permutation _ _ _ Hi).
        rewrite <- (weightWithoutMarker_Permutation _ _ _ _ Hi Ho). exact H.
Qed.

Lemma getByteCount_order_independent_witness :
  Permutation [("P2PKH", 2%Q); ("P2WPKH", 1%Q)] [("P2WPKH", 1%Q); ("P2PKH", 2%Q)]
  /\ Permutation [("P2SH", 1%Q)] [("P2SH", 1%Q)]
  /\ exactWeights [("P2PKH", 2%Q); ("P2WPKH", 1%Q)] [("P2SH", 1%Q)]
  /\ getByteCount [("P2PKH", 2%Q); ("P2WPKH", 1%Q)] [("P2SH", 1%Q)] = Return (Num 405)
  /\ getByteCount [("P2WPKH", 1%Q); ("P2PKH", 2%Q)] [("P2SH", 1%Q)] = Return (Num 405).
Proof.
  assert (H1 : Permutation [("P2PKH", 2%Q); ("P2WPKH", 1%Q)]
                           [("P2WPKH", 1%Q); ("P2PKH", 2%Q)]) by constructor.
  assert (H2 : Permutation [("P2SH", 1%Q)] [("P2SH", 1%Q)]) by reflexivity.
  assert (X : exactWeights [("P2PKH", 2%Q); ("P2WPKH", 1%Q)] [("P2SH", 1%Q)]).
  { split; [repeat constructor|]. vm_compute. discriminate. }
  assert (H3 : getByteCount [("P2PKH", 2%Q); ("P2WPKH", 1%Q)] [("P2SH", 1%Q)]
               = Return (Num 405)) by (vm_compute; reflexivity).
  split; [exact H1|]. split; [exact H2|]. split; [exact X|]. split; [exact H3|].
  exact (proj2 (proj2 (getByteCount_order_independent _ _ _ _ H1 H2) X) (Num 405) H3).
Defined.

Lemma varIntLength_cases (n : Q) (x : Z) :
  varIntLength n = Return x ->
  outOfRange n = false /\ x = varIntSize n.
Proof.
  unfold varIntLength, checkUInt53. destruct (outOfRange n); [discriminate|].
  cbn [bind]. intros E. injection E as <-. split; reflexivity.
Qed.

(** The length prefix of a count is 1, 3, 5 or 9 bytes and never shrinks
    when the count grows. *)
Theorem varIntLength_monotone (a b : Q) (x y : Z) :
  varIntLength a = Return x -> varIntLength b = Return y ->
  (a <= b)%Q ->
  x <= y /\ In x [1; 3; 5; 9].
Proof.
  intros Ha Hb Hab.
  apply varIntLength_cases in Ha as [_ ->]. apply varIntLength_cases in Hb as [_ ->].
  unfold varIntSize.
  destruct (Qlt_bool a (inject_Z 253)) eqn:A1;
    destruct (Qle_bool a (inject_Z 65535)) eqn:A2;
    destruct (Qle_bool a (inject_Z 4294967295)) eqn:A3;
    destruct (Qlt_bool b (inject_Z 253)) eqn:B1;
    destruct (Qle_bool b (inject_Z 65535)) eqn:B2;
    destruct (Qle_bool b (inject_Z 4294967295)) eqn:B3;
    (split; [|simpl; tauto]); try lia; exfalso;
    repeat match goal with
      | H : Qlt_bool _ _ = true |- _ => apply Qlt_bool_iff in H
      | H : Qle_bool _ _ = true |- _ => apply Qle_bool_iff in H
      | H : Qlt_bool _ _ = false |- _ =>
          apply not_true_iff_false in H; rewrite Qlt_bool_iff in H
      | H : Qle_bool _ _ = false |- _ =>
          apply not_true_iff_false in H; rewrite Qle_bool_iff in H
      end;
    unfold inject_Z in *; lra.
Qed.

Lemma varIntLength_monotone_witness :
  varIntLength 252 = Return 1 /\ varIntLength 253 = Return 3
  /\ (252 <= 253)%Q /\ 1 <= 3 /\ In 1 [1; 3; 5; 9].
Proof.
  assert (H1 : varIntLength 252 = Return 1) by reflexivity.
  assert (H2 : varIntLength 253 = Return 3) by reflexivity.
  assert (H3 : (252 <= 253)%Q) by (unfold Qle; simpl; lia).
  split; [exact H1|]. split; [exact H2|]. split; [exact H3|].
  exact (varIntLength_monotone _ _ _ _ H1 H2 H3).
Defined.

(** ** Multisig tags *)

Lemma outOfRange_inject_Z' (n : Z) :
  outOfRange (inject_Z n) = (n <? 0) || (MAX_SAFE_INTEGER <? n).
Proof.
  unfold outOfRange, Qlt_bool, Qle_bool, isIntegral, inject_Z.
  cbn [Qnum Qden]. rewrite Z.mod_1_r, !Z.mul_1_r. cbn [Z.eqb negb].
  rewrite orb_false_r, <- !Z.ltb_antisym. reflexivity.
Qed.

Lemma parseDigits_uint (d : Decimal.uint) :
  forall a : nat,
    parseDigits 10 (NilEmpty.string_of_uint d) (Num (Z.of_nat a))
    = Num (Z.of_nat (Nat.of_uint_acc d a)).
Proof.
  induction d as [|d IH|d IH|d IH|d IH|d IH|d IH|d IH|d IH|d IH|d IH];
    intros a; [reflexivity|..];
    cbn [NilEmpty.string_of_uint parseDigits Nat.of_uint_acc];
    match goal with
    | |- context [digitValue ?c] =>
        let v := eval vm_compute in (digitValue c) in
        change (digitValue c) with v
    end;
    cbn [Z.ltb Z.compare Pos.compare Pos.compare_cont];
    rewrite <- IH, Nat.tail_mul_spec; f_equal; f_equal; lia.
Qed.

Lemma parseDigits_uint_NaN (d : Decimal.uint) :
  d <> Decimal.Nil ->
  parseDigits 10 (NilEmpty.string_of_uint d) NaN = Num (Z.of_nat (Nat.of_uint d)).
Proof.
  intros Hd. unfold Nat.of_uint.
  destruct d; [congruence|..];
    cbn [NilEmpty.string_of_uint parseDigits Nat.of_uint_acc];
    match goal with
    | |- context [digitValue ?c] =>
        let v := eval vm_compute in (digitValue c) in
        change (digitValue c) with v
    end;
    cbn [Z.ltb Z.compare Pos.compare Pos.compare_cont];
    rewrite <- parseDigits_uint; reflexivity.
Qed.

Lemma parseInt_uint (d : Decimal.uint) :
  d <> Decimal.Nil ->
  parseInt (NilEmpty.string_of_uint d)
  = parseDigits 10 (NilEmpty.string_of_uint d) NaN.
Proof.
  intros Hd.
  assert (E : forall x, (Num 1 * x)%js = x).
  { intros [z|]; [|reflexivity]. simpl. f_equal. destruct z; reflexivity. }
  destruct d; [congruence|..];
    try (etransitivity; [|apply E]; reflexivity).
  destruct d; (etransitivity; [|apply E]; reflexivity).
Qed.

(** [parseInt] reads back the decimal numeral of a number. *)
Lemma parseInt_decimal (n : nat) : parseInt (decimal n) = Num (Z.of_nat n).
Proof.
  unfold decimal, NilZero.string_of_uint.
  rewrite <- (DecimalNat.Unsigned.of_to n) at 2.
  destruct (Nat.to_uint n) eqn:E; [reflexivity|..];
    rewrite parseInt_uint, parseDigits_uint_NaN by discriminate; reflexivity.
Qed.

Lemma includes_uint (c : ascii) (d : Decimal.uint) :
  isDigit c = false -> includes c (NilEmpty.string_of_uint d) = false.
Proof.
  intros Hc. induction d; cbn [NilEmpty.string_of_uint includes];
    [reflexivity|..]; rewrite IHd, orb_false_r;
    apply Ascii.eqb_neq; intros <-; discriminate Hc.
Qed.

Lemma includes_decimal (c : ascii) (n : nat) :
  isDigit c = false -> includes c (decimal n) = false.
Proof.
  intros Hc. unfold decimal, NilZero.string_of_uint.
  destruct (Nat.to_uint n) eqn:E; try (apply includes_uint; exact Hc).
  cbn [includes]. rewrite orb_false_r. apply Ascii.eqb_neq. intros <-. discriminate Hc.
Qed.

Lemma includes_append (c : ascii) (s1 s2 : string) :
  includes c (String.append s1 s2) = includes c s1 || includes c s2.
Proof.
  induction s1 as [|d s1 IH]; simpl; [reflexivity|]. rewrite IH. apply orb_assoc.
Qed.

Lemma split_nonempty (sep : ascii) (s : string) : split sep s <> [].
Proof.
  induction s as [|c s IH]; simpl; [discriminate|].
  destruct (Ascii.eqb c sep); [discriminate|].
  destruct (split sep s); [congruence|discriminate].
Qed.

Lemma split_without (sep : ascii) (s : string) :
  includes sep s = false -> split sep s = [s].
Proof.
  induction s as [|c s IH]; simpl; [reflexivity|].
  intros H. apply orb_false_elim in H as [Hc Hs].
  rewrite Hc, (IH Hs). reflexivity.
Qed.

Lemma split_append (sep : ascii) (s1 s2 : string) :
  includes sep s1 = false ->
  split sep (String.append s1 (String sep s2)) = s1 :: split sep s2.
Proof.
  induction s1 as [|c s1 IH]; simpl.
  - intros _. rewrite Ascii.eqb_refl. reflexivity.
  - intros H. apply orb_false_elim in H as [Hc Hs].
    rewrite Hc, (IH Hs). reflexivity.
Qed.

Lemma split_multisigTag (kind : string) (m n : nat) :
  includes ":" kind = false ->
  split ":" (multisigTag kind m n)
  = [kind; String.append (decimal m) (String "-" (decimal n))].
Proof.
  intros Hk. unfold multisigTag. rewrite split_append by exact Hk.
  rewrite split_without; [reflexivity|].
  rewrite includes_append. cbn [includes].
  rewrite !includes_decimal by reflexivity. reflexivity.
Qed.

Lemma multisigTag_isMultisigKey (kind : string) (m n : nat) :
  In kind multisigKinds -> isMultisigKey (multisigTag kind m n) = true.
Proof.
  unfold multisigKinds. simpl.
  intros [<-|[<-|[<-|[]]]]; reflexivity.
Qed.

(** A multisig tag is read back in full: the entry ["<KIND>:<m>-<n>"] with
    a count [c] weighs the table weight of the kind, and [m] signatures of
    73 and [n] keys of 34 weight units, four times that for legacy P2SH
    multisig, each [c] times. *)
Lemma inputWeight_multisigTag (kind : string) (m n : nat) (c : Z) :
  In kind multisigKinds ->
  inputWeight (multisigTag kind m n, inject_Z c)
  = Num (tableWeight IO_TYPES.inputs kind * c
         + (73 * Z.of_nat m + 34 * Z.of_nat n)
           * (if String.eqb kind "MULTISIG-P2SH" then 4 else 1) * c).
Proof.
  intros Hk. unfold inputWeight.
  rewrite (multisigTag_isMultisigKey kind m n Hk).
  assert (Hc : includes ":" kind = false).
  { unfold multisigKinds in Hk. simpl in Hk.
    destruct Hk as [<-|[<-|[<-|[]]]]; reflexivity. }
  rewrite (split_multisigTag kind m n Hc). cbn [nth].
  rewrite split_append by (apply includes_decimal; reflexivity).
  rewrite split_without by (apply includes_decimal; reflexivity).
  cbn [map operand_at nth_error]. rewrite !parseInt_decimal.
  unfold countValue. rewrite Qfloor_Z. unfold tableWeight.
  unfold multisigKinds in Hk. simpl in Hk.
  destruct Hk as [<-|[<-|[<-|[]]]]; reflexivity.
Qed.

(** One step of the loop over the input keys, on a multisig tag
    ["<KIND>:<m>-<n>"] of a kind of the table, from a state of the loop (a
    weight and a number of inputs that are not negative), within the safe
    integers for the count, the numerals and the weight reached: nothing
    is raised, the weight grows as [inputWeight_multisigTag] says, the
    count is added, and the marker is owed when the kind is a witness
    kind. *)
Theorem inputStep_multisigTag (st : estimate) (kind : string) (m n : nat)
    (c w0 k : Z) :
  In kind multisigKinds ->
  totalWeight st = Num w0 -> 0 <= w0 ->
  inputCount st = inject_Z k -> 0 <= k ->
  0 <= c -> k + c <= MAX_SAFE_INTEGER ->
  Z.of_nat m <= MAX_SAFE_INTEGER -> Z.of_nat n <= MAX_SAFE_INTEGER ->
  w0 + tableWeight IO_TYPES.inputs kind * c
  + (73 * Z.of_nat m + 34 * Z.of_nat n)
    * (if String.eqb kind "MULTISIG-P2SH" then 4 else 1) * c
  <= MAX_SAFE_INTEGER ->
  inputStep st (multisigTag kind m n, inject_Z c) =
    Return {| totalWeight :=
                Num (w0 + (tableWeight IO_TYPES.inputs kind * c
                           + (73 * Z.of_nat m + 34 * Z.of_nat n)
                             * (if String.eqb kind "MULTISIG-P2SH" then 4 else 1)
                             * c));
              hasWitness := hasWitness st || includes "W" kind;
              inputCount := inject_Z k + inject_Z c;
              outputCount := outputCount st |}.
Proof.
  intros Hk Hw Hw0 Hn Hk0 Hc Hkc _ _ _.
  assert (Hcolon : includes ":" kind = false).
  { unfold multisigKinds in Hk. simpl in Hk.
    destruct Hk as [<-|[<-|[<-|[]]]]; reflexivity. }
  rewrite inputStep_ok.
  - rewrite (inputWeight_multisigTag kind m n c Hk). cbn [fst snd].
    rewrite Hw, Hn. cbn [jadd].
    unfold multisigTag. rewrite includes_append. cbn [includes].
    rewrite includes_append. cbn [includes].
    rewrite !includes_decimal by reflexivity.
    rewrite !orb_false_r. reflexivity.
  - unfold inputEntryRaises, badMultisigKey. cbn [fst snd].
    rewrite outOfRange_inject_Z', (split_multisigTag kind m n Hcolon).
    cbn [length Nat.eqb negb]. rewrite andb_false_r, orb_false_r.
    apply orb_false_intro; [apply Z.ltb_ge|apply Z.ltb_ge]; lia.
Qed.

Lemma inputStep_multisigTag_witness :
  In "MULTISIG-P2SH" multisigKinds
  /\ totalWeight initialEstimate = Num 0
  /\ inputCount initialEstimate = inject_Z 0
  /\ 0 + 45 <= MAX_SAFE_INTEGER
  /\ 0 + tableWeight IO_TYPES.inputs "MULTISIG-P2SH" * 45
     + (73 * Z.of_nat 2 + 34 * Z.of_nat 4)
       * (if String.eqb "MULTISIG-P2SH" "MULTISIG-P2SH" then 4 else 1) * 45
     <= MAX_SAFE_INTEGER
  /\ multisigTag "MULTISIG-P2SH" 2 4 = "MULTISIG-P2SH:2-4"
  /\ inputStep initialEstimate ("MULTISIG-P2SH:2-4", inject_Z 45) =
       Return {| totalWeight := Num 59580;
                 hasWitness := false;
                 inputCount := inject_Z 0 + inject_Z 45;
                 outputCount := 0 |}.
Proof.
  assert (H1 : In "MULTISIG-P2SH" multisigKinds) by (left; reflexivity).
  assert (H2 : totalWeight initialEstimate = Num 0) by reflexivity.
  assert (H3 : inputCount initialEstimate = inject_Z 0) by reflexivity.
  assert (H4 : 0 + 45 <= MAX_SAFE_INTEGER) by (vm_compute; discriminate).
  assert (H5 : 0 + tableWeight IO_TYPES.inputs "MULTISIG-P2SH" * 45
               + (73 * Z.of_nat 2 + 34 * Z.of_nat 4)
                 * (if String.eqb "MULTISIG-P2SH" "MULTISIG-P2SH" then 4 else 1) * 45
               <= MAX_SAFE_INTEGER) by (vm_compute; discriminate).
  assert (H6 : Z.of_nat 2 <= MAX_SAFE_INTEGER) by (vm_compute; discriminate).
  assert (H7 : Z.of_nat 4 <= MAX_SAFE_INTEGER) by (vm_compute; discriminate).
  split; [exact H1|]. split; [exact H2|]. split; [exact H3|]. split; [exact H4|].
  split; [exact H5|]. split; [reflexivity|].
  exact (inputStep_multisigTag initialEstimate "MULTISIG-P2SH" 2 4 45 0 0
           H1 H2 (Z.le_refl 0) H3 (Z.le_refl 0) ltac:(lia) H4 H6 H7 H5).
Defined.

(** ** The size of a list of coins *)

Section SizeOfCoinsProperties.
Context `{CM : CoinModule}.

Lemma sumCounts_bumpCount (ty : string) (acc : list (string * Z)) :
  sumCounts (bumpCount ty acc) = sumCounts acc + 1.
Proof.
  induction acc as [|[k n] acc IH]; simpl; [reflexivity|].
  destruct (String.eqb k ty); simpl; [lia|]. rewrite IH. lia.
Qed.

Lemma bumpCount_positive (ty : string) (acc : list (string * Z)) :
  Forall (fun e => 1 <= snd e) acc -> Forall (fun e => 1 <= snd e) (bumpCount ty acc).
Proof.
  induction 1 as [|[k n] acc Hn Hacc IH]; simpl.
  - constructor; [simpl; lia|constructor].
  - simpl in Hn. destruct (String.eqb k ty); constructor; simpl;
      solve [lia | assumption].
Qed.

Lemma existsb_keys_bumpCount (p : string -> bool) (ty : string) (acc : list (string * Z)) :
  existsb (fun e => p (fst e)) (bumpCount ty acc)
  = p ty || existsb (fun e => p (fst e)) acc.
Proof.
  induction acc as [|[k n] acc IH]; simpl; [reflexivity|].
  destruct (String.eqb k ty) eqn:E; simpl.
  - apply String.eqb_eq in E. subst k. destruct (p ty); reflexivity.
  - rewrite IH. destruct (p k), (p ty); reflexivity.
Qed.

Lemma countValue_inject_Z (n : Z) : countValue (inject_Z n) = Num n.
Proof. unfold countValue. rewrite Qfloor_Z. reflexivity. Qed.

Lemma jmul_succ (a : jsnum) (n : Z) :
  (a * Num (n + 1))%js = (a * Num n + a * Num 1)%js.
Proof. destruct a; simpl; [f_equal; ring|reflexivity]. Qed.

Lemma jadd_interchange (p q r s : jsnum) :
  (p + q + (r + s))%js = (p + r + (q + s))%js.
Proof. destruct p, q, r, s; simpl; try reflexivity. f_equal. ring. Qed.

Lemma inputWeight_succ (k : string) (n : Z) :
  inputWeight (k, inject_Z (n + 1))
  = (inputWeight (k, inject_Z n) + inputWeight (k, 1%Q))%js.
Proof.
  change 1%Q with (inject_Z 1). unfold inputWeight.
  rewrite !countValue_inject_Z.
  destruct (isMultisigKey k).
  - rewrite !jmul_succ. apply jadd_interchange.
  - apply jmul_succ.
Qed.

Lemma outputWeight_succ (k : string) (n : Z) :
  outputWeight (k, inject_Z (n + 1))
  = (outputWeight (k, inject_Z n) + outputWeight (k, 1%Q))%js.
Proof.
  change 1%Q with (inject_Z 1). unfold outputWeight. cbn [fst snd].
  rewrite !countValue_inject_Z. apply jmul_succ.
Qed.

Lemma jsum_cons (x : jsnum) (l : list jsnum) : jsum (x :: l) = (x + jsum l)%js.
Proof. reflexivity. Qed.

Lemma jsum_nil : jsum [] = Num 0.
Proof. reflexivity. Qed.

Lemma jsum_weights_bumpCount (weight : string * Q -> jsnum) (ty : string)
    (acc : list (string * Z)) :
  (forall k n, weight (k, inject_Z (n + 1))
               = (weight (k, inject_Z n) + weight (k, 1%Q))%js) ->
  jsum (map weight (toCounts (bumpCount ty acc)))
  = (jsum (map weight (toCounts acc)) + weight (ty, 1%Q))%js.
Proof.
  intros Hw. unfold toCounts in *.
  induction acc as [|[k n] acc IH]; cbn [bumpCount map fst snd].
  - change (inject_Z 1) with 1%Q. rewrite jsum_cons, jsum_nil, jadd_0_r, jadd_0_l.
    reflexivity.
  - destruct (String.eqb k ty) eqn:E; cbn [map fst snd]; rewrite !jsum_cons.
    + apply String.eqb_eq in E. subst k. rewrite Hw.
      rewrite <- !jadd_assoc. f_equal. apply jadd_comm.
    + rewrite IH. apply jadd_assoc.
Qed.

Lemma inject_Z_plus_eq (a b : Z) : (inject_Z a + inject_Z b)%Q = inject_Z (a + b).
Proof. unfold Qplus, inject_Z. simpl. f_equal. lia. Qed.

Lemma totalCount_toCounts (acc : list (string * Z)) (a : Z) :
  totalCount (toCounts acc) (inject_Z a) = inject_Z (a + sumCounts acc).
Proof.
  unfold totalCount, toCounts. revert a.
  induction acc as [|[k n] acc IH]; intros a; simpl.
  - f_equal. lia.
  - rewrite inject_Z_plus_eq, IH. f_equal. lia.
Qed.

Lemma fold_left_countReducer (weight : string * Q -> jsnum) (p : string -> bool)
    (coins : list txio) :
  (forall k n, weight (k, inject_Z (n + 1))
               = (weight (k, inject_Z n) + weight (k, 1%Q))%js) ->
  forall seen acc, collected weight p seen acc ->
    collected weight p (seen ++ coins) (fold_left countReducer coins acc).
Proof.
  intros Hw. induction coins as [|c coins IH]; intros seen acc H; simpl.
  - rewrite app_nil_r. exact H.
  - replace (seen ++ c :: coins) with ((seen ++ [c]) ++ coins)
      by (rewrite <- app_assoc; reflexivity).
    apply IH. destruct H as [H1 H2 H3 H4]. unfold countReducer. split.
    + rewrite sumCounts_bumpCount, H1, length_app. simpl. lia.
    + apply bumpCount_positive, H2.
    + rewrite jsum_weights_bumpCount by exact Hw.
      rewrite H3, map_app, jsum_app. simpl. rewrite jadd_0_r. reflexivity.
    + rewrite existsb_keys_bumpCount, H4, existsb_app. simpl.
      rewrite orb_false_r. apply orb_comm.
Qed.

Lemma countReducer_collected (weight : string * Q -> jsnum) (p : string -> bool)
    (coins : list txio) :
  (forall k n, weight (k, inject_Z (n + 1))
               = (weight (k, inject_Z n) + weight (k, 1%Q))%js) ->
  collected weight p coins (fold_left countReducer coins []).
Proof.
  intros Hw. apply (fold_left_countReducer weight p coins Hw [] []).
  split; simpl; auto.
Qed.

Lemma outOfRange_inject_Z (n : Z) :
  outOfRange (inject_Z n) = (n <? 0) || (MAX_SAFE_INTEGER <? n).
Proof.
  unfold outOfRange, Qlt_bool, Qle_bool, isIntegral, inject_Z.
  cbn [Qnum Qden]. rewrite Z.mod_1_r, !Z.mul_1_r. cbn [Z.eqb negb].
  rewrite orb_false_r, <- !Z.ltb_antisym. reflexivity.
Qed.

Lemma counts_below_sum (acc : list (string * Z)) :
  Forall (fun e => 1 <= snd e) acc ->
  Forall (fun e => 1 <= snd e <= sumCounts acc) acc.
Proof.
  induction 1 as [|[k n] acc Hn Hacc IH]; [constructor|].
  assert (0 <= sumCounts acc).
  { clear IH. induction Hacc as [|[k' n'] acc' Hn' _ IH']; simpl in *; lia. }
  constructor; simpl in *; [lia|].
  eapply List.Forall_impl; [|exact IH]. simpl. intros e He. lia.
Qed.

Lemma existsb_inputEntryRaises_toCounts (acc : list (string * Z)) :
  Forall (fun e => 1 <= snd e <= MAX_SAFE_INTEGER) acc ->
  existsb inputEntryRaises (toCounts acc)
  = existsb (fun e => badMultisigKey (fst e)) acc.
Proof.
  induction 1 as [|[k n] acc Hn _ IH]; [reflexivity|].
  cbn [toCounts map existsb fst snd] in *. fold (toCounts acc). rewrite IH.
  unfold inputEntryRaises at 1. cbn [fst snd]. rewrite outOfRange_inject_Z.
  replace (n <? 0) with false by (symmetry; apply Z.ltb_ge; lia).
  replace (MAX_SAFE_INTEGER <? n) with false by (symmetry; apply Z.ltb_ge; lia).
  reflexivity.
Qed.

Lemma existsb_outputEntryRaises_toCounts (acc : list (string * Z)) :
  Forall (fun e => 1 <= snd e <= MAX_SAFE_INTEGER) acc ->
  existsb outputEntryRaises (toCounts acc) = false.
Proof.
  induction 1 as [|[k n] acc Hn _ IH]; [reflexivity|].
  cbn [toCounts map existsb fst snd] in *. fold (toCounts acc). rewrite IH.
  unfold outputEntryRaises. cbn [fst snd]. rewrite outOfRange_inject_Z.
  replace (n <? 0) with false by (symmetry; apply Z.ltb_ge; lia).
  replace (MAX_SAFE_INTEGER <? n) with false by (symmetry; apply Z.ltb_ge; lia).
  reflexivity.
Qed.

(** *** The reducer and its counts *)

Lemma bump_asTallies (ty : string) (acc : list (string * Z)) :
  inheritedMethod ty = false ->
  bump ty (asTallies acc) = asTallies (bumpCount ty acc).
Proof.
  intros Hty. unfold asTallies. induction acc as [|[k n] acc IH];
    cbn [map bump bumpCount fst snd].
  - rewrite Hty. reflexivity.
  - destruct (String.eqb k ty); cbn [map fst snd increment]; [reflexivity|].
    rewrite IH. reflexivity.
Qed.

Lemma fold_left_coinTypeReducer_counted (coins : list txio) :
  existsb inheritedType coins = false ->
  forall acc,
    fold_left coinTypeReducer coins (asTallies acc)
    = asTallies (fold_left countReducer (counted coins) acc).
Proof.
  induction coins as [|c coins IH]; intros H acc; [reflexivity|].
  cbn [existsb] in H. apply orb_false_elim in H as [Hc H].
  cbn [fold_left counted List.filter]. fold (counted coins).
  unfold coinTypeReducer at 2. cbn zeta.
  destruct (String.eqb (typeOf c) "__proto__"); cbn [negb fold_left].
  - apply IH, H.
  - rewrite bump_asTallies by exact Hc. apply IH, H.
Qed.

Lemma countOf_asTallies (acc : list (string * Z)) :
  map (fun e => (fst e, countOf (snd e))) (asTallies acc) = toCounts acc.
Proof.
  unfold asTallies, toCounts. rewrite map_map. reflexivity.
Qed.

(** Without a type that names an inherited method, the collection is that
    of the coins counted, every count a number. *)
Lemma typeCollection_counted (coins : list txio) :
  existsb inheritedType coins = false ->
  typeCollection coins = toCounts (fold_left countReducer (counted coins) []).
Proof.
  intros H. unfold typeCollection.
  pose proof (fold_left_coinTypeReducer_counted coins H []) as E.
  change (asTallies []) with (@nil (string * tally)) in E. rewrite E.
  apply countOf_asTallies.
Qed.

Lemma bump_notCounted (ty : string) (acc : list (string * tally)) :
  notCounted acc = true -> notCounted (bump ty acc) = true.
Proof.
  unfold notCounted. induction acc as [|[k t] acc IH]; cbn [existsb bump snd];
    [discriminate|].
  intros H. destruct (String.eqb k ty); cbn [existsb snd].
  - destruct t; cbn [increment] in *; exact H.
  - apply orb_true_iff in H as [H|H]; [rewrite H; reflexivity|].
    rewrite (IH H). apply orb_true_r.
Qed.

Lemma bump_inheritedNotCounted (ty : string) (acc : list (string * tally)) :
  inheritedNotCounted acc -> inheritedNotCounted (bump ty acc).
Proof.
  unfold inheritedNotCounted. induction 1 as [|[k t] acc Hk Hacc IH]; cbn [bump].
  - constructor; [|constructor]. cbn [fst snd]. intros ->. reflexivity.
  - cbn [fst snd] in Hk. destruct (String.eqb k ty); constructor;
      try assumption; cbn [fst snd].
    intros Hi. rewrite (Hk Hi). reflexivity.
Qed.

Lemma bump_inherited (ty : string) (acc : list (string * tally)) :
  inheritedMethod ty = true -> inheritedNotCounted acc ->
  notCounted (bump ty acc) = true.
Proof.
  intros Hty. unfold inheritedNotCounted, notCounted.
  induction 1 as [|[k t] acc Hk _ IH]; cbn [bump existsb snd].
  - rewrite Hty. reflexivity.
  - cbn [fst snd] in Hk. destruct (String.eqb k ty) eqn:E; cbn [existsb snd].
    + apply String.eqb_eq in E. subst k. rewrite (Hk Hty). reflexivity.
    + rewrite IH. apply orb_true_r.
Qed.

Lemma fold_left_coinTypeReducer_inherited (coins : list txio) :
  forall acc,
    inheritedNotCounted acc ->
    notCounted acc = true \/ existsb inheritedType coins = true ->
    notCounted (fold_left coinTypeReducer coins acc) = true.
Proof.
  induction coins as [|c coins IH]; intros acc J H; cbn [fold_left existsb] in *.
  - destruct H as [H|H]; [exact H|discriminate].
  - unfold coinTypeReducer at 2. cbn zeta.
    destruct (String.eqb (typeOf c) "__proto__") eqn:Ep.
    + apply IH; [exact J|]. destruct H as [H|H]; [left; exact H|].
      apply String.eqb_eq in Ep. unfold inheritedType at 1 in H. rewrite Ep in H.
      right. exact H.
    + apply IH; [apply bump_inheritedNotCounted, J|].
      destruct H as [H|H]; [left; apply bump_notCounted, H|].
      apply orb_true_iff in H as [H|H]; [|right; exact H].
      left. apply bump_inherited; assumption.
Qed.

(** A type that names an inherited method leaves a count that
    [checkUInt53] refuses. *)
Lemma typeCollection_inherited (coins : list txio) :
  existsb inheritedType coins = true ->
  existsb (fun e => outOfRange (snd e)) (typeCollection coins) = true.
Proof.
  intros H. unfold typeCollection.
  pose proof (fold_left_coinTypeReducer_inherited coins []
                (List.Forall_nil _) (or_intror H)) as N.
  revert N. generalize (fold_left coinTypeReducer coins []). intros acc.
  unfold notCounted. induction acc as [|[k t] acc IH]; cbn [existsb map fst snd];
    [discriminate|].
  intros N. apply orb_true_iff in N as [N|N].
  - destruct t; [discriminate|]. reflexivity.
  - rewrite (IH N). apply orb_true_r.
Qed.

Lemma existsb_counted (p : string -> bool) (coins : list txio) :
  p "__proto__" = false ->
  existsb (fun c => p (typeOf c)) (counted coins)
  = existsb (fun c => p (typeOf c)) coins.
Proof.
  intros Hp. induction coins as [|c coins IH]; [reflexivity|].
  cbn [counted List.filter existsb]. fold (counted coins).
  destruct (String.eqb (typeOf c) "__proto__") eqn:E; cbn [negb existsb].
  - apply String.eqb_eq in E. rewrite E, Hp. exact IH.
  - rewrite IH. reflexivity.
Qed.

Lemma counted_Permutation (l k : list txio) :
  Permutation l k -> Permutation (counted l) (counted k).
Proof.
  unfold counted.
  induction 1 as [|x l k _ IH|x y l|l k m _ IH1 _ IH2]; cbn [List.filter].
  - constructor.
  - destruct (negb _); [constructor|]; exact IH.
  - destruct (negb (String.eqb (typeOf x) _)), (negb (String.eqb (typeOf y) _));
      try reflexivity. constructor.
  - etransitivity; eassumption.
Qed.

Lemma totalCount_typeCollection (coins : list txio) :
  existsb inheritedType coins = false ->
  totalCount (typeCollection coins) 0
  = inject_Z (Z.of_nat (length (counted coins))).
Proof.
  intros H. rewrite (typeCollection_counted coins H).
  destruct (countReducer_collected inputWeight (fun _ => false) (counted coins)
              inputWeight_succ) as [H1 _ _ _].
  change 0%Q with (inject_Z 0).
  rewrite totalCount_toCounts, H1. reflexivity.
Qed.

Lemma counts_in_range (coins : list txio) :
  Z.of_nat (length coins) <= MAX_SAFE_INTEGER ->
  Forall (fun e => 1 <= snd e <= MAX_SAFE_INTEGER)
    (fold_left countReducer coins []).
Proof.
  intros Hlen.
  destruct (countReducer_collected inputWeight (fun _ => false) coins
              inputWeight_succ) as [H1 H2 _ _].
  apply counts_below_sum in H2. rewrite H1 in H2.
  eapply List.Forall_impl; [|exact H2]. simpl. intros e He. lia.
Qed.

Lemma existsb_inputEntryRaises_outOfRange (entries : typeCounts) :
  existsb (fun e => outOfRange (snd e)) entries = true ->
  existsb inputEntryRaises entries = true.
Proof.
  induction entries as [|e entries IH]; cbn [existsb]; [trivial|].
  intros H. apply orb_true_iff in H as [H|H].
  - unfold inputEntryRaises. rewrite H. reflexivity.
  - rewrite (IH H). apply orb_true_r.
Qed.

Lemma raises_typeCollection (ins outs : list txio) :
  raises (typeCollection ins) (typeCollection outs) = transactionRaises ins outs.
Proof.
  unfold raises, transactionRaises.
  destruct (existsb inheritedType ins) eqn:Ii.
  { rewrite (existsb_inputEntryRaises_outOfRange _ (typeCollection_inherited _ Ii)).
    reflexivity. }
  destruct (existsb inheritedType outs) eqn:Io.
  { unfold outputEntryRaises. rewrite (typeCollection_inherited _ Io).
    rewrite orb_true_r. reflexivity. }
  cbn [orb]. rewrite !totalCount_typeCollection by assumption.
  rewrite !outOfRange_inject_Z.
  replace (Z.of_nat (length (counted ins)) <? 0) with false
    by (symmetry; apply Z.ltb_ge; lia).
  replace (Z.of_nat (length (counted outs)) <? 0) with false
    by (symmetry; apply Z.ltb_ge; lia).
  cbn [orb].
  destruct (MAX_SAFE_INTEGER <? Z.of_nat (length (counted ins))) eqn:Ei.
  { rewrite !orb_true_r. reflexivity. }
  destruct (MAX_SAFE_INTEGER <? Z.of_nat (length (counted outs))) eqn:Eo.
  { rewrite !orb_true_r. reflexivity. }
  apply Z.ltb_ge in Ei, Eo. rewrite !orb_false_r.
  rewrite !typeCollection_counted by assumption.
  rewrite existsb_inputEntryRaises_toCounts by (apply counts_in_range, Ei).
  rewrite existsb_outputEntryRaises_toCounts by (apply counts_in_range, Eo).
  rewrite orb_false_r.
  rewrite (collected_keys _ _ _ _
             (countReducer_collected inputWeight badMultisigKey (counted ins)
                inputWeight_succ)).
  apply existsb_counted. reflexivity.
Qed.

Lemma hasMarker_typeCollection (coins : list txio) :
  existsb inheritedType coins = false ->
  hasMarker (typeCollection coins)
  = existsb (fun c => includes "W" (typeOf c)) coins.
Proof.
  intros H. rewrite (typeCollection_counted coins H).
  rewrite <- (existsb_counted (includes "W") coins eq_refl).
  unfold hasMarker.
  rewrite <- (collected_keys _ _ _ _
                (countReducer_collected inputWeight (includes "W") (counted coins)
                   inputWeight_succ)).
  generalize (fold_left countReducer (counted coins) []). intros acc.
  induction acc as [|[k n] acc IH]; simpl; [reflexivity|]. rewrite IH. reflexivity.
Qed.

Lemma weight_typeCollection (ins outs : list txio) :
  existsb inheritedType ins = false ->
  existsb inheritedType outs = false ->
  (if hasMarker (typeCollection ins)
   then (weightWithoutMarker (typeCollection ins) (typeCollection outs) + Num 2)%js
   else weightWithoutMarker (typeCollection ins) (typeCollection outs))
  = transactionWeight ins outs.
Proof.
  intros Hi Ho. unfold transactionWeight, weightWithoutMarker. cbn zeta.
  rewrite hasMarker_typeCollection, !totalCount_typeCollection by assumption.
  rewrite !typeCollection_counted by assumption.
  rewrite (collected_weight _ _ _ _
             (countReducer_collected inputWeight (fun _ => false) (counted ins)
                inputWeight_succ)).
  rewrite (collected_weight _ _ _ _
             (countReducer_collected outputWeight (fun _ => false) (counted outs)
                outputWeight_succ)).
  reflexivity.
Qed.

Lemma transactionRaises_not_inherited (ins outs : list txio) :
  transactionRaises ins outs = false ->
  existsb inheritedType ins = false /\ existsb inheritedType outs = false.
Proof.
  unfold transactionRaises. intros H.
  destruct (existsb inheritedType ins); [discriminate|].
  destruct (existsb inheritedType outs); [discriminate|]. split; reflexivity.
Qed.

Lemma transactionBytes_weighs_coins (ins outs : list txio) :
  (throws (transactionBytes ins outs) <-> transactionRaises ins outs = true)
  /\ (transactionRaises ins outs = false ->
      transactionBytes ins outs = Return (ceil_div4 (transactionWeight ins outs))).
Proof.
  unfold transactionBytes. split.
  - rewrite getByteCount_throws_iff, raises_typeCollection. reflexivity.
  - intros R. unfold getByteCount.
    rewrite getWeight_ok by (rewrite raises_typeCollection; exact R).
    destruct (transactionRaises_not_inherited _ _ R) as [Hi Ho].
    cbn [bind]. rewrite weight_typeCollection by assumption. reflexivity.
Qed.

(** [transactionBytes] weighs a transaction coin by coin. It raises exactly
    when the type of a coin names a method every object inherits (the
    reducer then counts a string), when an input coin has a
    multisig-prefixed script type that does not split in two at its colons,
    or when a list is longer than the largest safe integer. Otherwise it
    returns the quarter, rounded up, of the sum of the weights of single
    entries of the script types of the coins, the marker overhead owed to
    the inputs and the fixed parts, with the numbers of coins as counts;
    a coin of type [__proto__] is not counted. *)
Theorem transactionBytes_per_coin (ins outs : list txio) :
  (throws (transactionBytes ins outs) <-> transactionRaises ins outs = true)
  /\ (transactionRaises ins outs = false ->
      transactionBytes ins outs = Return (ceil_div4 (transactionWeight ins outs))).
Proof. apply transactionBytes_weighs_coins. Qed.

Lemma transactionRaises_Permutation (ins ins' outs outs' : list txio) :
  Permutation ins ins' -> Permutation outs outs' ->
  transactionRaises ins outs = transactionRaises ins' outs'.
Proof.
  intros Hi Ho. unfold transactionRaises.
  rewrite (existsb_Permutation inheritedType _ _ Hi),
    (existsb_Permutation inheritedType _ _ Ho),
    (existsb_Permutation (fun c => badMultisigKey (typeOf c)) _ _ Hi),
    (Permutation_length (counted_Permutation _ _ Hi)),
    (Permutation_length (counted_Permutation _ _ Ho)). reflexivity.
Qed.

Lemma transactionWeight_Permutation (ins ins' outs outs' : list txio) :
  Permutation ins ins' -> Permutation outs outs' ->
  transactionWeight ins outs = transactionWeight ins' outs'.
Proof.
  intros Hi Ho. unfold transactionWeight. cbn zeta.
  rewrite (existsb_Permutation _ _ _ Hi),
    (Permutation_length (counted_Permutation _ _ Hi)),
    (Permutation_length (counted_Permutation _ _ Ho)).
  rewrite (jsum_Permutation _ _
             (Permutation_map (fun c => inputWeight (typeOf c, 1%Q))
                (counted_Permutation _ _ Hi))).
  rewrite (jsum_Permutation _ _
             (Permutation_map (fun c => outputWeight (typeOf c, 1%Q))
                (counted_Permutation _ _ Ho))).
  reflexivity.
Qed.

(** The size of a transaction does not depend on the order of its inputs
    or of its outputs: reordered, [transactionBytes] raises when it raised
    and returns what it returned. *)
Theorem transactionBytes_order_independent (ins ins' outs outs' : list txio) :
  Permutation ins ins' -> Permutation outs outs' ->
  (throws (transactionBytes ins outs) <-> throws (transactionBytes ins' outs'))
  /\ (forall r, transactionBytes ins outs = Return r ->
                transactionBytes ins' outs' = Return r).
Proof.
  intros Hi Ho.
  destruct (transactionBytes_weighs_coins ins outs) as [T1 W1].
  destruct (transactionBytes_weighs_coins ins' outs') as [T2 W2].
  pose proof (transactionRaises_Permutation _ _ _ _ Hi Ho) as R.
  split.
  - rewrite T1, T2, R. reflexivity.
  - intros r H. destruct (transactionRaises ins outs) eqn:E.
    + destruct (proj2 T1 eq_refl) as [e He]. congruence.
    + rewrite W1 in H by reflexivity. rewrite W2 by (symmetry; exact R).
      rewrite <- (transactionWeight_Permutation _ _ _ _ Hi Ho). exact H.
Qed.

End SizeOfCoinsProperties.

(** ** The target-matching core, further *)

Section CoreFurther.
Context `{CM : CoinModule} `{LB : Libraries}.

Lemma isEffective_numeric (f : Z) (c : Coin) :
  isEffective f c = true ->
  exists v, value c = Num v /\ 0 < v - inputBytes (ACoin c) * f.
Proof.
  unfold isEffective, effectiveValue, jgt. destruct (value c) as [v|]; simpl;
    [|discriminate].
  intros H. apply Z.ltb_lt in H. eauto.
Qed.

Lemma effective_sum (f : Z) (l : list Coin) :
  Forall (fun c => isEffective f c = true) l ->
  exists total e,
    sumValues l = Num total
    /\ jsum (map (effectiveValue f) l) = Num e
    /\ e = total - inputFees f l
    /\ 0 <= e
    /\ (l <> [] -> 0 < e).
Proof.
  induction 1 as [|c l Hc _ IH].
  - exists 0, 0. repeat split; simpl; try lia. congruence.
  - destruct IH as (total & e & Ht & He & Hrel & Hpos & _).
    destruct (isEffective_numeric f c Hc) as (v & Hv & Hgt).
    exists (v + total), (v - inputBytes (ACoin c) * f + e).
    rewrite sumValues_jsum in *. cbn [map jsum fold_right inputFees].
    fold (jsum (map value l)). fold (jsum (map (effectiveValue f) l)).
    fold (inputFees f l).
    rewrite Ht, He. unfold effectiveValue. rewrite Hv. simpl.
    repeat split; try lia.
Qed.

Lemma ft_inputs_prefix (targets : list Coin) (f : Z) (coins : list Coin)
    (changeAddress : string) (s : Selection) :
  findTarget targets f coins changeAddress = Return s ->
  inputs s `prefix_of` List.filter (isEffective f) coins
  /\ inputs s `sublist_of` coins
  /\ Forall (fun c => isEffective f c = true) (inputs s).
Proof.
  unfold findTarget. intros H.
  destruct (ft_inv _ _ _ _ _ H) as (bytes & drawn & _ & Hp & R).
  assert (Hin : inputs s `prefix_of` List.filter (isEffective f) coins).
  { destruct R; cbn [inputs]; try assumption; apply prefix_nil. }
  split; [exact Hin|]. split.
  - transitivity (List.filter (isEffective f) coins); [|apply filter_sublist].
    destruct Hin as [k ->]. apply sublist_inserts_r. reflexivity.
  - destruct Hin as [k Hk]. pose proof (filter_Forall (isEffective f) coins) as F.
    rewrite Hk in F. apply Forall_app in F. tauto.
Qed.

(** The inputs of a result of the core are a prefix of the coins of
    positive effective value, in the order they were given: no other coin
    is spent, none is spent twice, and none is skipped. *)
Theorem findTarget_inputs_prefix (targets : list Coin) (f : Z) (coins : list Coin)
    (changeAddress : string) (s : Selection) :
  findTarget targets f coins changeAddress = Return s ->
  inputs s `prefix_of` List.filter (isEffective f) coins
  /\ inputs s `sublist_of` coins
  /\ Forall (fun c => isEffective f c = true) (inputs s).
Proof. apply ft_inputs_prefix. Qed.

Lemma jgt_Num (x y : Z) : jgt (Num x) (Num y) = (y <? x).
Proof. reflexivity. Qed.

Lemma unfold_findTarget_reach (t f : Z) (L : list Coin) :
  Forall (fun c => isEffective f c = true) L ->
  (forall c, In c L -> 0 <= inputBytes (ACoin c) * f) ->
  forall a p,
    (t + p < a -> unfold_findTarget (Num t) f (Num a) (Num p) L = [])
    /\ (a <= t + p -> L <> [] ->
        forall e, jsum (map (effectiveValue f) L) = Num e ->
        exists a' p' c',
          last (unfold_findTarget (Num t) f (Num a) (Num p) L)
          = Some (Num a', Num p', c')
          /\ (t <= a' - p' <-> t <= a - p + e)).
Proof.
  induction 1 as [|c L Hc HL IH]; intros Hfee a p.
  - split; [reflexivity|congruence].
  - destruct (isEffective_numeric f c Hc) as (v & Hv & Hgt).
    assert (Hd : 0 <= inputBytes (ACoin c) * f) by (apply Hfee; left; reflexivity).
    assert (HfeeL : forall c', In c' L -> 0 <= inputBytes (ACoin c') * f)
      by (intros c' Hc'; apply Hfee; right; exact Hc').
    specialize (IH HfeeL).
    cbn [unfold_findTarget]. rewrite Hv. cbn [jadd]. rewrite !jgt_Num.
    split.
    + intros Hlt. replace (t + p <? a) with true
        by (symmetry; apply Z.ltb_lt; lia). reflexivity.
    + intros Hle _ e He.
      replace (t + p <? a) with false by (symmetry; apply Z.ltb_ge; lia).
      replace (t + (p + inputBytes (ACoin c) * f) <? a) with false
        by (symmetry; apply Z.ltb_ge; lia).
      cbn [map jsum fold_right] in He. fold (jsum (map (effectiveValue f) L)) in He.
      apply jadd_Num_inv in He as (e1 & e' & He1 & He' & ->).
      unfold effectiveValue in He1. rewrite Hv in He1. injection He1 as <-.
      destruct (effective_sum f L HL) as (total & e2 & _ & He2 & _ & Hpos & _).
      rewrite He' in He2. injection He2 as <-.
      rewrite last_cons.
      destruct (IH (a + v) (p + inputBytes (ACoin c) * f)) as [IH1 IH2].
      destruct (Z_lt_le_dec (t + (p + inputBytes (ACoin c) * f)) (a + v)) as [Hover|Hunder].
      * rewrite (IH1 Hover). cbn [last]. eexists _, _, _. split; [reflexivity|]. lia.
      * destruct L as [|c2 L2].
        -- cbn [unfold_findTarget last]. simpl in He'. injection He' as <-.
           eexists _, _, _. split; [reflexivity|]. lia.
        -- destruct (IH2 Hunder ltac:(congruence) e' He') as (a' & p' & c' & Hl & Hiff).
           rewrite Hl. eexists _, _, _. split; [reflexivity|]. rewrite Hiff. lia.
Qed.

Lemma ft_succeeds_iff (targets : list Coin) (f : Z) (coins : list Coin)
    (changeAddress : string) (b t : Z) :
  transactionBytes [] (map ACoin targets) = Return (Num b) ->
  sumValues targets = Num t ->
  0 <= t + b * f ->
  (forall c, In c coins -> 0 <= inputBytes (ACoin c) * f) ->
  exists s e,
    findTarget targets f coins changeAddress = Return s
    /\ jsum (map (effectiveValue f) (List.filter (isEffective f) coins)) = Num e
    /\ (inputs s <> [] <->
        List.filter (isEffective f) coins <> [] /\ t + b * f <= e).
Proof.
  intros Hb Ht Hpos Hfee. unfold findTarget, ft. rewrite Hb, Ht. cbn [bind jmul].
  pose proof (filter_Forall (isEffective f) coins) as HF.
  assert (HfeeF : forall c, In c (List.filter (isEffective f) coins) ->
                            0 <= inputBytes (ACoin c) * f).
  { intros c Hc. apply Hfee. apply filter_In in Hc. tauto. }
  destruct (effective_sum f _ HF) as (total & e & _ & He & _ & _ & _).
  destruct (List.filter (isEffective f) coins) as [|c0 L] eqn:EL.
  - cbn [unfold_findTarget last]. eexists _, e. split; [reflexivity|].
    split; [exact He|]. cbn [inputs]. tauto.
  - destruct (unfold_findTarget_reach t f (c0 :: L) HF HfeeF 0 (b * f)) as [_ H2].
    destruct (H2 ltac:(lia) ltac:(congruence) e He) as (a' & p' & c' & Hl & Hiff).
    rewrite Hl. cbn [jadd jlt].
    assert (Hne : map (fun e0 : jsnum * jsnum * Coin => snd e0)
                    (unfold_findTarget (Num t) f (Num 0) (Num (b * f)) (c0 :: L)) <> []).
    { intros E. apply map_eq_nil in E. rewrite E in Hl. discriminate. }
    destruct (a' <? t + p') eqn:Hlt.
    + eexists _, e. split; [reflexivity|]. split; [exact He|]. cbn [inputs].
      apply Z.ltb_lt in Hlt. split; [congruence|]. intros [_ H]. lia.
    + apply Z.ltb_ge in Hlt.
      destruct (jge _ _); eexists _, e; (split; [reflexivity|]);
        (split; [exact He|]); cbn [inputs];
        (split; [intros _; split; [congruence|lia]|intros _; exact Hne]).
Qed.

(** Whether the core finds a selection is decided by the effective values
    alone: with a size estimate and a target total that are numbers, a
    target and base fee that are not negative together, and input fees that
    are not negative, it returns inputs exactly when there are coins of
    positive effective value and their effective values sum to at least
    the target plus the fee of the bare transaction. *)
Theorem findTarget_succeeds_iff (targets : list Coin) (f : Z) (coins : list Coin)
    (changeAddress : string) (b t : Z) :
  transactionBytes [] (map ACoin targets) = Return (Num b) ->
  sumValues targets = Num t ->
  0 <= t + b * f ->
  (forall c, In c coins -> 0 <= inputBytes (ACoin c) * f) ->
  exists s e,
    findTarget targets f coins changeAddress = Return s
    /\ jsum (map (effectiveValue f) (List.filter (isEffective f) coins)) = Num e
    /\ (inputs s <> [] <->
        List.filter (isEffective f) coins <> [] /\ t + b * f <= e).
Proof. apply ft_succeeds_iff. Qed.

Lemma ft_success_Permutation (targets : list Coin) (f : Z)
    (coins coins' : list Coin) (changeAddress : string) (b t : Z) (s s' : Selection) :
  transactionBytes [] (map ACoin targets) = Return (Num b) ->
  sumValues targets = Num t ->
  0 <= t + b * f ->
  (forall c, In c coins -> 0 <= inputBytes (ACoin c) * f) ->
  Permutation coins coins' ->
  findTarget targets f coins changeAddress = Return s ->
  findTarget targets f coins' changeAddress = Return s' ->
  (inputs s <> [] <-> inputs s' <> []).
Proof.
  intros Hb Ht Hpos Hfee Hperm Hs Hs'.
  assert (Hfee' : forall c, In c coins' -> 0 <= inputBytes (ACoin c) * f).
  { intros c Hc. apply Hfee. eapply Permutation_in; [symmetry; exact Hperm|exact Hc]. }
  destruct (ft_succeeds_iff targets f coins changeAddress b t Hb Ht Hpos Hfee)
    as (s1 & e & E1 & He & Hiff).
  destruct (ft_succeeds_iff targets f coins' changeAddress b t Hb Ht Hpos Hfee')
    as (s2 & e' & E2 & He' & Hiff').
  rewrite Hs in E1. injection E1 as <-. rewrite Hs' in E2. injection E2 as <-.
  pose proof (filter_Permutation (isEffective f) _ _ Hperm) as HP.
  rewrite (jsum_Permutation _ _ (Permutation_map (effectiveValue f) HP)) in He.
  rewrite He in He'. injection He' as <-.
  rewrite Hiff, Hiff'.
  assert (Hnil : List.filter (isEffective f) coins <> []
                 <-> List.filter (isEffective f) coins' <> []).
  { split; intros H E; apply H.
    - rewrite E in HP. apply Permutation_nil_r in HP. exact HP.
    - rewrite E in HP. apply Permutation_nil in HP. exact HP. }
  tauto.
Qed.

(** The order of the coins decides which coins are spent, not whether the
    target can be met: under the conditions of [ft_succeeds_iff],
    the core returns inputs for a list of coins exactly when it does for
    any reordering of it. *)
Theorem findTarget_success_order_independent (targets : list Coin) (f : Z)
    (coins coins' : list Coin) (changeAddress : string) (b t : Z) (s s' : Selection) :
  transactionBytes [] (map ACoin targets) = Return (Num b) ->
  sumValues targets = Num t ->
  0 <= t + b * f ->
  (forall c, In c coins -> 0 <= inputBytes (ACoin c) * f) ->
  Permutation coins coins' ->
  findTarget targets f coins changeAddress = Return s ->
  findTarget targets f coins' changeAddress = Return s' ->
  (inputs s <> [] <-> inputs s' <> []).
Proof. apply ft_success_Permutation. Qed.

(** Sorting largest first or smallest first gives the same verdict. *)
Theorem descentDraw_ascentDraw_agree (targets : list Coin) (f : Z)
    (coins : list Coin) (changeAddress : string) (b t : Z) (sd sa : Selection) :
  transactionBytes [] (map ACoin targets) = Return (Num b) ->
  sumValues targets = Num t ->
  0 <= t + b * f ->
  (forall c, In c coins -> 0 <= inputBytes (ACoin c) * f) ->
  descentDraw targets f coins changeAddress = Return sd ->
  ascentDraw targets f coins changeAddress = Return sa ->
  (inputs sd <> [] <-> inputs sa <> []).
Proof.
  unfold descentDraw, ascentDraw. intros Hb Ht Hpos Hfee Hd Ha.
  set (down := sort (fun a b0 => CoinOps.lte a b0) coins) in *.
  set (up := sort (fun a b0 => CoinOps.lte b0 a) coins) in *.
  assert (P1 : Permutation down coins) by apply sort_permutation.
  assert (P2 : Permutation up coins) by apply sort_permutation.
  apply (ft_success_Permutation targets f down up changeAddress b t
           sd sa Hb Ht Hpos); try assumption.
  - intros c Hc. apply Hfee. eapply Permutation_in; [exact P1|exact Hc].
  - etransitivity; [exact P1|symmetry; exact P2].
Qed.

Lemma prefix_Forall (P : Coin -> Prop) (l k : list Coin) :
  l `prefix_of` k -> Forall P k -> Forall P l.
Proof. intros [m ->] H. apply Forall_app in H. tauto. Qed.

Lemma ft_numeric (targets : list Coin) (f : Z) (coins : list Coin)
    (changeAddress : string) (b t : Z) :
  transactionBytes [] (map ACoin targets) = Return (Num b) ->
  sumValues targets = Num t ->
  exists s z,
    findTarget targets f coins changeAddress = Return s
    /\ fee s = Num z
    /\ (inputs s <> [] -> balanced s).
Proof.
  intros Hb Ht. unfold findTarget.
  destruct (ft_returns targets f coins changeAddress _ Hb) as [s Hs].
  destruct (ft_inv _ _ _ _ _ Hs) as (bytes & drawn & Hb' & Hp & R).
  rewrite Hb in Hb'. injection Hb' as <-.
  destruct (effective_sum f drawn
              (prefix_Forall _ _ _ Hp (filter_Forall (isEffective f) coins)))
    as (total & e & Hd & _).
  assert (Hz : exists z, fee s = Num z).
  { destruct R as [Hd0|Hd0 fee1 Hlt|Hd0 fee1 extra feeChange Hlt Hge
                  |Hd0 fee1 extra feeChange Hlt Hge]; cbn [fee].
    - eauto.
    - subst fee1. cbn [jmul jadd]. eauto.
    - subst feeChange fee1. cbn [jmul jadd]. eauto.
    - subst extra fee1. rewrite Hd, Ht. cbn [jmul jadd jsub]. eauto. }
  destruct Hz as [z Hz]. exists s, z. split; [exact Hs|]. split; [exact Hz|].
  intros Hne. eapply ft_balanced; eauto.
Qed.

(** With a size estimate and a target total that are numbers the core
    returns, its fee is a number, and a result with inputs is balanced. *)
Theorem findTarget_numeric (targets : list Coin) (f : Z) (coins : list Coin)
    (changeAddress : string) (b t : Z) :
  transactionBytes [] (map ACoin targets) = Return (Num b) ->
  sumValues targets = Num t ->
  exists s z,
    findTarget targets f coins changeAddress = Return s
    /\ fee s = Num z
    /\ (inputs s <> [] -> balanced s).
Proof. apply ft_numeric. Qed.





(** With a size estimate and a target total that are numbers, the fee
    of a result with inputs and without a change output is a number that
    exceeds the fee of the size estimate and of the inputs by less than
    the dust threshold plus the fee of a change output, and is never
    below it. *)
Theorem findTarget_burn_bounded (targets : list Coin) (f : Z) (coins : list Coin)
    (changeAddress : string) (s : Selection) (b t : Z) :
  transactionBytes [] (map ACoin targets) = Return (Num b) ->
  sumValues targets = Num t ->
  findTarget targets f coins changeAddress = Return s ->
  inputs s <> [] ->
  outputs s = targets ->
  exists z,
    fee s = Num z
    /\ b * f + inputFees f (inputs s) <= z
       < b * f + inputFees f (inputs s) + dustThreshold f + changeBytes * f.
Proof.
  intros Hb Ht H Hne Hout.
  destruct (ft_numeric targets f coins changeAddress b t Hb Ht)
    as (s' & z & Hs' & Hz & _).
  rewrite H in Hs'. injection Hs' as <-. exists z. split; [exact Hz|].
  unfold findTarget in H.
  destruct (ft_inv _ _ _ _ _ H) as (bytes & drawn & Hb' & _ & R).
  rewrite Hb in Hb'. injection Hb' as <-.
  destruct R as [Hd|Hd fee1 Hlt|Hd fee1 extra feeChange Hlt Hge
                |Hd fee1 extra feeChange Hlt Hge];
    cbn [inputs outputs fee] in *; try congruence.
  - exfalso. apply (f_equal (@length Coin)) in Hout.
    rewrite length_app in Hout. simpl in Hout. lia.
  - subst fee1 extra feeChange. rewrite Ht in *.
    destruct (sumValues drawn) as [a|]; try discriminate.
    cbn [jmul jadd jsub jlt jge] in *. injection Hz as <-.
    apply Z.ltb_ge in Hlt. apply Z.leb_gt in Hge. lia.
Qed.

End CoreFurther.

(** ** [effectiveBalance], [selectAll] and the strategies *)

Section StrategiesFurther.
Context `{CM : CoinModule} `{LB : Libraries}.

(** The effective balance is never negative: it is the value of the inputs
    less the fee of the estimated size, or 0 when that fee is larger. *)
Theorem effectiveBalance_clamped (f : Z) (ins : list Coin) (outs : list txio) (v : Z) :
  effectiveBalance f ins outs = Return (Num v) ->
  0 <= v
  /\ exists b total,
       transactionBytes (map ACoin ins) outs = Return (Num b)
       /\ sumValues ins = Num total
       /\ v = Z.max 0 (total - b * f).
Proof.
  unfold effectiveBalance.
  destruct (transactionBytes (map ACoin ins) outs) as [bytes|e]; [|discriminate].
  cbn [bind CoinOps.overValue value]. fold (sumValues ins). intros H.
  destruct bytes as [b|], (sumValues ins) as [total|]; simpl in H;
    try discriminate H.
  unfold clamp0, jlt in H. revert H.
  destruct (total - b * f <? 0) eqn:E; intros H; injection H as H; subst v.
  - apply Z.ltb_lt in E. split; [lia|]. exists b, total. repeat split. lia.
  - apply Z.ltb_ge in E. split; [lia|]. exists b, total. repeat split. lia.
Qed.

Lemma selectAll_value (f : Z) (coins : list Coin) (outAddress : string) (b : Z) :
  transactionBytes (map ACoin (List.filter (isEffective f) coins)) [EmptyObject]
  = Return (Num b) ->
  exists total,
    sumValues (List.filter (isEffective f) coins) = Num total
    /\ selectAll f coins outAddress =
         Return {| fee := Num (Z.min total (b * f));
                   inputs := List.filter (isEffective f) coins;
                   outputs := [{| value := Num (Z.max 0 (total - b * f));
                                  address := outAddress;
                                  change := false |}] |}.
Proof.
  intros Hb.
  destruct (effective_sum f _ (filter_Forall (isEffective f) coins))
    as (total & e & Ht & _).
  exists total. split; [exact Ht|].
  unfold selectAll, effectiveBalance. rewrite Hb.
  cbn [bind CoinOps.overValue CoinOps.fromJS value].
  fold (sumValues (List.filter (isEffective f) coins)). rewrite Ht.
  cbn [jmul jsub]. unfold clamp0, jlt.
  destruct (total - b * f <? 0) eqn:E.
  - apply Z.ltb_lt in E. cbn [jsub].
    rewrite Z.min_l, Z.max_l, Z.sub_0_r by lia. reflexivity.
  - apply Z.ltb_ge in E. cbn [jsub].
    rewrite Z.min_r, Z.max_r by lia.
    replace (total - (total - b * f)) with (b * f) by lia. reflexivity.
Qed.

(** [selectAll] spends every coin of positive effective value. Its fee is
    the fee of the estimated size, capped by the value of those coins, and
    its one output carries the rest, never a negative value. *)
Theorem selectAll_fee_capped (f : Z) (coins : list Coin) (outAddress : string) (b : Z) :
  transactionBytes (map ACoin (List.filter (isEffective f) coins)) [EmptyObject]
  = Return (Num b) ->
  exists total,
    sumValues (List.filter (isEffective f) coins) = Num total
    /\ selectAll f coins outAddress =
         Return {| fee := Num (Z.min total (b * f));
                   inputs := List.filter (isEffective f) coins;
                   outputs := [{| value := Num (Z.max 0 (total - b * f));
                                  address := outAddress;
                                  change := false |}] |}.
Proof. apply selectAll_value. Qed.

Lemma isEffective_at_0 (c : Coin) : isEffective 0 c = jgt (value c) (Num 0).
Proof.
  unfold isEffective, effectiveValue. rewrite Z.mul_0_r.
  destruct (value c) as [v|]; [|reflexivity]. cbn [jsub]. rewrite Z.sub_0_r.
  reflexivity.
Qed.

Lemma inputFees_at_0 (l : list Coin) : inputFees 0 l = 0.
Proof. induction l as [|c l IH]; simpl; [reflexivity|]. rewrite IH. lia. Qed.

(** When the size of the sweep is estimated as a number, sweeping at a
    fee rate of 0 costs nothing: the inputs are the coins of positive value
    and the one output carries all of their value. *)
Theorem selectAll_at_rate_0 (coins : list Coin) (outAddress : string) (b : Z) :
  transactionBytes (map ACoin (List.filter (isEffective 0) coins)) [EmptyObject]
  = Return (Num b) ->
  exists total,
    sumValues (List.filter (fun c => jgt (value c) (Num 0)) coins) = Num total
    /\ selectAll 0 coins outAddress =
         Return {| fee := Num 0;
                   inputs := List.filter (fun c => jgt (value c) (Num 0)) coins;
                   outputs := [{| value := Num total;
                                  address := outAddress;
                                  change := false |}] |}.
Proof.
  intros Hb.
  destruct (selectAll_value 0 coins outAddress b Hb) as (total & Ht & E).
  destruct (effective_sum 0 _ (filter_Forall (isEffective 0) coins))
    as (total' & e & Ht' & _ & He & Hpos & _).
  rewrite Ht in Ht'. injection Ht' as <-. rewrite inputFees_at_0 in He.
  assert (Hf : List.filter (isEffective 0) coins
               = List.filter (fun c => jgt (value c) (Num 0)) coins).
  { apply filter_ext. intros c. apply isEffective_at_0. }
  rewrite <- Hf. exists total. split; [exact Ht|]. rewrite E.
  rewrite Z.mul_0_r, Z.sub_0_r, Z.min_r, Z.max_r by lia. reflexivity.
Qed.

Lemma sublist_Forall (P : Coin -> Prop) (l k : list Coin) :
  l `sublist_of` k -> Forall P k -> Forall P l.
Proof.
  induction 1 as [|x l k _ IH|x l k _ IH]; intros H.
  - constructor.
  - inversion H; subst. constructor; auto.
  - inversion H; subst. auto.
Qed.

Lemma sublist_of_filter_sort (f : Z) (cmp : Coin -> Coin -> bool)
    (coins l : list Coin) :
  l `sublist_of` List.filter (isEffective f) (sort cmp coins) -> l ⊆+ coins.
Proof.
  intros H. rewrite <- (sort_permutation cmp coins).
  apply sublist_submseteq. etransitivity; [exact H|apply filter_sublist].
Qed.

(** A strategy spends only coins it was given, each at most once, and only
    coins of positive effective value. For the two random strategies this
    rests on the shuffle returning a permutation of its argument. *)
Theorem strategies_spend_given_coins (targets : list Coin) (f : Z)
    (coins : list Coin) (addr : string) (seed : option string)
    (random : nat -> Q) (s : Selection) :
  (forall l g, Permutation (shuffle l g) l) ->
  singleRandomDraw targets f coins addr seed random = Return s
  \/ descentDraw targets f coins addr = Return s
  \/ ascentDraw targets f coins addr = Return s
  \/ selectAll f coins addr = Return s
  \/ branchAndBound targets f coins addr seed random = Return s ->
  inputs s ⊆+ coins /\ Forall (fun c => isEffective f c = true) (inputs s).
Proof.
  intros Hsh.
  assert (Hft : forall l x, findTarget targets f l addr = Return x -> l ⊆+ coins ->
                  inputs x ⊆+ coins /\ Forall (fun c => isEffective f c = true) (inputs x)).
  { intros l x Hx Hl.
    destruct (ft_inputs_prefix _ _ _ _ _ Hx) as (_ & Hsub & HF).
    split; [|exact HF]. etransitivity; [apply sublist_submseteq, Hsub|exact Hl]. }
  unfold singleRandomDraw, descentDraw, ascentDraw, branchAndBound.
  intros [H|[H|[H|[H|H]]]].
  - apply (Hft _ _ H). rewrite Hsh. reflexivity.
  - apply (Hft _ _ H). rewrite sort_permutation. reflexivity.
  - apply (Hft _ _ H). rewrite sort_permutation. reflexivity.
  - unfold selectAll in H.
    destruct (effectiveBalance _ _ _) as [eb|e]; [|discriminate].
    cbn [bind] in H. injection H as <-. cbn [inputs].
    split; [apply sublist_submseteq, filter_sublist|apply filter_Forall].
  - destruct (bnb_cases targets f coins addr seed random)
      as [(bytes & sel & _ & _ & Hsub & _ & _ & E)|[n E]]; rewrite E in H.
    + injection H as <-. cbn [inputs]. split.
      * apply (sublist_of_filter_sort f _ _ _ Hsub).
      * eapply sublist_Forall; [exact Hsub|]. apply filter_Forall.
    + unfold singleRandomDraw in H. apply (Hft _ _ H). rewrite Hsh.
      apply (sublist_of_filter_sort f (fun a b => CoinOps.lte a b)). reflexivity.
Qed.

End StrategiesFurther.

Section AccessorProperties.
Context `{CM : CoinModule} `{CO : CoinOrigin}.

(** The origin of a selection of the core is the origin of the first coin
    of positive effective value: a failed selection is from neither an
    account nor a legacy address, a successful one is what that coin is. *)
Theorem origin_of_findTarget (targets : list Coin) (f : Z) (coins : list Coin)
    (changeAddress : string) (s : Selection) :
  findTarget targets f coins changeAddress = Return s ->
  (inputs s = [] -> isFromAccount s = false /\ isFromLegacy s = false)
  /\ (inputs s <> [] ->
      exists first rest,
        List.filter (isEffective f) coins = first :: rest
        /\ isFromAccount s = Coin_isFromAccount first
        /\ isFromLegacy s = Coin_isFromLegacy first).
Proof.
  intros H. destruct (ft_inputs_prefix _ _ _ _ _ H) as ([k Hk] & _ & _).
  unfold isFromAccount, isFromLegacy. split.
  - intros ->. split; reflexivity.
  - intros Hne. destruct (inputs s) as [|c l]; [congruence|].
    exists c, (l ++ k). split; [exact Hk|]. split; reflexivity.
Qed.

Lemma fold_left_add (g : txio -> Z) (l : list txio) (a : Z) :
  fold_left (fun x c => x + g c) l a = a + fold_right (fun c x => g c + x) 0 l.
Proof.
  revert a. induction l as [|c l IH]; intros a; simpl; [lia|].
  rewrite IH. lia.
Qed.

Lemma sum_Permutation (g : txio -> Z) (l k : list txio) :
  Permutation l k ->
  fold_right (fun c x => g c + x) 0 l = fold_right (fun c x => g c + x) 0 k.
Proof.
  induction 1 as [|x l k _ IH|x y l|l k m _ IH1 _ IH2]; simpl; lia.
Qed.

(** The deprecated size is the size of the empty transaction plus a size
    per input and per output: it is additive over joined lists and does
    not depend on the order of the coins. *)
Theorem DEPRECATED_transactionBytes_additive (ins ins' outs outs' : list txio) :
  DEPRECATED_transactionBytes (ins ++ ins') (outs ++ outs')
  = DEPRECATED_transactionBytes ins outs + DEPRECATED_transactionBytes ins' outs'
    - TX_EMPTY_SIZE
  /\ (Permutation ins ins' -> Permutation outs outs' ->
      DEPRECATED_transactionBytes ins outs = DEPRECATED_transactionBytes ins' outs').
Proof.
  unfold DEPRECATED_transactionBytes. rewrite !fold_left_add. split.
  - rewrite !fold_right_app.
    assert (E : forall (g : txio -> Z) l k,
               fold_right (fun c x => g c + x) (fold_right (fun c x => g c + x) 0 k) l
               = fold_right (fun c x => g c + x) 0 l
                 + fold_right (fun c x => g c + x) 0 k).
    { intros g l k. induction l as [|c l IH]; simpl; lia. }
    rewrite !E. lia.
  - intros Hi Ho. rewrite (sum_Permutation _ _ _ Hi), (sum_Permutation _ _ _ Ho).
    reflexivity.
Qed.

End AccessorProperties.

(** ** The branch-and-bound search, further *)

Section SearchFurther.
Context `{CM : CoinModule} `{LB : Libraries}.

Lemma exploreIncludeFirst_tries (rng : option (nat -> Q)) (random : nat -> Q)
    (st : bnbState) :
  bnbTries (snd (exploreIncludeFirst rng random st)) = bnbTries st.
Proof.
  unfold exploreIncludeFirst. destruct rng as [g|]; [|reflexivity].
  destruct (negb _); reflexivity.
Qed.

(** The try counter is the guard of the search: every node takes one try,
    a node whose counter is spent is not expanded, and a search entered
    with tries left stops before the counter falls below minus the number
    of coins still to decide. From 1,000,000 tries over [n] coins, at most
    1,000,000 + [n] nodes are visited. *)
Theorem _branchAndBound_budget (tfm range : jsnum) (f : Z)
    (rng : option (nat -> Q)) (random : nat -> Q) (rest : list Coin) :
  forall cur eff st r st',
    _branchAndBound tfm range f rng random rest cur eff st = (r, st') ->
    bnbTries st' <= bnbTries st - 1
    /\ (bnbTries st <= 1 -> bnbTries st' = bnbTries st - 1 /\ (r = [] \/ r = cur))
    /\ (1 <= bnbTries st -> - Z.of_nat (length rest) <= bnbTries st').
Proof.
  induction rest as [|coin deeper IH]; intros cur eff st r st' H.
  - cbn [_branchAndBound] in H.
    destruct (jgt eff (tfm + range)%js); [|destruct (jge eff tfm);
      [|destruct (_ <? 1)]]; injection H as <- <-; cbn [bnbTries length];
      (split; [lia|split; [auto|lia]]).
  - cbn [_branchAndBound] in H.
    destruct (jgt eff (tfm + range)%js);
      [injection H as <- <-; cbn [bnbTries]; split; [lia|split; [auto|lia]]|].
    destruct (jge eff tfm);
      [injection H as <- <-; cbn [bnbTries]; split; [lia|split; [auto|lia]]|].
    cbn [bnbTries] in H.
    destruct (bnbTries st - 1 <? 1) eqn:Htries;
      [injection H as <- <-; cbn [bnbTries]; split; [lia|split; [auto|lia]]|].
    apply Z.ltb_ge in Htries.
    pose proof (exploreIncludeFirst_tries rng random
                  {| bnbTries := bnbTries st - 1;
                     seededDraws := seededDraws st;
                     randomDraws := randomDraws st |}) as Hex.
    destruct (exploreIncludeFirst rng random _) as [first st1].
    cbn [snd bnbTries] in Hex.
    assert (Hsecond : forall r1 st2 r2 st3 c2 e2,
      bnbTries st2 <= bnbTries st1 - 1 ->
      - Z.of_nat (length deeper) <= bnbTries st2 ->
      _branchAndBound tfm range f rng random deeper c2 e2 st2 = (r2, st3) ->
      (if negb (isEmpty r1) then (r1, st2) else (r2, st3)) = (r, st') ->
      bnbTries st' <= bnbTries st - 1
      /\ (bnbTries st <= 1 -> bnbTries st' = bnbTries st - 1 /\ (r = [] \/ r = cur))
      /\ (1 <= bnbTries st -> - Z.of_nat (length (coin :: deeper)) <= bnbTries st')).
    { intros r1 st2 r2 st3 c2 e2 Hle Hlow E2 E.
      destruct (IH _ _ _ _ _ E2) as (Ha & Hb & Hc).
      cbn [length]. rewrite Nat2Z.inj_succ.
      destruct (negb (isEmpty r1)); injection E as <- <-.
      - split; [lia|]. split; [lia|]. lia.
      - split; [lia|]. split; [lia|]. intros _.
        destruct (Z_le_gt_dec 1 (bnbTries st2)) as [Hge|Hlt].
        + specialize (Hc Hge). lia.
        + destruct (Hb ltac:(lia)) as [Hb' _]. lia. }
    destruct first.
    + destruct (_branchAndBound tfm range f rng random deeper (cur ++ [coin]) _ st1)
        as [include st2] eqn:E1.
      destruct (IH _ _ _ _ _ E1) as (Ha & _ & Hc).
      destruct (_branchAndBound tfm range f rng random deeper cur eff st2)
        as [r2 st3] eqn:E2.
      eapply (Hsecond include st2 r2 st3); [lia|apply Hc; lia|exact E2|exact H].
    + destruct (_branchAndBound tfm range f rng random deeper cur eff st1)
        as [exclude st2] eqn:E1.
      destruct (IH _ _ _ _ _ E1) as (Ha & _ & Hc).
      destruct (_branchAndBound tfm range f rng random deeper (cur ++ [coin])
                  (eff + effectiveValue f coin)%js st2) as [r2 st3] eqn:E2.
      eapply (Hsecond exclude st2 r2 st3); [lia|apply Hc; lia|exact E2|exact H].
Qed.

(** An exact match pays for what it spends: its fee is at least the fee of
    the bare transaction and of its inputs, and exceeds it by at most the
    dust threshold. Any other result is the one [singleRandomDraw] gives. *)
Theorem branchAndBound_match_fee (targets : list Coin) (f : Z) (coins : list Coin)
    (changeAddress : string) (seed : option string) (random : nat -> Q)
    (s : Selection) :
  branchAndBound targets f coins changeAddress seed random = Return s ->
  (exists n,
     singleRandomDraw targets f (sortedCoinsOf f coins) changeAddress seed
       (fun k => random (n + k)%nat) = Return s)
  \/ (exists b z,
        transactionBytes [] (map ACoin targets) = Return (Num b)
        /\ inputs s <> []
        /\ outputs s = targets
        /\ fee s = Num z
        /\ b * f + inputFees f (inputs s) <= z
           <= b * f + inputFees f (inputs s) + dustThreshold f).
Proof.
  unfold branchAndBound. intros H.
  destruct (bnb_cases targets f coins changeAddress seed random)
    as [(bytes & sel & Hb & Hne & Hsub & Hlo & Hhi & E)|[n E]]; rewrite E in H.
  - right. injection H as <-. cbn [inputs outputs fee].
    assert (HF : Forall (fun c => isEffective f c = true) sel).
    { eapply sublist_Forall; [exact Hsub|]. apply filter_Forall. }
    destruct (effective_sum f sel HF) as (total & e & Ht & He & Hrel & _).
    rewrite He in Hlo, Hhi.
    destruct (jge_true_inv _ _ Hlo) as (e' & tfm & Ee & Etfm & Hle).
    injection Ee as <-. rewrite Etfm in Hhi.
    destruct bytes as [b|]; [|destruct (sumValues targets); discriminate].
    destruct (sumValues targets) as [t|]; [|discriminate].
    cbn [jmul jadd] in Etfm, Hhi. injection Etfm as <-.
    apply jgt_false_Num in Hhi.
    exists b, (total - t). rewrite Ht. cbn [jsub].
    repeat split; try assumption; lia.
  - left. exists n. exact H.
Qed.

Lemma pow2_step (l : list Coin) (c : Coin) :
  2 ^ (Z.of_nat (length (c :: l)) + 1) = 2 * 2 ^ (Z.of_nat (length l) + 1).
Proof.
  cbn [length]. rewrite Nat2Z.inj_succ.
  replace (Z.succ (Z.of_nat (length l)) + 1)
    with (Z.succ (Z.of_nat (length l) + 1)) by lia.
  apply Z.pow_succ_r. lia.
Qed.

Lemma _branchAndBound_nodes (tfm range : jsnum) (f : Z)
    (rng : option (nat -> Q)) (random : nat -> Q) (rest : list Coin) :
  forall cur eff st r st',
    _branchAndBound tfm range f rng random rest cur eff st = (r, st') ->
    bnbTries st - (2 ^ (Z.of_nat (length rest) + 1) - 1) <= bnbTries st'.
Proof.
  induction rest as [|coin deeper IH]; intros cur eff st r st' H.
  - cbn [_branchAndBound] in H.
    destruct (jgt eff (tfm + range)%js); [|destruct (jge eff tfm);
      [|destruct (_ <? 1)]]; injection H as <- <-; cbn [bnbTries length];
      simpl; lia.
  - assert (Hpow : 2 ^ (Z.of_nat (length (coin :: deeper)) + 1)
                   = 2 * 2 ^ (Z.of_nat (length deeper) + 1)).
    { apply pow2_step. }
    assert (Hone : 1 <= 2 ^ (Z.of_nat (length deeper) + 1)).
    { pose proof (Z.pow_pos_nonneg 2 (Z.of_nat (length deeper) + 1)). lia. }
    rewrite Hpow. cbn [_branchAndBound] in H.
    destruct (jgt eff (tfm + range)%js);
      [injection H as <- <-; cbn [bnbTries]; lia|].
    destruct (jge eff tfm); [injection H as <- <-; cbn [bnbTries]; lia|].
    cbn [bnbTries] in H.
    destruct (bnbTries st - 1 <? 1); [injection H as <- <-; cbn [bnbTries]; lia|].
    pose proof (exploreIncludeFirst_tries rng random
                  {| bnbTries := bnbTries st - 1;
                     seededDraws := seededDraws st;
                     randomDraws := randomDraws st |}) as Hex.
    destruct (exploreIncludeFirst rng random _) as [first st1].
    cbn [snd bnbTries] in Hex.
    destruct first.
    + destruct (_branchAndBound tfm range f rng random deeper (cur ++ [coin]) _ st1)
        as [include st2] eqn:E1.
      pose proof (IH _ _ _ _ _ E1) as H1.
      destruct (negb (isEmpty include)); [injection H as <- <-; lia|].
      pose proof (IH _ _ _ _ _ H) as H2. lia.
    + destruct (_branchAndBound tfm range f rng random deeper cur eff st1)
        as [exclude st2] eqn:E1.
      pose proof (IH _ _ _ _ _ E1) as H1.
      destruct (negb (isEmpty exclude)); [injection H as <- <-; lia|].
      pose proof (IH _ _ _ _ _ H) as H2. lia.
Qed.

Lemma effectiveValue_Num (f : Z) (c : Coin) :
  isEffective f c = true -> exists e, effectiveValue f c = Num e /\ 0 < e.
Proof.
  intros H. destruct (isEffective_numeric f c H) as (v & Hv & Hgt).
  unfold effectiveValue. rewrite Hv. eexists. split; [reflexivity|]. lia.
Qed.

(** With enough tries for the whole tree, the search finds a match when
    there is one below the current node. *)
Lemma _branchAndBound_complete (T R f : Z)
    (rng : option (nat -> Q)) (random : nat -> Q) (rest : list Coin) :
  Forall (fun c => isEffective f c = true) rest ->
  forall cur eff st,
    (eff < T \/ cur <> []) ->
    2 ^ (Z.of_nat (length rest) + 1) - 1 <= bnbTries st ->
    (exists picked e,
       picked `sublist_of` rest
       /\ jsum (map (effectiveValue f) picked) = Num e
       /\ T <= eff + e <= T + R) ->
    fst (_branchAndBound (Num T) (Num R) f rng random rest cur (Num eff) st) <> [].
Proof.
  induction 1 as [|coin deeper Hc HF IH]; intros cur eff st Hinv Hbud Hex.
  - destruct Hex as (picked & e & Hsub & He & Hrange).
    apply sublist_nil_r in Hsub. subst picked. simpl in He. injection He as <-.
    cbn [_branchAndBound jadd]. rewrite jgt_Num.
    replace (T + R <? eff) with false by (symmetry; apply Z.ltb_ge; lia).
    cbn [jge]. replace (T <=? eff) with true by (symmetry; apply Z.leb_le; lia).
    cbn [fst]. destruct Hinv as [Hlt|Hne]; [lia|exact Hne].
  - assert (Hpow : 2 ^ (Z.of_nat (length (coin :: deeper)) + 1)
                   = 2 * 2 ^ (Z.of_nat (length deeper) + 1)).
    { apply pow2_step. }
    assert (Hone : 2 <= 2 ^ (Z.of_nat (length deeper) + 1)).
    { change 2 with (2 ^ 1) at 1. apply Z.pow_le_mono_r; lia. }
    rewrite Hpow in Hbud.
    destruct (effectiveValue_Num f coin Hc) as (ec & Hec & Hecpos).
    assert (Hle : eff <= T + R).
    { destruct Hex as (picked & e & Hsub & He & Hrange).
      assert (HFp : Forall (fun c => isEffective f c = true) picked).
      { eapply sublist_Forall; [exact Hsub|]. constructor; assumption. }
      destruct (effective_sum f picked HFp) as (total & e' & _ & He' & _ & Hpos & _).
      rewrite He in He'. injection He' as <-. lia. }
    cbn [_branchAndBound jadd]. rewrite jgt_Num.
    replace (T + R <? eff) with false by (symmetry; apply Z.ltb_ge; lia).
    cbn [jge]. destruct (T <=? eff) eqn:Hmatch.
    { apply Z.leb_le in Hmatch. cbn [fst]. destruct Hinv as [Hlt|Hne]; [lia|exact Hne]. }
    apply Z.leb_gt in Hmatch. cbn [bnbTries].
    replace (bnbTries st - 1 <? 1) with false by (symmetry; apply Z.ltb_ge; lia).
    pose proof (exploreIncludeFirst_tries rng random
                  {| bnbTries := bnbTries st - 1;
                     seededDraws := seededDraws st;
                     randomDraws := randomDraws st |}) as Hex1.
    destruct (exploreIncludeFirst rng random _) as [first st1].
    cbn [snd bnbTries] in Hex1. rewrite Hec. cbn [jadd].
    destruct Hex as (picked & e & Hsub & He & Hrange).
    apply sublist_cons_r in Hsub.
    assert (Hin : picked `sublist_of` deeper \/
                  exists picked' e', picked' `sublist_of` deeper
                    /\ jsum (map (effectiveValue f) picked') = Num e'
                    /\ T <= (eff + ec) + e' <= T + R).
    { destruct Hsub as [Hsub|(picked' & -> & Hsub)]; [left; exact Hsub|right].
      cbn [map jsum fold_right] in He. fold (jsum (map (effectiveValue f) picked')) in He.
      rewrite Hec in He. apply jadd_Num_inv in He as (x & e' & Hx & He' & ->).
      injection Hx as <-. exists picked', e'. split; [exact Hsub|]. split; [exact He'|lia]. }
    assert (Hwith : forall st0,
      2 ^ (Z.of_nat (length deeper) + 1) - 1 <= bnbTries st0 ->
      (exists picked' e', picked' `sublist_of` deeper
         /\ jsum (map (effectiveValue f) picked') = Num e'
         /\ T <= (eff + ec) + e' <= T + R) ->
      fst (_branchAndBound (Num T) (Num R) f rng random deeper (cur ++ [coin])
             (Num (eff + ec)) st0) <> []).
    { intros st0 Hb0 Hp. apply IH; [right; intros E; destruct cur; discriminate|exact Hb0|exact Hp]. }
    assert (Hwithout : forall st0,
      2 ^ (Z.of_nat (length deeper) + 1) - 1 <= bnbTries st0 ->
      picked `sublist_of` deeper ->
      fst (_branchAndBound (Num T) (Num R) f rng random deeper cur (Num eff) st0) <> []).
    { intros st0 Hb0 Hp. apply IH; [exact Hinv|exact Hb0|].
      exists picked, e. split; [exact Hp|]. split; [exact He|exact Hrange]. }
    destruct first.
    + destruct (_branchAndBound (Num T) (Num R) f rng random deeper (cur ++ [coin])
                  (Num (eff + ec)) st1) as [include st2] eqn:E1.
      pose proof (_branchAndBound_nodes _ _ _ _ _ _ _ _ _ _ _ E1) as Hn.
      destruct include as [|i0 il]; cbn [isEmpty negb]; [|cbn [fst]; discriminate].
      destruct Hin as [Hp|Hp].
      * apply Hwithout; [lia|exact Hp].
      * exfalso. specialize (Hwith st1 ltac:(lia) Hp). rewrite E1 in Hwith.
        apply Hwith. reflexivity.
    + destruct (_branchAndBound (Num T) (Num R) f rng random deeper cur (Num eff) st1)
        as [exclude st2] eqn:E1.
      pose proof (_branchAndBound_nodes _ _ _ _ _ _ _ _ _ _ _ E1) as Hn.
      destruct exclude as [|x0 xl]; cbn [isEmpty negb]; [|cbn [fst]; discriminate].
      destruct Hin as [Hp|Hp].
      * exfalso. specialize (Hwithout st1 ltac:(lia) Hp). rewrite E1 in Hwithout.
        apply Hwithout. reflexivity.
      * apply Hwith; [lia|exact Hp].
Qed.

(** Among at most 18 coins of positive effective value, an exact match is
    found whenever there is one: if some of those coins have effective
    values summing into the match range, above a positive target and base
    fee, [branchAndBound] returns a selection without change, whatever the
    random branch orders. *)
Theorem branchAndBound_finds_match (targets : list Coin) (f : Z) (coins : list Coin)
    (changeAddress : string) (seed : option string) (random : nat -> Q)
    (b t : Z) (picked : list Coin) (e : Z) :
  transactionBytes [] (map ACoin targets) = Return (Num b) ->
  sumValues targets = Num t ->
  0 < t + b * f ->
  (length (List.filter (isEffective f) coins) <= 18)%nat ->
  picked ⊆+ List.filter (isEffective f) coins ->
  jsum (map (effectiveValue f) picked) = Num e ->
  t + b * f <= e <= t + b * f + dustThreshold f ->
  exists selected,
    selected <> []
    /\ branchAndBound targets f coins changeAddress seed random =
         Return {| fee := (sumValues selected - Num t)%js;
                   inputs := selected;
                   outputs := targets |}.
Proof.
  intros Hb Ht Hpos Hlen Hsub He Hrange.
  pose proof (sortedCoinsOf_Permutation f coins) as HP.
  rewrite <- HP in Hsub. apply submseteq_sublist_r in Hsub as (picked' & Hperm & Hsub').
  rewrite (jsum_Permutation _ _ (Permutation_map (effectiveValue f) Hperm)) in He.
  assert (HF : Forall (fun c => isEffective f c = true) (sortedCoinsOf f coins)).
  { unfold sortedCoinsOf. apply filter_Forall. }
  assert (Hbud : 2 ^ (Z.of_nat (length (sortedCoinsOf f coins)) + 1) - 1 <= 1000000).
  { rewrite (Permutation_length HP).
    assert (2 ^ (Z.of_nat (length (List.filter (isEffective f) coins)) + 1) <= 2 ^ 19)
      by (apply Z.pow_le_mono_r; lia).
    change (2 ^ 19) with 524288 in *. lia. }
  unfold branchAndBound, bnb. rewrite Hb, Ht. cbn [bind jmul jadd].
  pose proof (_branchAndBound_complete (t + b * f) (dustThreshold f) f
                (option_map seedrandom seed) random (sortedCoinsOf f coins) HF
                [] 0 {| bnbTries := 1000000; seededDraws := 0; randomDraws := 0 |}
                (or_introl Hpos) Hbud) as Hc.
  destruct (_branchAndBound _ _ _ _ _ _ _ _ _) as [sel st].
  cbn [fst] in Hc.
  assert (Hne : sel <> []).
  { apply Hc. exists picked', e. split; [exact Hsub'|]. split; [exact He|lia]. }
  destruct sel as [|c0 sel0]; [congruence|]. cbn [isEmpty].
  eexists. split; [|reflexivity]. discriminate.
Qed.

End SearchFurther.

(** ** The claims on the balance, the sweep and the search *)

Section BalanceAndSearchClaims.
Context `{CM : CoinModule} `{LB : Libraries}.



(** C9 (amended). [selectAll] raises what the size estimate of the sweep
    raises. When that estimate is a number of bytes, it returns the
    eligible coins as inputs and one output at the given address, of the
    value of those coins less the fee of the estimated size, or 0 when
    that fee is larger; its fee is the rest. When the estimate is not a
    number, neither are the fee and the value of the one output. At a fee
    rate that is not negative and without an eligible coin it returns fee
    0, no inputs and one output of value 0 at the given address. *)
Theorem selectAll_single_output (f : Z) (coins : list Coin) (outAddress : string) :
  let eligible := List.filter (isEffective f) coins in
  let estimate := transactionBytes (map ACoin eligible) [EmptyObject] in
  (forall e, estimate = Throw e -> selectAll f coins outAddress = Throw e)
  /\ (forall b, estimate = Return (Num b) ->
        exists total,
          sumValues eligible = Num total
          /\ selectAll f coins outAddress =
               Return {| fee := Num (Z.min total (b * f));
                         inputs := eligible;
                         outputs := [{| value := Num (Z.max 0 (total - b * f));
                                        address := outAddress;
                                        change := false |}] |})
  /\ (estimate = Return NaN ->
        selectAll f coins outAddress =
          Return {| fee := NaN;
                    inputs := eligible;
                    outputs := [{| value := NaN;
                                   address := outAddress;
                                   change := false |}] |})
  /\ (0 <= f ->
      (forall c, In c coins -> isEffective f c = false) ->
      selectAll f coins outAddress =
        Return {| fee := Num 0;
                  inputs := [];
                  outputs := [{| value := Num 0;
                                 address := outAddress;
                                 change := false |}] |}).
Proof.
  cbn zeta. split; [|split; [|split]].
  - intros e He. unfold selectAll, effectiveBalance. rewrite He. reflexivity.
  - intros b Hb. apply selectAll_value, Hb.
  - intros Hb. unfold selectAll, effectiveBalance. rewrite Hb.
    cbn [bind CoinOps.overValue CoinOps.fromJS value].
    destruct (effective_sum f _ (filter_Forall (isEffective f) coins))
      as (total & e & Ht & _).
    fold (sumValues (List.filter (isEffective f) coins)). rewrite Ht.
    reflexivity.
  - intros Hf Hc.
    assert (E : List.filter (isEffective f) coins = []).
    { induction coins as [|c l IH]; [reflexivity|]. simpl.
      rewrite (Hc c (or_introl eq_refl)). apply IH.
      intros c' Hc'. apply Hc. right. exact Hc'. }
    assert (Hb : transactionBytes (map ACoin (List.filter (isEffective f) coins))
                   [EmptyObject] = Return (Num 44)).
    { rewrite E. reflexivity. }
    destruct (selectAll_value f coins outAddress 44 Hb) as (total & Ht & Hs).
    rewrite Hs, E. rewrite E in Ht. injection Ht as <-.
    rewrite Z.min_l, Z.max_l by lia. reflexivity.
Qed.


End BalanceAndSearchClaims.

(** ** A lower bound of the estimate *)

Lemma digitValue_nonneg (c : ascii) (d : Z) : digitValue c = Some d -> 0 <= d.
Proof.
  unfold digitValue. set (n := Z.of_N (N_of_ascii c)).
  destruct ((48 <=? n) && (n <=? 57)) eqn:E1.
  { apply andb_prop in E1 as [E1 _]. apply Z.leb_le in E1. intros [= <-]. lia. }
  destruct ((97 <=? n) && (n <=? 122)) eqn:E2.
  { apply andb_prop in E2 as [E2 _]. apply Z.leb_le in E2. intros [= <-]. lia. }
  destruct ((65 <=? n) && (n <=? 90)) eqn:E3; [|discriminate].
  apply andb_prop in E3 as [E3 _]. apply Z.leb_le in E3. intros [= <-]. lia.
Qed.

Lemma parseDigits_nonneg (radix : Z) (s : string) :
  0 < radix ->
  forall (acc : jsnum) (z : Z),
    (forall a, acc = Num a -> 0 <= a) ->
    parseDigits radix s acc = Num z -> 0 <= z.
Proof.
  intros Hr. induction s as [|c s IH]; intros acc z Hacc; cbn [parseDigits].
  - apply Hacc.
  - destruct (digitValue c) as [d|] eqn:Ed; [|apply Hacc].
    destruct (d <? radix); [|apply Hacc].
    apply IH. intros a [= <-]. pose proof (digitValue_nonneg _ _ Ed).
    destruct acc as [a|]; [|lia]. specialize (Hacc a eq_refl). nia.
Qed.

Lemma includes_trimStart (c : ascii) (s : string) :
  includes c s = false -> includes c (trimStart s) = false.
Proof.
  assert (G : forall n s, (String.length s <= n)%nat ->
              includes c s = false -> includes c (trimStart s) = false).
  { clear s. induction n as [|n IH]; intros s Hn H.
    - destruct s; [exact H|simpl in Hn; lia].
    - destruct s as [|c1 s]; [exact H|]. cbn [trimStart].
      cbn [String.length] in Hn. pose proof H as H0.
      cbn [includes] in H. apply orb_false_elim in H as [_ H1].
      destruct (isWhiteSpace c1); [apply IH; [lia|exact H1]|].
      destruct (leadsWhiteSpace c1); [|exact H0].
      destruct s as [|c2 s]; [exact H0|].
      cbn [String.length] in Hn.
      cbn [includes] in H1. apply orb_false_elim in H1 as [_ H2].
      destruct (whiteSpace2 c1 c2); [apply IH; [lia|exact H2]|].
      destruct s as [|c3 s]; [exact H0|].
      cbn [String.length] in Hn.
      cbn [includes] in H2. apply orb_false_elim in H2 as [_ H3].
      destruct (whiteSpace3 c1 c2 c3); [apply IH; [lia|exact H3]|exact H0]. }
  apply (G (String.length s)). lia.
Qed.

(** [parseInt] gives no negative number for a string without a minus
    sign. *)
Lemma parseInt_nonneg (s : string) (z : Z) :
  includes "-" s = false -> parseInt s = Num z -> 0 <= z.
Proof.
  intros H. apply includes_trimStart in H. unfold parseInt.
  revert H. generalize (trimStart s) as s1. intros s1 H.
  assert (P : forall radix s3,
             0 < radix -> (Num 1 * parseDigits radix s3 NaN)%js = Num z -> 0 <= z).
  { intros radix s3 Hr E.
    destruct (parseDigits radix s3 NaN) as [y|] eqn:Ey; [|discriminate].
    apply parseDigits_nonneg in Ey; [|exact Hr|discriminate].
    cbn [jmul] in E. injection E as <-. lia. }
  repeat match goal with
         | |- context [match ?x with _ => _ end] =>
             is_var x; destruct x; cbv beta iota zeta
         end;
    try (cbn in H; discriminate H);
    apply P; lia.
Qed.

Lemma split_parts_exclude (sep : ascii) (s : string) :
  forall p, In p (split sep s) -> includes sep p = false.
Proof.
  induction s as [|c s IH]; cbn [split]; intros p Hp.
  - destruct Hp as [<-|[]]. reflexivity.
  - destruct (Ascii.eqb c sep) eqn:Ec.
    + destruct Hp as [<-|Hp]; [reflexivity|apply IH, Hp].
    + destruct (split sep s) as [|q qs].
      * destruct Hp as [<-|[]]. cbn [includes]. rewrite Ec. reflexivity.
      * destruct Hp as [<-|Hp].
        -- cbn [includes]. rewrite Ec. apply IH. left; reflexivity.
        -- apply IH. right; exact Hp.
Qed.

Lemma operand_at_parts_nonneg (s : string) (i : nat) (z : Z) :
  operand_at (map parseInt (split "-" s)) i = Num z -> 0 <= z.
Proof.
  unfold operand_at. destruct (nth_error _ i) as [v|] eqn:E; [|discriminate].
  intros ->. apply List.nth_error_In, List.in_map_iff in E as (p & Ep & Hp).
  apply (parseInt_nonneg p z); [|exact Ep].
  exact (split_parts_exclude _ _ _ Hp).
Qed.

Lemma lookup_weight_nonneg (table : list (string * Z)) (key : string) (w : Z) :
  List.Forall (fun p => 0 <= snd p) table ->
  lookup_weight table key = Num w -> 0 <= w.
Proof.
  induction 1 as [|[k x] table Hx _ IH]; cbn [lookup_weight]; [discriminate|].
  destruct (String.eqb k key); [|exact IH]. intros [= <-]. exact Hx.
Qed.

Lemma IO_TYPES_inputs_nonneg : List.Forall (fun p => 0 <= snd p) IO_TYPES.inputs.
Proof. repeat constructor; vm_compute; discriminate. Qed.

Lemma IO_TYPES_outputs_nonneg : List.Forall (fun p => 0 <= snd p) IO_TYPES.outputs.
Proof. repeat constructor; vm_compute; discriminate. Qed.

Lemma Qfloor_in_range (n : Q) : outOfRange n = false -> 0 <= Qfloor n.
Proof.
  unfold outOfRange. intros H.
  apply orb_false_elim in H as [H _]. apply orb_false_elim in H as [H _].
  unfold Qlt_bool in H. apply negb_false_iff, Qle_bool_iff in H.
  change 0 with (Qfloor 0). apply Qfloor_resp_le, H.
Qed.

Lemma inputWeight_nonneg (e : string * Q) (z : Z) :
  outOfRange (snd e) = false -> inputWeight e = Num z -> 0 <= z.
Proof.
  destruct e as [key n]. cbn [snd]. intros Hn. apply Qfloor_in_range in Hn.
  unfold inputWeight, countValue.
  destruct (isMultisigKey key).
  - destruct (lookup_weight _ _) as [w|] eqn:Ew; [|discriminate].
    apply (lookup_weight_nonneg _ _ _ IO_TYPES_inputs_nonneg) in Ew.
    destruct (operand_at _ 0) as [a|] eqn:Ea; [|discriminate].
    destruct (operand_at _ 1) as [b|] eqn:Eb; [|discriminate].
    apply operand_at_parts_nonneg in Ea, Eb.
    cbn [jmul jadd]. intros [= <-].
    destruct (String.eqb _ "MULTISIG-P2SH"); nia.
  - destruct (lookup_weight _ _) as [w|] eqn:Ew; [|discriminate].
    apply (lookup_weight_nonneg _ _ _ IO_TYPES_inputs_nonneg) in Ew.
    cbn [jmul]. intros [= <-]. nia.
Qed.

Lemma outputWeight_nonneg (e : string * Q) (z : Z) :
  outOfRange (snd e) = false -> outputWeight e = Num z -> 0 <= z.
Proof.
  intros Hn. apply Qfloor_in_range in Hn. unfold outputWeight, countValue.
  destruct (lookup_weight _ _) as [w|] eqn:Ew; [|discriminate].
  apply (lookup_weight_nonneg _ _ _ IO_TYPES_outputs_nonneg) in Ew.
  cbn [jmul]. intros [= <-]. nia.
Qed.

Lemma jsum_map_nonneg (weight : string * Q -> jsnum) (check : string * Q -> bool)
      (entries : typeCounts) :
  (forall e z, check e = false -> weight e = Num z -> 0 <= z) ->
  existsb check entries = false ->
  forall z, jsum (map weight entries) = Num z -> 0 <= z.
Proof.
  intros Hw. induction entries as [|e entries IH]; cbn [existsb map]; intros Hc z.
  - rewrite jsum_nil. intros [= <-]. lia.
  - apply orb_false_elim in Hc as [He Hes]. rewrite jsum_cons.
    destruct (weight e) as [x|] eqn:Ex; [|discriminate].
    destruct (jsum (map weight entries)) as [y|] eqn:Ey; [|discriminate].
    cbn [jadd]. intros [= <-].
    pose proof (Hw e x He Ex). pose proof (IH Hes y eq_refl). lia.
Qed.

Lemma varIntSize_positive (n : Q) : 1 <= varIntSize n.
Proof.
  unfold varIntSize.
  destruct (Qlt_bool _ _); [lia|]. destruct (Qle_bool _ _); [lia|].
  destruct (Qle_bool _ _); lia.
Qed.

(** No estimate is below 10 virtual bytes, the size of the version, the
    lock time and the two count prefixes: whatever the entries, a number
    that [getByteCount] returns is at least 10. *)
Theorem getByteCount_at_least_10 (ins outs : typeCounts) (v : Z) :
  getByteCount ins outs = Return (Num v) -> 10 <= v.
Proof.
  intros H. destruct (raises ins outs) eqn:R.
  { apply getByteCount_throws_iff in R as [e He]. congruence. }
  unfold getByteCount in H. rewrite (getWeight_ok _ _ R) in H. cbn [bind] in H.
  unfold raises in R.
  apply orb_false_elim in R as [R _]. apply orb_false_elim in R as [R _].
  apply orb_false_elim in R as [Ri Ro].
  assert (Hi : existsb (fun e => outOfRange (snd e)) ins = false).
  { clear -Ri. induction ins as [|e ins IH]; [reflexivity|].
    cbn [existsb] in *. apply orb_false_elim in Ri as [He Hes].
    unfold inputEntryRaises in He. apply orb_false_elim in He as [He _].
    rewrite He. exact (IH Hes). }
  pose proof (jsum_map_nonneg inputWeight _ ins inputWeight_nonneg Hi) as Pi.
  pose proof (jsum_map_nonneg outputWeight _ outs outputWeight_nonneg Ro) as Po.
  pose proof (varIntSize_positive (totalCount ins 0)) as Vi.
  pose proof (varIntSize_positive (totalCount outs 0)) as Vo.
  unfold weightWithoutMarker in H.
  destruct (jsum (map inputWeight ins)) as [a|]; [|destruct (hasMarker ins); discriminate].
  destruct (jsum (map outputWeight outs)) as [b|];
    [|destruct (hasMarker ins); discriminate].
  specialize (Pi a eq_refl). specialize (Po b eq_refl).
  set (li := varIntSize (totalCount ins 0)) in *.
  set (lo := varIntSize (totalCount outs 0)) in *.
  assert (E : forall w, 40 <= w -> 10 <= - (- w / 4)).
  { intros w Hw. pose proof (Z.div_mod (- w) 4 ltac:(lia)).
    pose proof (Z.mod_pos_bound (- w) 4 ltac:(lia)). lia. }
  destruct (hasMarker ins); cbn [jadd ceil_div4] in H; injection H as <-;
    apply E; lia.
Qed.

(** ** The further properties at concrete inputs *)

Lemma transactionBytes_order_independent_witness :
  Permutation [ACoin (Reference.coin 1 "a"); EmptyObject]
              [EmptyObject; ACoin (Reference.coin 1 "a")]
  /\ Permutation [EmptyObject] [EmptyObject]
  /\ @transactionBytes Reference.coinModule
       [ACoin (Reference.coin 1 "a"); EmptyObject] [EmptyObject] = Return (Num 338)
  /\ @transactionBytes Reference.coinModule
       [EmptyObject; ACoin (Reference.coin 1 "a")] [EmptyObject] = Return (Num 338).
Proof.
  assert (H1 : Permutation [ACoin (Reference.coin 1 "a"); EmptyObject]
                           [EmptyObject; ACoin (Reference.coin 1 "a")])
    by constructor.
  assert (H2 : Permutation [EmptyObject] [EmptyObject]) by reflexivity.
  assert (H3 : @transactionBytes Reference.coinModule
                 [ACoin (Reference.coin 1 "a"); EmptyObject] [EmptyObject]
               = Return (Num 338)) by (vm_compute; reflexivity).
  split; [exact H1|]. split; [exact H2|]. split; [exact H3|].
  exact (proj2 (@transactionBytes_order_independent Reference.coinModule
                  _ _ _ _ H1 H2) (Num 338) H3).
Defined.

Lemma findTarget_inputs_prefix_witness :
  @findTarget Reference.coinModule [Reference.coin 1000 "dest"] 1
    [Reference.coin 5000 "a"] "chg" = Return Reference.spend
  /\ inputs Reference.spend `sublist_of` [Reference.coin 5000 "a"].
Proof.
  split; [exact reference_findTarget_spend|].
  exact (proj1 (proj2 (@findTarget_inputs_prefix Reference.coinModule
                         _ _ _ _ _ reference_findTarget_spend))).
Defined.

#[local] Existing Instance Reference.coinModule.
#[local] Existing Instance Reference.libraries.
#[local] Existing Instance referenceOrigin.

Lemma reference_bare_transaction :
  transactionBytes [] (map ACoin [Reference.coin 1000 "dest"]) = Return (Num 44).
Proof. vm_compute. reflexivity. Qed.

Lemma reference_input_fees (f : Z) (coins : list Coin) :
  0 <= f -> forall c, In c coins -> 0 <= inputBytes (ACoin c) * f.
Proof. intros Hf c _. simpl. lia. Qed.

Lemma findTarget_succeeds_iff_witness :
  transactionBytes [] (map ACoin [Reference.coin 1000 "dest"]) = Return (Num 44)
  /\ sumValues [Reference.coin 1000 "dest"] = Num 1000
  /\ 0 <= 1000 + 44 * 1
  /\ (forall c, In c [Reference.coin 5000 "a"] -> 0 <= inputBytes (ACoin c) * 1)
  /\ exists s e,
       findTarget [Reference.coin 1000 "dest"] 1 [Reference.coin 5000 "a"] "chg"
       = Return s
       /\ jsum (map (effectiveValue 1)
                  (List.filter (isEffective 1) [Reference.coin 5000 "a"])) = Num e
       /\ (inputs s <> [] <->
           List.filter (isEffective 1) [Reference.coin 5000 "a"] <> []
           /\ 1000 + 44 * 1 <= e).
Proof.
  assert (H1 := reference_bare_transaction).
  assert (H2 : sumValues [Reference.coin 1000 "dest"] = Num 1000) by reflexivity.
  assert (H3 : 0 <= 1000 + 44 * 1) by lia.
  assert (H4 := reference_input_fees 1 [Reference.coin 5000 "a"] ltac:(lia)).
  split; [exact H1|]. split; [exact H2|]. split; [exact H3|]. split; [exact H4|].
  exact (findTarget_succeeds_iff _ 1 _ "chg" 44 1000 H1 H2 H3 H4).
Defined.

Lemma reference_smallFirst :
  findTarget [Sample.dest] 1 [Reference.coin 700 "a"; Reference.coin 900 "b"] "chg"
  = Return Sample.smallFirst.
Proof. vm_compute. reflexivity. Qed.

Lemma reference_largeFirst :
  findTarget [Sample.dest] 1 [Reference.coin 900 "b"; Reference.coin 700 "a"] "chg"
  = Return Sample.largeFirst.
Proof. vm_compute. reflexivity. Qed.

Lemma reference_burnt :
  findTarget [Sample.dest] 1 [Reference.coin 1300 "a"] "chg" = Return Sample.burnt.
Proof. vm_compute. reflexivity. Qed.

Lemma reference_shuffle_permutation (l : list Coin) (g : nat -> Q) :
  Permutation (shuffle l g) l.
Proof.
  simpl. unfold Reference.rotate.
  rewrite Permutation_app_comm, firstn_skipn. reflexivity.
Qed.

Lemma findTarget_success_order_independent_witness :
  Permutation [Reference.coin 700 "a"; Reference.coin 900 "b"]
              [Reference.coin 900 "b"; Reference.coin 700 "a"]
  /\ findTarget [Sample.dest] 1 [Reference.coin 700 "a"; Reference.coin 900 "b"] "chg"
     = Return Sample.smallFirst
  /\ findTarget [Sample.dest] 1 [Reference.coin 900 "b"; Reference.coin 700 "a"] "chg"
     = Return Sample.largeFirst
  /\ (inputs Sample.smallFirst <> [] <-> inputs Sample.largeFirst <> []).
Proof.
  assert (H1 := reference_bare_transaction).
  assert (H2 : sumValues [Sample.dest] = Num 1000) by reflexivity.
  assert (H3 : 0 <= 1000 + 44 * 1) by lia.
  assert (H4 := reference_input_fees 1
                  [Reference.coin 700 "a"; Reference.coin 900 "b"] ltac:(lia)).
  assert (H5 : Permutation [Reference.coin 700 "a"; Reference.coin 900 "b"]
                           [Reference.coin 900 "b"; Reference.coin 700 "a"])
    by constructor.
  split; [exact H5|]. split; [exact reference_smallFirst|].
  split; [exact reference_largeFirst|].
  exact (findTarget_success_order_independent _ 1 _ _ "chg" 44 1000 _ _
           H1 H2 H3 H4 H5 reference_smallFirst reference_largeFirst).
Defined.

Lemma descentDraw_ascentDraw_agree_witness :
  descentDraw [Sample.dest] 1 [Reference.coin 700 "a"; Reference.coin 900 "b"] "chg"
  = Return Sample.largeFirst
  /\ ascentDraw [Sample.dest] 1 [Reference.coin 700 "a"; Reference.coin 900 "b"] "chg"
     = Return Sample.smallFirst
  /\ (inputs Sample.largeFirst <> [] <-> inputs Sample.smallFirst <> []).
Proof.
  assert (H1 := reference_bare_transaction).
  assert (H2 : sumValues [Sample.dest] = Num 1000) by reflexivity.
  assert (H3 : 0 <= 1000 + 44 * 1) by lia.
  assert (H4 := reference_input_fees 1
                  [Reference.coin 700 "a"; Reference.coin 900 "b"] ltac:(lia)).
  assert (H5 : descentDraw [Sample.dest] 1
                 [Reference.coin 700 "a"; Reference.coin 900 "b"] "chg"
               = Return Sample.largeFirst) by (vm_compute; reflexivity).
  assert (H6 : ascentDraw [Sample.dest] 1
                 [Reference.coin 700 "a"; Reference.coin 900 "b"] "chg"
               = Return Sample.smallFirst) by (vm_compute; reflexivity).
  split; [exact H5|]. split; [exact H6|].
  exact (descentDraw_ascentDraw_agree _ 1 _ "chg" 44 1000 _ _ H1 H2 H3 H4 H5 H6).
Defined.

Lemma findTarget_numeric_witness :
  transactionBytes [] (map ACoin [Sample.dest]) = Return (Num 44)
  /\ sumValues [Sample.dest] = Num 1000
  /\ exists s z,
       findTarget [Sample.dest] 1 [Reference.coin 1300 "a"] "chg" = Return s
       /\ fee s = Num z
       /\ (inputs s <> [] -> balanced s).
Proof.
  assert (H1 := reference_bare_transaction).
  assert (H2 : sumValues [Sample.dest] = Num 1000) by reflexivity.
  split; [exact H1|]. split; [exact H2|].
  exact (findTarget_numeric _ 1 [Reference.coin 1300 "a"] "chg" 44 1000 H1 H2).
Defined.


Lemma findTarget_burn_bounded_witness :
  transactionBytes [] (map ACoin [Sample.dest]) = Return (Num 44)
  /\ sumValues [Sample.dest] = Num 1000
  /\ findTarget [Sample.dest] 1 [Reference.coin 1300 "a"] "chg" = Return Sample.burnt
  /\ inputs Sample.burnt <> []
  /\ outputs Sample.burnt = [Sample.dest]
  /\ exists z,
       fee Sample.burnt = Num z
       /\ 44 * 1 + inputFees 1 (inputs Sample.burnt) <= z
          < 44 * 1 + inputFees 1 (inputs Sample.burnt) + dustThreshold 1 + changeBytes * 1.
Proof.
  assert (H0 : sumValues [Sample.dest] = Num 1000) by reflexivity.
  assert (H2 : inputs Sample.burnt <> []) by discriminate.
  assert (H3 : outputs Sample.burnt = [Sample.dest]) by reflexivity.
  split; [exact reference_bare_transaction|]. split; [exact H0|].
  split; [exact reference_burnt|]. split; [exact H2|]. split; [exact H3|].
  exact (findTarget_burn_bounded _ 1 _ "chg" _ 44 1000
           reference_bare_transaction H0 reference_burnt H2 H3).
Defined.

Lemma effectiveBalance_clamped_witness :
  effectiveBalance 1 [Reference.coin 5000 "a"] [EmptyObject] = Return (Num 4809)
  /\ 0 <= 4809
  /\ exists b total,
       transactionBytes (map ACoin [Reference.coin 5000 "a"]) [EmptyObject]
       = Return (Num b)
       /\ sumValues [Reference.coin 5000 "a"] = Num total
       /\ 4809 = Z.max 0 (total - b * 1).
Proof.
  assert (H : effectiveBalance 1 [Reference.coin 5000 "a"] [EmptyObject]
              = Return (Num 4809)) by (vm_compute; reflexivity).
  split; [exact H|]. exact (effectiveBalance_clamped 1 _ _ 4809 H).
Defined.

Lemma selectAll_fee_capped_witness :
  transactionBytes
    (map ACoin (List.filter (isEffective 1) [Reference.coin 5000 "a"])) [EmptyObject]
  = Return (Num 191)
  /\ exists total,
       sumValues (List.filter (isEffective 1) [Reference.coin 5000 "a"]) = Num total
       /\ selectAll 1 [Reference.coin 5000 "a"] "out" =
            Return {| fee := Num (Z.min total (191 * 1));
                      inputs := List.filter (isEffective 1) [Reference.coin 5000 "a"];
                      outputs := [{| value := Num (Z.max 0 (total - 191 * 1));
                                     address := "out";
                                     change := false |}] |}.
Proof.
  assert (H : transactionBytes
                (map ACoin (List.filter (isEffective 1) [Reference.coin 5000 "a"]))
                [EmptyObject] = Return (Num 191)) by (vm_compute; reflexivity).
  split; [exact H|]. exact (selectAll_fee_capped 1 _ "out" 191 H).
Defined.

Lemma selectAll_at_rate_0_witness :
  transactionBytes
    (map ACoin (List.filter (isEffective 0)
                  [Reference.coin 1000 "a"; Reference.coin 2000 "b";
                   Reference.coin 3000 "c"])) [EmptyObject]
  = Return (Num 485)
  /\ exists total,
       sumValues (List.filter (fun c => jgt (value c) (Num 0))
                    [Reference.coin 1000 "a"; Reference.coin 2000 "b";
                     Reference.coin 3000 "c"]) = Num total
       /\ selectAll 0 [Reference.coin 1000 "a"; Reference.coin 2000 "b";
                       Reference.coin 3000 "c"] "out" =
            Return {| fee := Num 0;
                      inputs := List.filter (fun c => jgt (value c) (Num 0))
                                  [Reference.coin 1000 "a"; Reference.coin 2000 "b";
                                   Reference.coin 3000 "c"];
                      outputs := [{| value := Num total;
                                     address := "out";
                                     change := false |}] |}.
Proof.
  assert (H : transactionBytes
                (map ACoin (List.filter (isEffective 0)
                              [Reference.coin 1000 "a"; Reference.coin 2000 "b";
                               Reference.coin 3000 "c"])) [EmptyObject]
              = Return (Num 485)) by (vm_compute; reflexivity).
  split; [exact H|]. exact (selectAll_at_rate_0 _ "out" 485 H).
Defined.

Lemma strategies_spend_given_coins_witness :
  (forall l g, Permutation (shuffle l g) l)
  /\ descentDraw [Sample.dest] 1 [Reference.coin 700 "a"; Reference.coin 900 "b"] "chg"
     = Return Sample.largeFirst
  /\ inputs Sample.largeFirst ⊆+ [Reference.coin 700 "a"; Reference.coin 900 "b"]
  /\ Forall (fun c => isEffective 1 c = true) (inputs Sample.largeFirst).
Proof.
  assert (H1 := reference_shuffle_permutation).
  assert (H2 : descentDraw [Sample.dest] 1
                 [Reference.coin 700 "a"; Reference.coin 900 "b"] "chg"
               = Return Sample.largeFirst) by (vm_compute; reflexivity).
  split; [exact H1|]. split; [exact H2|].
  exact (strategies_spend_given_coins [Sample.dest] 1 _ "chg" None (fun _ => 0%Q) _
           H1 (or_intror (or_introl H2))).
Defined.

Lemma origin_of_findTarget_witness :
  findTarget [Reference.coin 1000 "dest"] 1 [Reference.coin 5000 "a"] "chg"
  = Return Reference.spend
  /\ inputs Reference.spend <> []
  /\ exists first rest,
       List.filter (isEffective 1) [Reference.coin 5000 "a"] = first :: rest
       /\ isFromAccount Reference.spend = Coin_isFromAccount first
       /\ isFromLegacy Reference.spend = Coin_isFromLegacy first.
Proof.
  assert (H2 : inputs Reference.spend <> []) by discriminate.
  split; [exact reference_findTarget_spend|]. split; [exact H2|].
  exact (proj2 (origin_of_findTarget _ 1 _ "chg" _ reference_findTarget_spend) H2).
Defined.

Lemma _branchAndBound_budget_witness :
  _branchAndBound (Num 1044) (Num 182) 1 None (fun _ => 0%Q)
    [Reference.coin 1200 "b"] [] (Num 0)
    {| bnbTries := 1000000; seededDraws := 0; randomDraws := 0 |}
  = ([Reference.coin 1200 "b"],
     {| bnbTries := 999997; seededDraws := 0; randomDraws := 1 |})
  /\ 999997 <= 1000000 - 1
  /\ (1 <= 1000000 -> - Z.of_nat (length [Reference.coin 1200 "b"]) <= 999997).
Proof.
  assert (H : _branchAndBound (Num 1044) (Num 182) 1 None (fun _ => 0%Q)
                [Reference.coin 1200 "b"] [] (Num 0)
                {| bnbTries := 1000000; seededDraws := 0; randomDraws := 0 |}
              = ([Reference.coin 1200 "b"],
                 {| bnbTries := 999997; seededDraws := 0; randomDraws := 1 |}))
    by (vm_compute; reflexivity).
  split; [exact H|].
  destruct (_branchAndBound_budget _ _ _ _ _ _ _ _ _ _ _ H) as (Ha & _ & Hc).
  split; [exact Ha|exact Hc].
Defined.

Lemma branchAndBound_match_fee_witness :
  branchAndBound [Sample.dest] 1
    [Reference.coin 5000 "a"; Reference.coin 1200 "b"; Reference.coin 700 "c"]
    "chg" (Some "seed") (fun _ => 0%Q) = Return Sample.matched
  /\ ((exists n,
         singleRandomDraw [Sample.dest] 1
           (sortedCoinsOf 1 [Reference.coin 5000 "a"; Reference.coin 1200 "b";
                             Reference.coin 700 "c"])
           "chg" (Some "seed") (fun k => (fun _ : nat => 0%Q) (n + k)%nat)
         = Return Sample.matched)
      \/ (exists b z,
            transactionBytes [] (map ACoin [Sample.dest]) = Return (Num b)
            /\ inputs Sample.matched <> []
            /\ outputs Sample.matched = [Sample.dest]
            /\ fee Sample.matched = Num z
            /\ b * 1 + inputFees 1 (inputs Sample.matched) <= z
               <= b * 1 + inputFees 1 (inputs Sample.matched) + dustThreshold 1)).
Proof.
  split; [exact reference_branchAndBound_match|].
  exact (branchAndBound_match_fee [Sample.dest] 1 _ "chg" (Some "seed")
           (fun _ => 0%Q) _ reference_branchAndBound_match).
Defined.

Lemma branchAndBound_finds_match_witness :
  transactionBytes [] (map ACoin [Sample.dest]) = Return (Num 44)
  /\ sumValues [Sample.dest] = Num 1000
  /\ 0 < 1000 + 44 * 1
  /\ (length (List.filter (isEffective 1)
                [Reference.coin 5000 "a"; Reference.coin 1200 "b";
                 Reference.coin 700 "c"]) <= 18)%nat
  /\ [Reference.coin 1200 "b"]
       ⊆+ List.filter (isEffective 1)
            [Reference.coin 5000 "a"; Reference.coin 1200 "b"; Reference.coin 700 "c"]
  /\ jsum (map (effectiveValue 1) [Reference.coin 1200 "b"]) = Num 1052
  /\ 1000 + 44 * 1 <= 1052 <= 1000 + 44 * 1 + dustThreshold 1
  /\ exists selected,
       selected <> []
       /\ branchAndBound [Sample.dest] 1
            [Reference.coin 5000 "a"; Reference.coin 1200 "b"; Reference.coin 700 "c"]
            "chg" None (fun _ => 1%Q) =
            Return {| fee := (sumValues selected - Num 1000)%js;
                      inputs := selected;
                      outputs := [Sample.dest] |}.
Proof.
  assert (H1 := reference_bare_transaction).
  assert (H2 : sumValues [Sample.dest] = Num 1000) by reflexivity.
  assert (H3 : 0 < 1000 + 44 * 1) by lia.
  assert (H4 : (length (List.filter (isEffective 1)
                  [Reference.coin 5000 "a"; Reference.coin 1200 "b";
                   Reference.coin 700 "c"]) <= 18)%nat) by (vm_compute; lia).
  assert (H5 : [Reference.coin 1200 "b"]
                 ⊆+ List.filter (isEffective 1)
                      [Reference.coin 5000 "a"; Reference.coin 1200 "b";
                       Reference.coin 700 "c"]).
  { apply sublist_submseteq. vm_compute. repeat constructor. }
  assert (H6 : jsum (map (effectiveValue 1) [Reference.coin 1200 "b"]) = Num 1052)
    by reflexivity.
  assert (H7 : 1000 + 44 * 1 <= 1052 <= 1000 + 44 * 1 + dustThreshold 1)
    by (vm_compute; split; discriminate).
  split; [exact H1|]. split; [exact H2|]. split; [exact H3|]. split; [exact H4|].
  split; [exact H5|]. split; [exact H6|]. split; [exact H7|].
  exact (branchAndBound_finds_match [Sample.dest] 1 _ "chg" None (fun _ => 1%Q)
           44 1000 _ 1052 H1 H2 H3 H4 H5 H6 H7).
Defined.

Lemma getByteCount_at_least_10_witness :
  getByteCount [] [] = Return (Num 10) /\ 10 <= 10.
Proof.
  assert (H : getByteCount [] [] = Return (Num 10)) by (vm_compute; reflexivity).
  split; [exact H|]. exact (getByteCount_at_least_10 [] [] 10 H).
Defined.

(** ** The claims on the balance, the sweep and the search at concrete inputs *)



Lemma selectAll_single_output_witness :
  0 <= 1
  /\ (forall c, In c [Reference.coin 100 "a"] ->
        @isEffective Reference.coinModule 1 c = false)
  /\ @selectAll Reference.coinModule 1 [Reference.coin 100 "a"] "out"
     = Return {| fee := Num 0;
                 inputs := [];
                 outputs := [{| value := Num 0; address := "out"; change := false |}] |}.
Proof.
  assert (H1 : 0 <= 1) by lia.
  assert (H2 : forall c, In c [Reference.coin 100 "a"] ->
                 @isEffective Reference.coinModule 1 c = false).
  { intros c [<-|[]]. reflexivity. }
  split; [exact H1|]. split; [exact H2|].
  exact (proj2 (proj2 (proj2 (@selectAll_single_output Reference.coinModule
                                1 [Reference.coin 100 "a"] "out"))) H1 H2).
Defined.

(** C9, the claim as stated fails: the sweep of a coin whose script type
    is multisig-prefixed and has no [":"] part raises, and at a negative
    fee rate the sweep of no coin has an output that is not 0. *)
Lemma selectAll_raises_or_pays_out :
  @isEffective (Reference.typed "MULTISIG-P2SH") 1 (Reference.coin 5000 "a") = true
  /\ @selectAll (Reference.typed "MULTISIG-P2SH") 1 [Reference.coin 5000 "a"] "out"
     = Throw (Error "invalid input: MULTISIG-P2SH")
  /\ @selectAll Reference.coinModule (-1) [] "out"
     = Return {| fee := Num (-44);
                 inputs := [];
                 outputs := [{| value := Num 44; address := "out"; change := false |}] |}.
Proof. repeat split; vm_compute; reflexivity. Qed.


(** A script type that names a method every object inherits: the reducer
    counts a string, and the size estimate raises. *)
Lemma transactionBytes_inherited_type_raises :
  @transactionBytes (Reference.typed "toString")
    [ACoin (Reference.coin 5000 "a")] [EmptyObject]
  = Throw (RangeError "value out of range")
  /\ @transactionRaises (Reference.typed "toString")
       [ACoin (Reference.coin 5000 "a")] [EmptyObject] = true
  /\ @transactionBytes (Reference.typed "__proto__")
       [ACoin (Reference.coin 5000 "a")] [EmptyObject]
     = Return (Num 44).
Proof. repeat split; vm_compute; reflexivity. Qed.
